(** * The simulation core of the maze-chase game, embedded in Rocq

    The development follows the Python sources [src/utils.py] (geometry
    kernel and A* search), [src/map.py] (maze and collision service),
    [src/game_objects.py] (entities) and [main.py] (rules controller).

    Numbers.  Python mixes [int] and [float].  Positions, speeds and
    the distances between positions are modelled exactly: what the game
    computes for them with [+], [-], [*], [abs] and [//] is a rational
    [Q] (or an integer [Z] where the code can only hold an [int]), and a
    distance [a + sqrt b] is the pair [Surd.mk a b], compared by an exact
    decision procedure whose meaning over the reals is proved
    ([Surd_ltb_spec]).  Where the rounding of doubles decides what
    happens, the model computes in IEEE 754 binary64 ([F64], the format
    of the Standard Library's [SpecFloat]): the timers and [delta_time],
    the difficulty formulas with their [int()], and [normalize] with the
    magnitude it divides by.

    Errors.  A Python exception is a value [Raise e] of the type
    [result]; a function that can raise returns in that type.

    Loops.  [while] loops without a syntactic bound take a fuel argument;
    running out of fuel is the distinct outcome [OutOfFuel], and the
    theorems that speak of a result prove that some fuel produces it. *)

From Stdlib Require Import ZArith QArith Qround Qabs Qminmax Lia Lqa Reals Lra Bool String.
From Stdlib Require SpecFloat.
From stdpp Require Import base list gmap strings sorting.

Local Open Scope string_scope.
Local Open Scope list_scope.
Local Open Scope Z_scope.

(** ** Exceptions *)

Inductive PyError : Type :=
  | ZeroDivisionError
  | IndexError
  | ValueError
  | OverflowError.

Inductive result (A : Type) : Type :=
  | Ok (a : A)
  | Raise (e : PyError).

Arguments Ok {A} a.
Arguments Raise {A} e.

#[global] Instance result_ret : MRet result := fun A a => Ok a.

#[global] Instance result_bind : MBind result :=
  fun A B f m => match m with Ok a => f a | Raise e => Raise e end.

#[global] Instance result_fmap : FMap result :=
  fun A B f m => match m with Ok a => Ok (f a) | Raise e => Raise e end.

(** ** Python's [float]: IEEE 754 binary64 *)

Module F64.

(** A double, as the Standard Library specifies the format: zero,
    infinity, NaN, or [m * 2 ^ e] with a sign. *)
Definition t : Type := SpecFloat.spec_float.

Definition prec : Z := 53.
Definition emax : Z := 1024.

(** [float(n)], the nearest double, ties to even.  An integer beyond the
    range of the doubles gives an infinity here; Python raises
    [OverflowError] for it ([Py.to_float]). *)
Definition of_Z (n : Z) : t := SpecFloat.binary_normalize prec emax n 0 false.

Definition add : t → t → t := SpecFloat.SFadd prec emax.
Definition sub : t → t → t := SpecFloat.SFsub prec emax.
Definition mul : t → t → t := SpecFloat.SFmul prec emax.
Definition div : t → t → t := SpecFloat.SFdiv prec emax.
Definition sqrt : t → t := SpecFloat.SFsqrt prec emax.

Definition eqb : t → t → bool := SpecFloat.SFeqb.
Definition ltb : t → t → bool := SpecFloat.SFltb.
Definition leb : t → t → bool := SpecFloat.SFleb.

Definition is_nan (a : t) : bool :=
  match a with SpecFloat.S754_nan => true | _ => false end.

Definition is_infinite (a : t) : bool :=
  match a with SpecFloat.S754_infinity _ => true | _ => false end.

(** The double a decimal literal such as [0.4] denotes: the quotient of
    two integers that are doubles themselves, correctly rounded. *)
Definition ratio (n d : Z) : t := div (of_Z n) (of_Z d).

(** [min(a, b)] of Python: [b] when [b < a], else [a] *)
Definition min (a b : t) : t := if ltb b a then b else a.

(** [int(a)]: truncation towards zero.  Python raises [OverflowError] on
    an infinity and [ValueError] on a NaN, where this function gives 0. *)
Definition int (a : t) : Z :=
  match a with
  | SpecFloat.S754_finite s m e =>
      let n := if 0 <=? e then Z.pos m * 2 ^ e else Z.pos m / 2 ^ (- e) in
      if s then - n else n
  | _ => 0
  end.

End F64.

(** An [int] where the code computes with [float]s: times in
    milliseconds, the constants of the difficulty formulas. *)
Coercion F64.of_Z : Z >-> F64.t.

(** ** Python numbers, [int] or [float], and their mixed arithmetic *)

Module Py.

Inductive num : Type :=
  | Int (n : Z)
  | Float (f : F64.t).

(** The conversion the interpreter makes of an operand of mixed
    arithmetic, and of the argument of [math.sqrt] *)
Definition to_float (a : num) : result F64.t :=
  match a with
  | Float f => Ok f
  | Int n => if F64.is_infinite (F64.of_Z n) then Raise OverflowError else Ok (F64.of_Z n)
  end.

(** [a * b] *)
Definition mul (a b : num) : result num :=
  match a, b with
  | Int m, Int n => Ok (Int (m * n))
  | _, _ =>
      fa ← to_float a;
      fb ← to_float b;
      Ok (Float (F64.mul fa fb))
  end.

(** [a + b] *)
Definition add (a b : num) : result num :=
  match a, b with
  | Int m, Int n => Ok (Int (m + n))
  | _, _ =>
      fa ← to_float a;
      fb ← to_float b;
      Ok (Float (F64.add fa fb))
  end.

(** [math.sqrt(a)]: a negative argument is a domain error ([-0.0] is
    not negative, and the root of a NaN is a NaN). *)
Definition math_sqrt (a : num) : result F64.t :=
  f ← to_float a;
  if F64.ltb f 0 then Raise ValueError else Ok (F64.sqrt f).

(** [a / b] for a [float] divisor *)
Definition truediv (a : num) (b : F64.t) : result F64.t :=
  fa ← to_float a;
  if F64.eqb b 0 then Raise ZeroDivisionError else Ok (F64.div fa b).

End Py.

(** ** Exact values of [math.sqrt] *)

Module Surd.

(** [mk a b] stands for the real number [a + sqrt b]. *)
Record t : Type := mk { rat : Q; rad : Q }.

Definition of_Q (q : Q) : t := mk q 0.

(** [math.sqrt(q)] *)
Definition sqrt (q : Q) : t := mk 0 q.

(** [q + s] for a rational [q] *)
Definition add_Q (q : Q) (s : t) : t := mk (q + rat s) (rad s).

(** [a < b], decided on the rational parts and the radicands. *)
Definition ltb (a b : t) : bool :=
  let d := (rat b - rat a)%Q in
  if Qle_bool 0 d then
    let c := (rad a - d * d - rad b)%Q in
    if Qle_bool 0 c then negb (Qle_bool (4 * (d * d) * rad b) (c * c)) else true
  else
    let c := (rad b - rad a - d * d)%Q in
    if Qle_bool c 0 then false else negb (Qle_bool (c * c) (4 * (d * d) * rad a)).

Definition gtb (a b : t) : bool := ltb b a.

Definition leb (a b : t) : bool := negb (ltb b a).

Definition eqb (a b : t) : bool := negb (ltb a b) && negb (ltb b a).

(** The real number a surd denotes. *)
Definition toR (s : t) : R := (Q2R (rat s) + R_sqrt.sqrt (Q2R (rad s)))%R.

End Surd.

(** ** utils.py: Direction, GameState, Vector2D *)

Inductive Direction : Type := UP | DOWN | LEFT | RIGHT | NONE.

(** [Direction.value] *)
Definition value (d : Direction) : Z * Z :=
  match d with
  | UP => (0, -1)
  | DOWN => (0, 1)
  | LEFT => (-1, 0)
  | RIGHT => (1, 0)
  | NONE => (0, 0)
  end.

#[global] Instance Direction_eq_dec : EqDecision Direction.
Proof. solve_decision. Defined.

Inductive GameState : Type :=
  | MENU | PLAYING | GAME_OVER | PAUSED | VICTORY | OPTIONS | HISTORY | INTERMISSION.

#[global] Instance GameState_eq_dec : EqDecision GameState.
Proof. solve_decision. Defined.

Module Vector2D.

Record t : Type := mk { x : Q; y : Q }.

(** [__add__] *)
Definition add (a b : t) : t := mk (x a + x b) (y a + y b).

(** [__sub__] *)
Definition sub (a b : t) : t := mk (x a - x b) (y a - y b).

(** [__mul__] *)
Definition mul (a : t) (scalar : Q) : t := mk (x a * scalar) (y a * scalar).

(** [__eq__]: numeric equality of both coordinates *)
Definition eqb (a b : t) : bool := Qeq_bool (x a) (x b) && Qeq_bool (y a) (y b).

Definition magnitude (a : t) : Surd.t := Surd.sqrt (x a * x a + y a * y a).

Definition distance_to (a other : t) : Surd.t := magnitude (sub a other).

Definition manhattan_distance_to (a other : t) : Q :=
  (Qabs (x a - x other) + Qabs (y a - y other))%Q.

Definition to_tuple (a : t) : Q * Q := (x a, y a).

Definition copy (a : t) : t := mk (x a) (y a).

(** A [Vector2D] as the interpreter holds it, each coordinate an [int]
    or a [float] *)
Record stored : Type := store { sx : Py.num; sy : Py.num }.

(** [magnitude], as the interpreter computes it *)
Definition magnitude_stored (a : stored) : result F64.t :=
  xx ← Py.mul (sx a) (sx a);
  yy ← Py.mul (sy a) (sy a);
  sum ← Py.add xx yy;
  Py.math_sqrt sum.

(** [normalize] *)
Definition normalize (a : stored) : result stored :=
  mag ← magnitude_stored a;
  if F64.eqb mag 0 then Ok (store (Py.Int 0) (Py.Int 0))
  else
    nx ← Py.truediv (sx a) mag;
    ny ← Py.truediv (sy a) mag;
    Ok (store (Py.Float nx) (Py.Float ny)).

End Vector2D.

(** ** map.py: the maze and collision service *)

Module Map.

(** The attributes of [Map] the simulation reads.  Cell codes: 0 empty,
    1 wall, 2 pellet, 3 power-up. *)
Record t : Type := mk {
  _layout : list (list Z);
  _cell_size : Z;
  _width : Z;
  _height : Z;
  _spawn_positions : gmap string Vector2D.t
}.

Definition set_layout (m : t) (layout : list (list Z)) : t :=
  mk layout (_cell_size m) (_width m) (_height m) (_spawn_positions m).

(** [_update_dimensions] *)
Definition _update_dimensions (m : t) : t :=
  mk (_layout m) (_cell_size m)
     (match _layout m with [] => 0 | row :: _ => Z.of_nat (length row) end)
     (Z.of_nat (length (_layout m)))
     (_spawn_positions m).

(** [_set_default_spawn_positions] *)
Definition _set_default_spawn_positions (m : t) : t :=
  let cs := _cell_size m in
  let at_cell (cx cy : Z) :=
    Vector2D.mk (inject_Z (cx * cs + cs / 2)) (inject_Z (cy * cs + cs / 2)) in
  mk (_layout m) cs (_width m) (_height m)
     (<["player" := at_cell 1 1]>
      (<["ghost_red" := at_cell 17 9]>
       (<["ghost_pink" := at_cell 18 9]>
        (<["ghost_cyan" := at_cell 17 10]>
         (<["ghost_orange" := at_cell 18 10]> ∅))))).

(** [Map(layout_data, cell_size)]: the constructor on manual layout data;
    a missing (or zero) cell size is replaced by the base sprite size 16. *)
Definition init (layout_data : list (list Z)) (cell_size : option Z) : t :=
  let cs := match cell_size with
            | Some c => if c =? 0 then 16 else c
            | None => 16
            end in
  _set_default_spawn_positions (_update_dimensions (mk layout_data cs 0 0 ∅)).

(** [int(a // b)] for a coordinate [a] and the cell size [b] *)
Definition floordiv (a : Q) (b : Z) : result Z :=
  if b =? 0 then Raise ZeroDivisionError
  else Ok (Qfloor (a / inject_Z b)).

(** [layout[row][col]] for indices already known to be non-negative *)
Definition index2 (layout : list (list Z)) (row col : Z) : result Z :=
  match layout !! Z.to_nat row with
  | None => Raise IndexError
  | Some r =>
      match r !! Z.to_nat col with
      | None => Raise IndexError
      | Some cell => Ok cell
      end
  end.

Definition in_bounds (m : t) (row col : Z) : bool :=
  (0 <=? row) && (row <? _height m) && (0 <=? col) && (col <? _width m).

Definition is_wall (m : t) (position : Vector2D.t) : result bool :=
  col ← floordiv (Vector2D.x position) (_cell_size m);
  row ← floordiv (Vector2D.y position) (_cell_size m);
  if (row <? 0) || (row >=? _height m) || (col <? 0) || (col >=? _width m)
  then Ok true
  else cell ← index2 (_layout m) row col; Ok (cell =? 1).

(** The clearance half-extent [half_size] chosen inside
    [is_valid_position].  [object_size // 2.125] is a float floor
    division, [object_size // 3] an integer one. *)
Definition half_size (object_size : Z) (type : string) : Q :=
  if String.eqb type "player" then
    inject_Z (Qfloor (inject_Z object_size / 2.125))
  else if String.eqb type "ghost" then
    inject_Z (object_size / 3)
  else
    inject_Z (object_size / 3).

Definition corners (position : Vector2D.t) (half : Q) : list Vector2D.t :=
  let px := Vector2D.x position in
  let py := Vector2D.y position in
  [ Vector2D.mk (px - half)%Q (py - half)%Q;
    Vector2D.mk (px + half)%Q (py - half)%Q;
    Vector2D.mk (px - half)%Q (py + half)%Q;
    Vector2D.mk (px + half)%Q (py + half)%Q ].

(** The loop [for corner in corners: if self.is_wall(corner): return False] *)
Fixpoint no_wall_at (m : t) (cs : list Vector2D.t) : result bool :=
  match cs with
  | [] => Ok true
  | corner :: rest =>
      is_wall m corner ≫= fun w : bool =>
      if w then Ok false else no_wall_at m rest
  end.

Definition is_valid_position (m : t) (position : Vector2D.t)
    (object_size : Z) (type : string) : result bool :=
  no_wall_at m (corners position (half_size object_size type)).

(** [self._layout[row][col] = value] *)
Definition set_cell (layout : list (list Z)) (row col value : Z) : list (list Z) :=
  alter (fun r => <[Z.to_nat col := value]> r) (Z.to_nat row) layout.

(** [remove_pellet_at] returns the map after the call and the call's
    return value. *)
Definition remove_pellet_at (m : t) (position : Vector2D.t) : result (t * bool) :=
  col ← floordiv (Vector2D.x position) (_cell_size m);
  row ← floordiv (Vector2D.y position) (_cell_size m);
  if in_bounds m row col then
    cell ← index2 (_layout m) row col;
    if (cell =? 2) || (cell =? 3)
    then Ok (set_layout m (set_cell (_layout m) row col 0), true)
    else Ok (m, false)
  else Ok (m, false).

(** [count_pellets] *)
Definition count_pellets (m : t) : Z :=
  Z.of_nat (length (filter (fun cell => cell = 2 ∨ cell = 3) (concat (_layout m)))).

(** [get_spawn_position] *)
Definition get_spawn_position (m : t) (entity_type : string) : Vector2D.t :=
  default (Vector2D.mk (inject_Z (_cell_size m)) (inject_Z (_cell_size m)))
          (_spawn_positions m !! entity_type).

(** [load_default_map]: the built-in maze the game falls back to *)
Definition default_layout : list (list Z) :=
  [
     [1; 1; 1; 1; 1; 1; 1; 1; 1; 1; 1; 1; 1; 1; 1; 1; 1; 1; 1; 1; 1; 1; 1; 1; 1; 1; 1; 1; 1; 1; 1; 1; 1; 1; 1];
     [1; 2; 2; 2; 2; 2; 2; 2; 2; 2; 2; 2; 2; 2; 2; 2; 2; 1; 2; 2; 2; 2; 2; 2; 2; 2; 2; 2; 2; 2; 2; 2; 2; 2; 1];
     [1; 3; 1; 1; 1; 1; 2; 1; 1; 1; 1; 1; 2; 1; 1; 1; 2; 1; 2; 1; 1; 1; 2; 1; 1; 1; 1; 1; 2; 1; 1; 1; 1; 3; 1];
     [1; 2; 2; 2; 2; 2; 2; 2; 2; 2; 2; 2; 2; 2; 2; 2; 2; 2; 2; 2; 2; 2; 2; 2; 2; 2; 2; 2; 2; 2; 2; 2; 2; 2; 1];
     [1; 2; 1; 1; 1; 1; 2; 1; 1; 2; 1; 1; 1; 1; 1; 1; 1; 1; 1; 1; 1; 1; 1; 2; 1; 1; 2; 1; 1; 1; 1; 1; 2; 1];
     [1; 2; 2; 2; 2; 2; 2; 1; 1; 2; 2; 2; 2; 2; 2; 2; 2; 1; 2; 2; 2; 2; 2; 2; 2; 2; 2; 1; 1; 2; 2; 2; 2; 2; 1];
     [1; 1; 1; 1; 1; 1; 2; 1; 1; 1; 1; 1; 1; 1; 1; 1; 0; 1; 0; 1; 1; 1; 1; 1; 1; 1; 1; 1; 1; 2; 1; 1; 1; 1; 1];
     [0; 0; 0; 0; 0; 1; 2; 1; 1; 0; 0; 0; 0; 0; 0; 0; 0; 0; 0; 0; 0; 0; 0; 0; 0; 0; 0; 1; 1; 2; 1; 0; 0; 0; 0];
     [1; 1; 1; 1; 1; 1; 2; 1; 1; 0; 1; 1; 1; 1; 1; 1; 0; 0; 0; 1; 1; 1; 1; 1; 1; 1; 0; 1; 1; 2; 1; 1; 1; 1; 1];
     [1; 0; 0; 0; 0; 0; 2; 0; 0; 0; 1; 0; 0; 0; 0; 0; 0; 0; 0; 0; 0; 0; 0; 0; 0; 1; 0; 0; 0; 2; 0; 0; 0; 0; 1];
     [1; 1; 1; 1; 1; 1; 2; 1; 1; 0; 1; 0; 0; 0; 0; 0; 0; 0; 0; 0; 0; 0; 0; 0; 0; 1; 0; 1; 1; 2; 1; 1; 1; 1; 1];
     [0; 0; 0; 0; 0; 1; 2; 1; 1; 0; 1; 1; 1; 1; 1; 1; 1; 1; 1; 1; 1; 1; 1; 1; 1; 1; 0; 1; 1; 2; 1; 0; 0; 0; 0];
     [1; 1; 1; 1; 1; 1; 2; 1; 1; 0; 0; 0; 0; 0; 0; 0; 0; 0; 0; 0; 0; 0; 0; 0; 0; 0; 0; 1; 1; 2; 1; 1; 1; 1; 1];
     [1; 2; 2; 2; 2; 2; 2; 2; 2; 2; 2; 2; 2; 2; 2; 2; 2; 1; 2; 2; 2; 2; 2; 2; 2; 2; 2; 2; 2; 2; 2; 2; 2; 2; 1];
     [1; 2; 1; 1; 1; 1; 2; 1; 1; 1; 1; 1; 2; 1; 1; 1; 2; 1; 2; 1; 1; 1; 2; 1; 1; 1; 1; 1; 2; 1; 1; 1; 1; 2; 1];
     [1; 3; 2; 2; 1; 1; 2; 2; 2; 2; 2; 2; 2; 2; 2; 2; 2; 2; 2; 2; 2; 2; 2; 2; 2; 2; 2; 2; 2; 1; 1; 2; 2; 3; 1];
     [1; 1; 1; 2; 1; 1; 2; 1; 1; 2; 1; 1; 1; 1; 1; 1; 1; 1; 1; 1; 1; 1; 1; 1; 1; 2; 1; 1; 2; 1; 1; 2; 1; 1; 1];
     [1; 2; 2; 2; 2; 2; 2; 1; 1; 2; 2; 2; 2; 2; 2; 2; 2; 1; 2; 2; 2; 2; 2; 2; 2; 2; 2; 1; 1; 2; 2; 2; 2; 2; 1];
     [1; 2; 1; 1; 1; 1; 1; 1; 1; 1; 1; 1; 1; 1; 1; 1; 2; 1; 2; 1; 1; 1; 1; 1; 1; 1; 1; 1; 1; 1; 1; 1; 1; 2; 1];
     [1; 2; 2; 2; 2; 2; 2; 2; 2; 2; 2; 2; 2; 2; 2; 2; 2; 2; 2; 2; 2; 2; 2; 2; 2; 2; 2; 2; 2; 2; 2; 2; 2; 2; 1];
     [1; 1; 1; 1; 1; 1; 1; 1; 1; 1; 1; 1; 1; 1; 1; 1; 1; 1; 1; 1; 1; 1; 1; 1; 1; 1; 1; 1; 1; 1; 1; 1; 1; 1; 1] ].

Definition load_default_map (m : t) : t :=
  _set_default_spawn_positions (_update_dimensions (set_layout m default_layout)).

(** The grid invariant of the data model: a positive cell size, the
    recorded height is the number of rows, and every row has the recorded
    width. *)
Definition well_formed (m : t) : Prop :=
  0 < _cell_size m
  ∧ _height m = Z.of_nat (length (_layout m))
  ∧ Forall (fun row => Z.of_nat (length row) = _width m) (_layout m).

(** The dictionaries [get_pellets] returns, with the keys ["position"],
    ["type"] and ["value"] as fields *)
Record pellet_info : Type := mk_pellet_info {
  position : Vector2D.t;
  type : string;
  value : Z
}.

(** The inner loop of [get_pellets], [for col_idx, cell in enumerate(row)],
    from the column [col_idx] on *)
Fixpoint row_pellets (m : t) (row_idx col_idx : Z) (row : list Z) : list pellet_info :=
  match row with
  | [] => []
  | cell :: rest =>
      let x := col_idx * _cell_size m + _cell_size m / 2 in
      let y := row_idx * _cell_size m + _cell_size m / 2 in
      let here := Vector2D.mk (inject_Z x) (inject_Z y) in
      let others := row_pellets m row_idx (col_idx + 1) rest in
      if cell =? 2 then mk_pellet_info here "normal" 10 :: others
      else if cell =? 3 then mk_pellet_info here "power_up" 50 :: others
      else others
  end.

(** The outer loop, [for row_idx, row in enumerate(self._layout)] *)
Fixpoint rows_pellets (m : t) (row_idx : Z) (layout : list (list Z)) : list pellet_info :=
  match layout with
  | [] => []
  | row :: rest => row_pellets m row_idx 0 row ++ rows_pellets m (row_idx + 1) rest
  end.

Definition get_pellets (m : t) : list pellet_info := rows_pellets m 0 (_layout m).

(** [_validate_dimensions] *)
Definition _validate_dimensions (m : t) : bool := (0 <? _width m) && (0 <? _height m).

(** *** Map files *)

(** What [json.load] returns.  An object is the list of its items, each
    key once; the value of a float plays no part in what follows, so a
    float has no payload. *)
#[local] Unset Elimination Schemes.
Inductive json : Type :=
  | JNull
  | JBool (b : bool)
  | JInt (n : Z)
  | JFloat
  | JStr (s : string)
  | JList (items : list json)
  | JDict (items : list (string * json)).
#[local] Set Elimination Schemes.

Inductive json_error : Type := TypeError | KeyError.

Inductive checked (A : Type) : Type :=
  | Returns (a : A)
  | Raises (e : json_error).

Arguments Returns {A} a.
Arguments Raises {A} e.

(** The value under [key] among the items of an object *)
Fixpoint dict_get (key : string) (d : list (string * json)) : option json :=
  match d with
  | [] => None
  | (k, v) :: rest => if String.eqb k key then Some v else dict_get key rest
  end.

(** [field in map_data]: a key of an object, an element of a list, a
    substring of a string; anything else is not iterable. *)
Definition contains (field : string) (map_data : json) : checked bool :=
  match map_data with
  | JDict d => Returns (match dict_get field d with Some _ => true | None => false end)
  | JList l =>
      Returns (existsb (fun v => match v with JStr s => String.eqb s field | _ => false end) l)
  | JStr s => Returns (match String.index 0 field s with Some _ => true | None => false end)
  | _ => Raises TypeError
  end.

(** [map_data[key]] for a string [key] *)
Definition getitem (map_data : json) (key : string) : checked json :=
  match map_data with
  | JDict d => match dict_get key d with Some v => Returns v | None => Raises KeyError end
  | _ => Raises TypeError
  end.

(** [len(v)] *)
Definition py_len (v : json) : checked nat :=
  match v with
  | JList l => Returns (length l)
  | JStr s => Returns (String.length s)
  | JDict d => Returns (length d)
  | _ => Raises TypeError
  end.

(** The integer a value is when [isinstance(v, int)] holds; [bool] is a
    subclass of [int], with [False] = 0 and [True] = 1. *)
Definition as_int (v : json) : option Z :=
  match v with
  | JInt n => Some n
  | JBool b => Some (if b then 1 else 0)
  | _ => None
  end.

(** [for j, cell in enumerate(row)]: [true] when the loop ends without
    [return False] *)
Fixpoint check_cells (row : list json) : bool :=
  match row with
  | [] => true
  | cell :: rest =>
      let bad := match as_int cell with
                 | None => true
                 | Some n => (n <? 0) || (3 <? n)
                 end in
      if bad then false else check_cells rest
  end.

(** [for i, row in enumerate(layout)] *)
Fixpoint check_rows (row_length : nat) (layout : list json) : bool :=
  match layout with
  | [] => true
  | row :: rest =>
      match row with
      | JList cells =>
          if negb (length cells =? row_length)%nat then false
          else if check_cells cells then check_rows row_length rest
          else false
      | _ => false
      end
  end.

(** [_validate_map_json] *)
Definition _validate_map_json (map_data : json) : checked bool :=
  match contains "layout" map_data with
  | Raises e => Raises e
  | Returns false => Returns false
  | Returns true =>
      match getitem map_data "layout" with
      | Raises e => Raises e
      | Returns layout =>
          match layout with
          | JList [] => Returns false
          | JList (first :: rest) =>
              match py_len first with
              | Raises e => Raises e
              | Returns row_length => Returns (check_rows row_length (first :: rest))
              end
          | _ => Returns false
          end
      end
  end.

(** The grid of integers a JSON layout is, when it is one *)
Definition row_of (row : json) : option (list Z) :=
  match row with
  | JList cells => mapM as_int cells
  | _ => None
  end.

Definition layout_of (layout : json) : option (list (list Z)) :=
  match layout with
  | JList rows => mapM row_of rows
  | _ => None
  end.

End Map.

(** ** utils.py: the A* search *)

(** [AStarNode]: a position, its costs and the parent link.  [g_cost] is
    built from [0] by adding [16] and is an [int]; [h_cost] is what
    [heuristic] returned. *)
#[warnings="-register-all"]
Inductive AStarNode : Type :=
  mkNode {
    position : Vector2D.t;
    g_cost : Z;
    h_cost : Surd.t;
    parent : option AStarNode
  }.

(** [f_cost = g_cost + h_cost] *)
Definition f_cost (n : AStarNode) : Surd.t :=
  Surd.add_Q (inject_Z (g_cost n)) (h_cost n).

(** [AStarNode.__lt__] *)
Definition node_lt (a b : AStarNode) : bool := Surd.ltb (f_cost a) (f_cost b).

(** What the search needs of [heapq] on a list of nodes: [heappush] and
    [heappop] keep exactly the nodes they are given ([heap_items] lists
    them), and [heappop] finds none only in an empty heap.  The order in
    which equal-cost nodes leave the heap is left to the instance. *)
Class HeapQ (H : Type) : Type := {
  heap_new : H;
  heappush : H → AStarNode → H;
  heappop : H → option (AStarNode * H);
  heap_items : H → list AStarNode;
  heap_new_items : heap_items heap_new = [];
  heappush_items : ∀ h n, heap_items (heappush h n) ≡ₚ n :: heap_items h;
  heappop_None : ∀ h, heappop h = None ↔ heap_items h = [];
  heappop_Some : ∀ h n h', heappop h = Some (n, h') → heap_items h ≡ₚ n :: heap_items h'
}.

Module AStar.

Definition heuristic (pos1 pos2 : Vector2D.t) (heuristic_type : string) : Surd.t :=
  let dx := Qabs (Vector2D.x pos1 - Vector2D.x pos2) in
  let dy := Qabs (Vector2D.y pos1 - Vector2D.y pos2) in
  if String.eqb heuristic_type "manhattan" then Surd.of_Q (dx + dy)
  else if String.eqb heuristic_type "euclidean" then Vector2D.distance_to pos1 pos2
  else if String.eqb heuristic_type "diagonal" then Surd.of_Q (Qmax dx dy)
  else Surd.of_Q (Vector2D.manhattan_distance_to pos1 pos2).

(** [get_neighbors(position, cell_size=16)]: UP, DOWN, LEFT, RIGHT *)
Definition get_neighbors (position : Vector2D.t) (cell_size : Z) : list Vector2D.t :=
  map (fun d : Z * Z =>
         Vector2D.mk (Vector2D.x position + inject_Z d.1)
                     (Vector2D.y position + inject_Z d.2))
      [ (0, - cell_size); (0, cell_size); (- cell_size, 0); (cell_size, 0) ].

(** [reconstruct_path]: the positions along the parent links, then
    [path.reverse()]. *)
Fixpoint parent_chain (node : AStarNode) : list Vector2D.t :=
  Vector2D.copy (position node) ::
  match parent node with
  | Some p => parent_chain p
  | None => []
  end.

Definition reconstruct_path (node : AStarNode) : list Vector2D.t :=
  rev (parent_chain node).

(** Dictionary and set keys [(x, y)]: Python compares the numbers, so
    [2] and [2.0] are the same key. *)
Definition key : Type := Q * Q.

Definition key_of (p : Vector2D.t) : key := (Vector2D.x p, Vector2D.y p).

Definition key_eqb (a b : key) : bool := Qeq_bool a.1 b.1 && Qeq_bool a.2 b.2.

(** [k in closed_list] *)
Definition key_in (k : key) (s : list key) : bool := existsb (key_eqb k) s.

(** [best_costs]: the newest binding of a key is the one in force. *)
Fixpoint dict_get (d : list (key * Z)) (k : key) : option Z :=
  match d with
  | [] => None
  | (k', v) :: d' => if key_eqb k k' then Some v else dict_get d' k
  end.

Definition dict_set (d : list (key * Z)) (k : key) (v : Z) : list (key * Z) :=
  (k, v) :: d.

Inductive outcome : Type :=
  | OutOfFuel
  | Raised (e : PyError)
  | Returned (path : list Vector2D.t).

Section Search.

Context {H : Type} `{HeapQ H}.

Variable game_map : Map.t.
Variable goal : Vector2D.t.
Variable heuristic_type : string.

(** The body of [for neighbor_pos in AStar.get_neighbors(...)] *)
Definition visit (current : AStarNode) (closed_list : list key)
    (st : H * list (key * Z)) (neighbor_pos : Vector2D.t) : result (H * list (key * Z)) :=
  let neighbor_key := key_of neighbor_pos in
  if key_in neighbor_key closed_list then Ok st
  else
    Map.is_valid_position game_map neighbor_pos 16 "ghost" ≫= fun valid : bool =>
    if negb valid then Ok st
    else
      let g := g_cost current + 16 in
      let h := heuristic neighbor_pos goal heuristic_type in
      let better := match dict_get st.2 neighbor_key with
                    | None => true
                    | Some best => g <? best
                    end in
      if better
      then Ok (heappush st.1 (mkNode neighbor_pos g h (Some current)),
               dict_set st.2 neighbor_key g)
      else Ok st.

Fixpoint visit_all (current : AStarNode) (closed_list : list key)
    (st : H * list (key * Z)) (neighbors : list Vector2D.t) : result (H * list (key * Z)) :=
  match neighbors with
  | [] => Ok st
  | n :: rest => visit current closed_list st n ≫= fun st' => visit_all current closed_list st' rest
  end.

(** [node.position.distance_to(goal) < 8] *)
Definition at_goal (node : AStarNode) : bool :=
  Surd.ltb (Vector2D.distance_to (position node) goal) (Surd.of_Q 8).

(** The loop [while open_list]. *)
Fixpoint search (fuel : nat) (open_list : H) (closed_list : list key)
    (best_costs : list (key * Z)) : outcome :=
  match fuel with
  | O => OutOfFuel
  | S fuel' =>
      match heappop open_list with
      | None => Returned []
      | Some (current_node, open_list') =>
          if at_goal current_node then Returned (reconstruct_path current_node)
          else
            let closed_list' := key_of (position current_node) :: closed_list in
            match visit_all current_node closed_list' (open_list', best_costs)
                            (get_neighbors (position current_node) 16) with
            | Raise e => Raised e
            | Ok st => search fuel' st.1 closed_list' st.2
            end
      end
  end.

(** The nodes the loop takes from the heap, in order: the expanded nodes.
    This follows [search] step for step and is used to state results. *)
Fixpoint expanded (fuel : nat) (open_list : H) (closed_list : list key)
    (best_costs : list (key * Z)) : list AStarNode :=
  match fuel with
  | O => []
  | S fuel' =>
      match heappop open_list with
      | None => []
      | Some (current_node, open_list') =>
          current_node ::
          if at_goal current_node then []
          else
            let closed_list' := key_of (position current_node) :: closed_list in
            match visit_all current_node closed_list' (open_list', best_costs)
                            (get_neighbors (position current_node) 16) with
            | Raise e => []
            | Ok st => expanded fuel' st.1 closed_list' st.2
            end
      end
  end.

End Search.

Section FindPath.

Context {H : Type} `{HeapQ H}.

Definition start_node (start goal : Vector2D.t) (heuristic_type : string) : AStarNode :=
  mkNode start 0 (heuristic start goal heuristic_type) None.

Definition find_path (fuel : nat) (start goal : Vector2D.t) (game_map : Map.t)
    (heuristic_type : string) : outcome :=
  search game_map goal heuristic_type fuel
         (heappush heap_new (start_node start goal heuristic_type))
         [] [(key_of start, 0)].

Definition find_path_expanded (fuel : nat) (start goal : Vector2D.t) (game_map : Map.t)
    (heuristic_type : string) : list AStarNode :=
  expanded game_map goal heuristic_type fuel
           (heappush heap_new (start_node start goal heuristic_type))
           [] [(key_of start, 0)].

End FindPath.

End AStar.

(** A priority queue to run the search with: a list kept sorted by
    [f_cost]; a new node goes behind the nodes that are not more costly. *)
Fixpoint sorted_insert (n : AStarNode) (l : list AStarNode) : list AStarNode :=
  match l with
  | [] => [n]
  | a :: l' => if node_lt n a then n :: a :: l' else a :: sorted_insert n l'
  end.

Definition sorted_pop (l : list AStarNode) : option (AStarNode * list AStarNode) :=
  match l with
  | [] => None
  | a :: l' => Some (a, l')
  end.

(** ** game_objects.py: entities *)

(** [sprite_manager.base_sprite_size] *)
Definition base_sprite_size : Z := 16.

(** [max(l, key=...)] and [min(l, key=...)] on a non-empty list given as
    head and tail: the first element with the greatest (least) key. *)
Definition max_by {A : Type} (key : A → Surd.t) (first : A) (rest : list A) : A :=
  fold_left (fun best a => if Surd.gtb (key a) (key best) then a else best) rest first.

Definition min_by {A : Type} (key : A → Surd.t) (first : A) (rest : list A) : A :=
  fold_left (fun best a => if Surd.ltb (key a) (key best) then a else best) rest first.

(** The attributes [MovableObject] works on; [Player] and [Ghost] inherit
    its methods. *)
Class Movable (T : Type) : Type := {
  get_position : T → Vector2D.t;
  put_position : Vector2D.t → T → T;
  get_speed : T → Q;
  get_direction : T → Direction
}.

Module MovableObject.

Section Methods.

Context {T : Type} `{Movable T}.

(** The position one step away: [position + direction.value * speed] *)
Definition step (o : T) (direction : Direction) : Vector2D.t :=
  Vector2D.mk (Vector2D.x (get_position o) + inject_Z (value direction).1 * get_speed o)
              (Vector2D.y (get_position o) + inject_Z (value direction).2 * get_speed o).

Definition can_move (o : T) (direction : Direction) (game_map : Map.t)
    (entity_type : option string) : result bool :=
  if decide (direction = NONE) then Ok false
  else
    let next_pos := step o direction in
    let entity_type := default "default" entity_type in
    Map.is_valid_position game_map next_pos base_sprite_size entity_type.

(** [move(direction=None)]: [self._position += Vector2D(dx * speed, dy * speed)] *)
Definition move (o : T) (direction : option Direction) : T :=
  let direction := default (get_direction o) direction in
  if decide (direction ≠ NONE) then
    put_position
      (Vector2D.add (get_position o)
         (Vector2D.mk (inject_Z (value direction).1 * get_speed o)
                      (inject_Z (value direction).2 * get_speed o)))
      o
  else o.

End Methods.

End MovableObject.

Module Player.

Record t : Type := mk {
  _position : Vector2D.t;
  _size : Z;
  _animation_frame : Z;
  _speed : Q;
  _direction : Direction;
  _next_direction : Direction;
  _lives : Z;
  _score : Z;
  _power_up_active : bool;
  _power_up_timer : F64.t;
  _power_up_duration : F64.t
}.

Definition set_position (v : Vector2D.t) (o : t) : t :=
  mk v (_size o) (_animation_frame o) (_speed o) (_direction o) (_next_direction o) (_lives o) (_score o) (_power_up_active o) (_power_up_timer o) (_power_up_duration o).

Definition set_size (v : Z) (o : t) : t :=
  mk (_position o) v (_animation_frame o) (_speed o) (_direction o) (_next_direction o) (_lives o) (_score o) (_power_up_active o) (_power_up_timer o) (_power_up_duration o).

Definition set_animation_frame (v : Z) (o : t) : t :=
  mk (_position o) (_size o) v (_speed o) (_direction o) (_next_direction o) (_lives o) (_score o) (_power_up_active o) (_power_up_timer o) (_power_up_duration o).

Definition set_speed (v : Q) (o : t) : t :=
  mk (_position o) (_size o) (_animation_frame o) v (_direction o) (_next_direction o) (_lives o) (_score o) (_power_up_active o) (_power_up_timer o) (_power_up_duration o).

Definition set_direction (v : Direction) (o : t) : t :=
  mk (_position o) (_size o) (_animation_frame o) (_speed o) v (_next_direction o) (_lives o) (_score o) (_power_up_active o) (_power_up_timer o) (_power_up_duration o).

Definition set_next_direction (v : Direction) (o : t) : t :=
  mk (_position o) (_size o) (_animation_frame o) (_speed o) (_direction o) v (_lives o) (_score o) (_power_up_active o) (_power_up_timer o) (_power_up_duration o).

Definition set_lives (v : Z) (o : t) : t :=
  mk (_position o) (_size o) (_animation_frame o) (_speed o) (_direction o) (_next_direction o) v (_score o) (_power_up_active o) (_power_up_timer o) (_power_up_duration o).

Definition set_score (v : Z) (o : t) : t :=
  mk (_position o) (_size o) (_animation_frame o) (_speed o) (_direction o) (_next_direction o) (_lives o) v (_power_up_active o) (_power_up_timer o) (_power_up_duration o).

Definition set_power_up_active (v : bool) (o : t) : t :=
  mk (_position o) (_size o) (_animation_frame o) (_speed o) (_direction o) (_next_direction o) (_lives o) (_score o) v (_power_up_timer o) (_power_up_duration o).

Definition set_power_up_timer (v : F64.t) (o : t) : t :=
  mk (_position o) (_size o) (_animation_frame o) (_speed o) (_direction o) (_next_direction o) (_lives o) (_score o) (_power_up_active o) v (_power_up_duration o).

Definition set_power_up_duration (v : F64.t) (o : t) : t :=
  mk (_position o) (_size o) (_animation_frame o) (_speed o) (_direction o) (_next_direction o) (_lives o) (_score o) (_power_up_active o) (_power_up_timer o) v.

#[global] Instance movable : Movable t :=
  {| get_position := _position; put_position := set_position;
     get_speed := _speed; get_direction := _direction |}.

(** [Player(x, y, color, size, speed, lives, score=0)] *)
Definition init (px py : Q) (size : Z) (speed : Q) (lives score : Z) : t :=
  mk (Vector2D.mk px py) size 0 speed NONE NONE lives score false 0 5000.

Definition can_move (p : t) (direction : Direction) (game_map : Map.t) : result bool :=
  MovableObject.can_move p direction game_map (Some "player").

Definition eat_pellet (p : t) (pellet_value : Z) : t :=
  set_score (_score p + pellet_value) p.

Definition activate_power_up (p : t) : t :=
  set_power_up_timer (_power_up_duration p) (set_power_up_active true p).

Definition lose_life (p : t) : t :=
  let p := set_lives (_lives p - 1) p in
  if _lives p <? 0 then set_lives 0 p else p.

(** The power-up countdown at the head of [update] *)
Definition tick_power_up (p : t) (delta_time : F64.t) : t :=
  if _power_up_active p then
    let p := set_power_up_timer
               (F64.sub (_power_up_timer p) (F64.mul delta_time 1000)) p in
    if F64.leb (_power_up_timer p) 0
    then set_power_up_timer 0 (set_power_up_active false p)
    else p
  else p.

(** The first direction block of [update]: take the requested direction
    if it is free, else give up a blocked committed direction. *)
Definition resolve_turn (p : t) (game_map : Map.t) : result t :=
  if decide (_next_direction p ≠ _direction p) then
    can_move p (_next_direction p) game_map ≫= fun free : bool =>
    if free then Ok (set_direction (_next_direction p) p)
    else
      can_move p (_direction p) game_map ≫= fun keep : bool =>
      if negb keep then Ok (set_direction NONE p) else Ok p
  else Ok p.

(** The second direction block of [update]: move, or stop. *)
Definition advance (p : t) (game_map : Map.t) : result t :=
  can_move p (_direction p) game_map ≫= fun free : bool =>
  if free then Ok (MovableObject.move p None)
  else
    (if decide (_next_direction p ≠ _direction p)
     then can_move p (_next_direction p) game_map
     else Ok false) ≫= fun turn : bool =>
    if turn then
      let p := set_direction (_next_direction p) p in
      Ok (MovableObject.move p None)
    else Ok (set_direction NONE p).

Definition update (p : t) (delta_time : F64.t) (game_map : Map.t) : result t :=
  let p := tick_power_up p delta_time in
  p ← resolve_turn p game_map;
  p ← advance p game_map;
  Ok (set_animation_frame (_animation_frame p + 1) p).

(** The getter of the property [direction], inherited from
    [MovableObject] *)
Definition direction (p : t) : Direction := _direction p.

(** The members of [Direction] in definition order, as [for d in
    Direction] visits them *)
Definition members : list Direction := [UP; DOWN; LEFT; RIGHT; NONE].

(** The setter of the property [direction]: a [Direction] is stored in
    [_next_direction]; a pair is looked up among the values of the
    members, the first match is stored, and a pair that is no member's
    value raises [ValueError].  The two summands are the argument types
    the setter accepts. *)
Definition direction_setter (new_direction : Direction + Q * Q) (p : t) : result t :=
  match new_direction with
  | inl d => Ok (set_next_direction d p)
  | inr new_pair =>
      match List.find (fun d => Qeq_bool (inject_Z (value d).1) new_pair.1
                                && Qeq_bool (inject_Z (value d).2) new_pair.2) members with
      | Some d => Ok (set_next_direction d p)
      | None => Raise ValueError
      end
  end.

End Player.

Module Ghost.

Record t : Type := mk {
  _position : Vector2D.t;
  _size : Z;
  _animation_frame : Z;
  _speed : Q;
  _direction : Direction;
  _next_direction : Direction;
  _state : string;
  _initial_position : Vector2D.t;
  _ghost_type : string;
  _vulnerable_timer : F64.t;
  _target_position : Vector2D.t;
  _mode_timer : F64.t;
  _current_mode : string;
  _path_finding_timer : F64.t;
  _last_direction : Direction;
  _personality_timer : F64.t;
  _current_path : list Vector2D.t;
  _path_index : Z;
  _recalculate_path_timer : F64.t;
  _use_astar : bool;
  _astar_frequency : Z;
  _last_target : option Vector2D.t;
  _smooth_movement : bool;
  _patrol_route : list Vector2D.t;
  _patrol_index : Z;
  _patrol_timer : F64.t;
  _base_speed : Q;
  _difficulty_multiplier : F64.t;
  _is_in_spawn_delay : bool;
  _spawn_delay_timer : F64.t;
  _spawn_delay_duration : F64.t
}.

Definition set_position (v : Vector2D.t) (o : t) : t :=
  mk v (_size o) (_animation_frame o) (_speed o) (_direction o) (_next_direction o) (_state o) (_initial_position o) (_ghost_type o) (_vulnerable_timer o) (_target_position o) (_mode_timer o) (_current_mode o) (_path_finding_timer o) (_last_direction o) (_personality_timer o) (_current_path o) (_path_index o) (_recalculate_path_timer o) (_use_astar o) (_astar_frequency o) (_last_target o) (_smooth_movement o) (_patrol_route o) (_patrol_index o) (_patrol_timer o) (_base_speed o) (_difficulty_multiplier o) (_is_in_spawn_delay o) (_spawn_delay_timer o) (_spawn_delay_duration o).

Definition set_size (v : Z) (o : t) : t :=
  mk (_position o) v (_animation_frame o) (_speed o) (_direction o) (_next_direction o) (_state o) (_initial_position o) (_ghost_type o) (_vulnerable_timer o) (_target_position o) (_mode_timer o) (_current_mode o) (_path_finding_timer o) (_last_direction o) (_personality_timer o) (_current_path o) (_path_index o) (_recalculate_path_timer o) (_use_astar o) (_astar_frequency o) (_last_target o) (_smooth_movement o) (_patrol_route o) (_patrol_index o) (_patrol_timer o) (_base_speed o) (_difficulty_multiplier o) (_is_in_spawn_delay o) (_spawn_delay_timer o) (_spawn_delay_duration o).

Definition set_animation_frame (v : Z) (o : t) : t :=
  mk (_position o) (_size o) v (_speed o) (_direction o) (_next_direction o) (_state o) (_initial_position o) (_ghost_type o) (_vulnerable_timer o) (_target_position o) (_mode_timer o) (_current_mode o) (_path_finding_timer o) (_last_direction o) (_personality_timer o) (_current_path o) (_path_index o) (_recalculate_path_timer o) (_use_astar o) (_astar_frequency o) (_last_target o) (_smooth_movement o) (_patrol_route o) (_patrol_index o) (_patrol_timer o) (_base_speed o) (_difficulty_multiplier o) (_is_in_spawn_delay o) (_spawn_delay_timer o) (_spawn_delay_duration o).

Definition set_speed (v : Q) (o : t) : t :=
  mk (_position o) (_size o) (_animation_frame o) v (_direction o) (_next_direction o) (_state o) (_initial_position o) (_ghost_type o) (_vulnerable_timer o) (_target_position o) (_mode_timer o) (_current_mode o) (_path_finding_timer o) (_last_direction o) (_personality_timer o) (_current_path o) (_path_index o) (_recalculate_path_timer o) (_use_astar o) (_astar_frequency o) (_last_target o) (_smooth_movement o) (_patrol_route o) (_patrol_index o) (_patrol_timer o) (_base_speed o) (_difficulty_multiplier o) (_is_in_spawn_delay o) (_spawn_delay_timer o) (_spawn_delay_duration o).

Definition set_direction (v : Direction) (o : t) : t :=
  mk (_position o) (_size o) (_animation_frame o) (_speed o) v (_next_direction o) (_state o) (_initial_position o) (_ghost_type o) (_vulnerable_timer o) (_target_position o) (_mode_timer o) (_current_mode o) (_path_finding_timer o) (_last_direction o) (_personality_timer o) (_current_path o) (_path_index o) (_recalculate_path_timer o) (_use_astar o) (_astar_frequency o) (_last_target o) (_smooth_movement o) (_patrol_route o) (_patrol_index o) (_patrol_timer o) (_base_speed o) (_difficulty_multiplier o) (_is_in_spawn_delay o) (_spawn_delay_timer o) (_spawn_delay_duration o).

Definition set_next_direction (v : Direction) (o : t) : t :=
  mk (_position o) (_size o) (_animation_frame o) (_speed o) (_direction o) v (_state o) (_initial_position o) (_ghost_type o) (_vulnerable_timer o) (_target_position o) (_mode_timer o) (_current_mode o) (_path_finding_timer o) (_last_direction o) (_personality_timer o) (_current_path o) (_path_index o) (_recalculate_path_timer o) (_use_astar o) (_astar_frequency o) (_last_target o) (_smooth_movement o) (_patrol_route o) (_patrol_index o) (_patrol_timer o) (_base_speed o) (_difficulty_multiplier o) (_is_in_spawn_delay o) (_spawn_delay_timer o) (_spawn_delay_duration o).

Definition set_state (v : string) (o : t) : t :=
  mk (_position o) (_size o) (_animation_frame o) (_speed o) (_direction o) (_next_direction o) v (_initial_position o) (_ghost_type o) (_vulnerable_timer o) (_target_position o) (_mode_timer o) (_current_mode o) (_path_finding_timer o) (_last_direction o) (_personality_timer o) (_current_path o) (_path_index o) (_recalculate_path_timer o) (_use_astar o) (_astar_frequency o) (_last_target o) (_smooth_movement o) (_patrol_route o) (_patrol_index o) (_patrol_timer o) (_base_speed o) (_difficulty_multiplier o) (_is_in_spawn_delay o) (_spawn_delay_timer o) (_spawn_delay_duration o).

Definition set_initial_position (v : Vector2D.t) (o : t) : t :=
  mk (_position o) (_size o) (_animation_frame o) (_speed o) (_direction o) (_next_direction o) (_state o) v (_ghost_type o) (_vulnerable_timer o) (_target_position o) (_mode_timer o) (_current_mode o) (_path_finding_timer o) (_last_direction o) (_personality_timer o) (_current_path o) (_path_index o) (_recalculate_path_timer o) (_use_astar o) (_astar_frequency o) (_last_target o) (_smooth_movement o) (_patrol_route o) (_patrol_index o) (_patrol_timer o) (_base_speed o) (_difficulty_multiplier o) (_is_in_spawn_delay o) (_spawn_delay_timer o) (_spawn_delay_duration o).

Definition set_ghost_type (v : string) (o : t) : t :=
  mk (_position o) (_size o) (_animation_frame o) (_speed o) (_direction o) (_next_direction o) (_state o) (_initial_position o) v (_vulnerable_timer o) (_target_position o) (_mode_timer o) (_current_mode o) (_path_finding_timer o) (_last_direction o) (_personality_timer o) (_current_path o) (_path_index o) (_recalculate_path_timer o) (_use_astar o) (_astar_frequency o) (_last_target o) (_smooth_movement o) (_patrol_route o) (_patrol_index o) (_patrol_timer o) (_base_speed o) (_difficulty_multiplier o) (_is_in_spawn_delay o) (_spawn_delay_timer o) (_spawn_delay_duration o).

Definition set_vulnerable_timer (v : F64.t) (o : t) : t :=
  mk (_position o) (_size o) (_animation_frame o) (_speed o) (_direction o) (_next_direction o) (_state o) (_initial_position o) (_ghost_type o) v (_target_position o) (_mode_timer o) (_current_mode o) (_path_finding_timer o) (_last_direction o) (_personality_timer o) (_current_path o) (_path_index o) (_recalculate_path_timer o) (_use_astar o) (_astar_frequency o) (_last_target o) (_smooth_movement o) (_patrol_route o) (_patrol_index o) (_patrol_timer o) (_base_speed o) (_difficulty_multiplier o) (_is_in_spawn_delay o) (_spawn_delay_timer o) (_spawn_delay_duration o).

Definition set_target_position (v : Vector2D.t) (o : t) : t :=
  mk (_position o) (_size o) (_animation_frame o) (_speed o) (_direction o) (_next_direction o) (_state o) (_initial_position o) (_ghost_type o) (_vulnerable_timer o) v (_mode_timer o) (_current_mode o) (_path_finding_timer o) (_last_direction o) (_personality_timer o) (_current_path o) (_path_index o) (_recalculate_path_timer o) (_use_astar o) (_astar_frequency o) (_last_target o) (_smooth_movement o) (_patrol_route o) (_patrol_index o) (_patrol_timer o) (_base_speed o) (_difficulty_multiplier o) (_is_in_spawn_delay o) (_spawn_delay_timer o) (_spawn_delay_duration o).

Definition set_mode_timer (v : F64.t) (o : t) : t :=
  mk (_position o) (_size o) (_animation_frame o) (_speed o) (_direction o) (_next_direction o) (_state o) (_initial_position o) (_ghost_type o) (_vulnerable_timer o) (_target_position o) v (_current_mode o) (_path_finding_timer o) (_last_direction o) (_personality_timer o) (_current_path o) (_path_index o) (_recalculate_path_timer o) (_use_astar o) (_astar_frequency o) (_last_target o) (_smooth_movement o) (_patrol_route o) (_patrol_index o) (_patrol_timer o) (_base_speed o) (_difficulty_multiplier o) (_is_in_spawn_delay o) (_spawn_delay_timer o) (_spawn_delay_duration o).

Definition set_current_mode (v : string) (o : t) : t :=
  mk (_position o) (_size o) (_animation_frame o) (_speed o) (_direction o) (_next_direction o) (_state o) (_initial_position o) (_ghost_type o) (_vulnerable_timer o) (_target_position o) (_mode_timer o) v (_path_finding_timer o) (_last_direction o) (_personality_timer o) (_current_path o) (_path_index o) (_recalculate_path_timer o) (_use_astar o) (_astar_frequency o) (_last_target o) (_smooth_movement o) (_patrol_route o) (_patrol_index o) (_patrol_timer o) (_base_speed o) (_difficulty_multiplier o) (_is_in_spawn_delay o) (_spawn_delay_timer o) (_spawn_delay_duration o).

Definition set_path_finding_timer (v : F64.t) (o : t) : t :=
  mk (_position o) (_size o) (_animation_frame o) (_speed o) (_direction o) (_next_direction o) (_state o) (_initial_position o) (_ghost_type o) (_vulnerable_timer o) (_target_position o) (_mode_timer o) (_current_mode o) v (_last_direction o) (_personality_timer o) (_current_path o) (_path_index o) (_recalculate_path_timer o) (_use_astar o) (_astar_frequency o) (_last_target o) (_smooth_movement o) (_patrol_route o) (_patrol_index o) (_patrol_timer o) (_base_speed o) (_difficulty_multiplier o) (_is_in_spawn_delay o) (_spawn_delay_timer o) (_spawn_delay_duration o).

Definition set_last_direction (v : Direction) (o : t) : t :=
  mk (_position o) (_size o) (_animation_frame o) (_speed o) (_direction o) (_next_direction o) (_state o) (_initial_position o) (_ghost_type o) (_vulnerable_timer o) (_target_position o) (_mode_timer o) (_current_mode o) (_path_finding_timer o) v (_personality_timer o) (_current_path o) (_path_index o) (_recalculate_path_timer o) (_use_astar o) (_astar_frequency o) (_last_target o) (_smooth_movement o) (_patrol_route o) (_patrol_index o) (_patrol_timer o) (_base_speed o) (_difficulty_multiplier o) (_is_in_spawn_delay o) (_spawn_delay_timer o) (_spawn_delay_duration o).

Definition set_personality_timer (v : F64.t) (o : t) : t :=
  mk (_position o) (_size o) (_animation_frame o) (_speed o) (_direction o) (_next_direction o) (_state o) (_initial_position o) (_ghost_type o) (_vulnerable_timer o) (_target_position o) (_mode_timer o) (_current_mode o) (_path_finding_timer o) (_last_direction o) v (_current_path o) (_path_index o) (_recalculate_path_timer o) (_use_astar o) (_astar_frequency o) (_last_target o) (_smooth_movement o) (_patrol_route o) (_patrol_index o) (_patrol_timer o) (_base_speed o) (_difficulty_multiplier o) (_is_in_spawn_delay o) (_spawn_delay_timer o) (_spawn_delay_duration o).

Definition set_current_path (v : list Vector2D.t) (o : t) : t :=
  mk (_position o) (_size o) (_animation_frame o) (_speed o) (_direction o) (_next_direction o) (_state o) (_initial_position o) (_ghost_type o) (_vulnerable_timer o) (_target_position o) (_mode_timer o) (_current_mode o) (_path_finding_timer o) (_last_direction o) (_personality_timer o) v (_path_index o) (_recalculate_path_timer o) (_use_astar o) (_astar_frequency o) (_last_target o) (_smooth_movement o) (_patrol_route o) (_patrol_index o) (_patrol_timer o) (_base_speed o) (_difficulty_multiplier o) (_is_in_spawn_delay o) (_spawn_delay_timer o) (_spawn_delay_duration o).

Definition set_path_index (v : Z) (o : t) : t :=
  mk (_position o) (_size o) (_animation_frame o) (_speed o) (_direction o) (_next_direction o) (_state o) (_initial_position o) (_ghost_type o) (_vulnerable_timer o) (_target_position o) (_mode_timer o) (_current_mode o) (_path_finding_timer o) (_last_direction o) (_personality_timer o) (_current_path o) v (_recalculate_path_timer o) (_use_astar o) (_astar_frequency o) (_last_target o) (_smooth_movement o) (_patrol_route o) (_patrol_index o) (_patrol_timer o) (_base_speed o) (_difficulty_multiplier o) (_is_in_spawn_delay o) (_spawn_delay_timer o) (_spawn_delay_duration o).

Definition set_recalculate_path_timer (v : F64.t) (o : t) : t :=
  mk (_position o) (_size o) (_animation_frame o) (_speed o) (_direction o) (_next_direction o) (_state o) (_initial_position o) (_ghost_type o) (_vulnerable_timer o) (_target_position o) (_mode_timer o) (_current_mode o) (_path_finding_timer o) (_last_direction o) (_personality_timer o) (_current_path o) (_path_index o) v (_use_astar o) (_astar_frequency o) (_last_target o) (_smooth_movement o) (_patrol_route o) (_patrol_index o) (_patrol_timer o) (_base_speed o) (_difficulty_multiplier o) (_is_in_spawn_delay o) (_spawn_delay_timer o) (_spawn_delay_duration o).

Definition set_use_astar (v : bool) (o : t) : t :=
  mk (_position o) (_size o) (_animation_frame o) (_speed o) (_direction o) (_next_direction o) (_state o) (_initial_position o) (_ghost_type o) (_vulnerable_timer o) (_target_position o) (_mode_timer o) (_current_mode o) (_path_finding_timer o) (_last_direction o) (_personality_timer o) (_current_path o) (_path_index o) (_recalculate_path_timer o) v (_astar_frequency o) (_last_target o) (_smooth_movement o) (_patrol_route o) (_patrol_index o) (_patrol_timer o) (_base_speed o) (_difficulty_multiplier o) (_is_in_spawn_delay o) (_spawn_delay_timer o) (_spawn_delay_duration o).

Definition set_astar_frequency (v : Z) (o : t) : t :=
  mk (_position o) (_size o) (_animation_frame o) (_speed o) (_direction o) (_next_direction o) (_state o) (_initial_position o) (_ghost_type o) (_vulnerable_timer o) (_target_position o) (_mode_timer o) (_current_mode o) (_path_finding_timer o) (_last_direction o) (_personality_timer o) (_current_path o) (_path_index o) (_recalculate_path_timer o) (_use_astar o) v (_last_target o) (_smooth_movement o) (_patrol_route o) (_patrol_index o) (_patrol_timer o) (_base_speed o) (_difficulty_multiplier o) (_is_in_spawn_delay o) (_spawn_delay_timer o) (_spawn_delay_duration o).

Definition set_last_target (v : option Vector2D.t) (o : t) : t :=
  mk (_position o) (_size o) (_animation_frame o) (_speed o) (_direction o) (_next_direction o) (_state o) (_initial_position o) (_ghost_type o) (_vulnerable_timer o) (_target_position o) (_mode_timer o) (_current_mode o) (_path_finding_timer o) (_last_direction o) (_personality_timer o) (_current_path o) (_path_index o) (_recalculate_path_timer o) (_use_astar o) (_astar_frequency o) v (_smooth_movement o) (_patrol_route o) (_patrol_index o) (_patrol_timer o) (_base_speed o) (_difficulty_multiplier o) (_is_in_spawn_delay o) (_spawn_delay_timer o) (_spawn_delay_duration o).

Definition set_smooth_movement (v : bool) (o : t) : t :=
  mk (_position o) (_size o) (_animation_frame o) (_speed o) (_direction o) (_next_direction o) (_state o) (_initial_position o) (_ghost_type o) (_vulnerable_timer o) (_target_position o) (_mode_timer o) (_current_mode o) (_path_finding_timer o) (_last_direction o) (_personality_timer o) (_current_path o) (_path_index o) (_recalculate_path_timer o) (_use_astar o) (_astar_frequency o) (_last_target o) v (_patrol_route o) (_patrol_index o) (_patrol_timer o) (_base_speed o) (_difficulty_multiplier o) (_is_in_spawn_delay o) (_spawn_delay_timer o) (_spawn_delay_duration o).

Definition set_patrol_route (v : list Vector2D.t) (o : t) : t :=
  mk (_position o) (_size o) (_animation_frame o) (_speed o) (_direction o) (_next_direction o) (_state o) (_initial_position o) (_ghost_type o) (_vulnerable_timer o) (_target_position o) (_mode_timer o) (_current_mode o) (_path_finding_timer o) (_last_direction o) (_personality_timer o) (_current_path o) (_path_index o) (_recalculate_path_timer o) (_use_astar o) (_astar_frequency o) (_last_target o) (_smooth_movement o) v (_patrol_index o) (_patrol_timer o) (_base_speed o) (_difficulty_multiplier o) (_is_in_spawn_delay o) (_spawn_delay_timer o) (_spawn_delay_duration o).

Definition set_patrol_index (v : Z) (o : t) : t :=
  mk (_position o) (_size o) (_animation_frame o) (_speed o) (_direction o) (_next_direction o) (_state o) (_initial_position o) (_ghost_type o) (_vulnerable_timer o) (_target_position o) (_mode_timer o) (_current_mode o) (_path_finding_timer o) (_last_direction o) (_personality_timer o) (_current_path o) (_path_index o) (_recalculate_path_timer o) (_use_astar o) (_astar_frequency o) (_last_target o) (_smooth_movement o) (_patrol_route o) v (_patrol_timer o) (_base_speed o) (_difficulty_multiplier o) (_is_in_spawn_delay o) (_spawn_delay_timer o) (_spawn_delay_duration o).

Definition set_patrol_timer (v : F64.t) (o : t) : t :=
  mk (_position o) (_size o) (_animation_frame o) (_speed o) (_direction o) (_next_direction o) (_state o) (_initial_position o) (_ghost_type o) (_vulnerable_timer o) (_target_position o) (_mode_timer o) (_current_mode o) (_path_finding_timer o) (_last_direction o) (_personality_timer o) (_current_path o) (_path_index o) (_recalculate_path_timer o) (_use_astar o) (_astar_frequency o) (_last_target o) (_smooth_movement o) (_patrol_route o) (_patrol_index o) v (_base_speed o) (_difficulty_multiplier o) (_is_in_spawn_delay o) (_spawn_delay_timer o) (_spawn_delay_duration o).

Definition set_base_speed (v : Q) (o : t) : t :=
  mk (_position o) (_size o) (_animation_frame o) (_speed o) (_direction o) (_next_direction o) (_state o) (_initial_position o) (_ghost_type o) (_vulnerable_timer o) (_target_position o) (_mode_timer o) (_current_mode o) (_path_finding_timer o) (_last_direction o) (_personality_timer o) (_current_path o) (_path_index o) (_recalculate_path_timer o) (_use_astar o) (_astar_frequency o) (_last_target o) (_smooth_movement o) (_patrol_route o) (_patrol_index o) (_patrol_timer o) v (_difficulty_multiplier o) (_is_in_spawn_delay o) (_spawn_delay_timer o) (_spawn_delay_duration o).

Definition set_difficulty_multiplier (v : F64.t) (o : t) : t :=
  mk (_position o) (_size o) (_animation_frame o) (_speed o) (_direction o) (_next_direction o) (_state o) (_initial_position o) (_ghost_type o) (_vulnerable_timer o) (_target_position o) (_mode_timer o) (_current_mode o) (_path_finding_timer o) (_last_direction o) (_personality_timer o) (_current_path o) (_path_index o) (_recalculate_path_timer o) (_use_astar o) (_astar_frequency o) (_last_target o) (_smooth_movement o) (_patrol_route o) (_patrol_index o) (_patrol_timer o) (_base_speed o) v (_is_in_spawn_delay o) (_spawn_delay_timer o) (_spawn_delay_duration o).

Definition set_is_in_spawn_delay (v : bool) (o : t) : t :=
  mk (_position o) (_size o) (_animation_frame o) (_speed o) (_direction o) (_next_direction o) (_state o) (_initial_position o) (_ghost_type o) (_vulnerable_timer o) (_target_position o) (_mode_timer o) (_current_mode o) (_path_finding_timer o) (_last_direction o) (_personality_timer o) (_current_path o) (_path_index o) (_recalculate_path_timer o) (_use_astar o) (_astar_frequency o) (_last_target o) (_smooth_movement o) (_patrol_route o) (_patrol_index o) (_patrol_timer o) (_base_speed o) (_difficulty_multiplier o) v (_spawn_delay_timer o) (_spawn_delay_duration o).

Definition set_spawn_delay_timer (v : F64.t) (o : t) : t :=
  mk (_position o) (_size o) (_animation_frame o) (_speed o) (_direction o) (_next_direction o) (_state o) (_initial_position o) (_ghost_type o) (_vulnerable_timer o) (_target_position o) (_mode_timer o) (_current_mode o) (_path_finding_timer o) (_last_direction o) (_personality_timer o) (_current_path o) (_path_index o) (_recalculate_path_timer o) (_use_astar o) (_astar_frequency o) (_last_target o) (_smooth_movement o) (_patrol_route o) (_patrol_index o) (_patrol_timer o) (_base_speed o) (_difficulty_multiplier o) (_is_in_spawn_delay o) v (_spawn_delay_duration o).

Definition set_spawn_delay_duration (v : F64.t) (o : t) : t :=
  mk (_position o) (_size o) (_animation_frame o) (_speed o) (_direction o) (_next_direction o) (_state o) (_initial_position o) (_ghost_type o) (_vulnerable_timer o) (_target_position o) (_mode_timer o) (_current_mode o) (_path_finding_timer o) (_last_direction o) (_personality_timer o) (_current_path o) (_path_index o) (_recalculate_path_timer o) (_use_astar o) (_astar_frequency o) (_last_target o) (_smooth_movement o) (_patrol_route o) (_patrol_index o) (_patrol_timer o) (_base_speed o) (_difficulty_multiplier o) (_is_in_spawn_delay o) (_spawn_delay_timer o) v.

#[global] Instance movable : Movable t :=
  {| get_position := _position; put_position := set_position;
     get_speed := _speed; get_direction := _direction |}.

Definition route (points : list (Z * Z)) : list Vector2D.t :=
  map (fun p : Z * Z => Vector2D.mk (inject_Z p.1) (inject_Z p.2)) points.

Definition _get_patrol_route (ghost_type : string) : list Vector2D.t :=
  if String.eqb ghost_type "red" then
    route [(280, 100); (420, 130); (480, 180); (400, 220);
           (280, 200); (160, 220); (80, 180); (140, 130)]
  else if String.eqb ghost_type "pink" then
    route [(180, 140); (240, 120); (320, 140); (380, 180);
           (320, 220); (240, 240); (180, 220); (140, 180)]
  else if String.eqb ghost_type "cyan" then
    route [(300, 260); (450, 260); (480, 300); (480, 340);
           (400, 350); (280, 330); (150, 320); (120, 280)]
  else
    route [(140, 160); (220, 140); (300, 180); (380, 160);
           (420, 220); (340, 260); (240, 240); (160, 200)].

(** [Ghost(x, y, color, size, speed, initial_position, ghost_type)] *)
Definition init (px py : Q) (size : Z) (speed : Q) (initial_position : Vector2D.t)
    (ghost_type : string) : t :=
  mk (Vector2D.mk px py) size 0 speed NONE NONE
     "normal" (Vector2D.copy initial_position) ghost_type 0
     (Vector2D.mk 0 0) 0 "patrol" 0 NONE 0
     [] 0 0 true 2000 None true
     (_get_patrol_route ghost_type) 0 0
     speed 1 false 0 5000.

Definition can_move (g : t) (direction : Direction) (game_map : Map.t) : result bool :=
  MovableObject.can_move g direction game_map (Some "ghost").

(** The difficulty formulas compute with [float]s: the literals [100.0],
    [2.0], [1.0] and the integers they meet are doubles, [0.4], [0.85],
    [0.45] and [0.8] the doubles nearest to them, and [int] cuts the
    product off towards zero.  The source raises [OverflowError] for a
    level or a base duration beyond the range of the doubles and for a
    product that overflows; there the conversions of [F64] give an
    infinity and [F64.int] gives 0. *)
Definition set_difficulty (g : t) (difficulty_level : Z) : t :=
  let difficulty_factor := F64.min (F64.div difficulty_level 100) 2 in
  let g := set_difficulty_multiplier (F64.add 1 difficulty_factor) g in
  let g := set_speed (_base_speed g) g in
  let timing_factor := F64.sub 1 (F64.mul difficulty_factor (F64.ratio 4 10)) in
  set_astar_frequency (Z.max (F64.int (F64.mul 2000 timing_factor)) 200) g.

Definition get_difficulty_adjusted_vulnerable_duration (g : t) (base_duration : Z) : Z :=
  let reduction_factor :=
    F64.sub 1 (F64.mul (F64.sub (_difficulty_multiplier g) 1) (F64.ratio 85 100)) in
  let adjusted_duration := F64.int (F64.mul base_duration reduction_factor) in
  Z.max adjusted_duration 1000.

Definition get_difficulty_adjusted_mode_timing (g : t) : Z * Z :=
  let base_patrol := 10000 in
  let base_chase := 15000 in
  let difficulty_factor := F64.sub (_difficulty_multiplier g) 1 in
  let patrol_duration :=
    F64.int (F64.mul base_patrol (F64.sub 1 (F64.mul difficulty_factor (F64.ratio 45 100)))) in
  let chase_duration :=
    F64.int (F64.mul base_chase (F64.add 1 (F64.mul difficulty_factor (F64.ratio 8 10)))) in
  let patrol_duration := Z.max patrol_duration 2000 in
  let chase_duration := Z.min chase_duration 40000 in
  (patrol_duration, chase_duration).

Definition set_vulnerable (g : t) (duration : Z) : t :=
  let g := set_state "vulnerable" g in
  let adjusted_duration := get_difficulty_adjusted_vulnerable_duration g duration in
  let g := set_vulnerable_timer adjusted_duration g in
  set_speed (Qmax 1 (_speed g - 1)) g.

(** The loop of [choose_direction] that collects [(direction, distance)]
    for the directions the ghost can move in. *)
Fixpoint possible_directions (g : t) (game_map : Map.t) (target_position : Vector2D.t)
    (directions : list Direction) : result (list (Direction * Surd.t)) :=
  match directions with
  | [] => Ok []
  | direction :: rest =>
      can_move g direction game_map ≫= fun free : bool =>
      possible_directions g game_map target_position rest ≫= fun others =>
      if free then
        let test_pos := MovableObject.step g direction in
        Ok ((direction, Vector2D.distance_to test_pos target_position) :: others)
      else Ok others
  end.

Definition choose_direction (g : t) (game_map : Map.t) (target_position : Vector2D.t)
    : result Direction :=
  possible_directions g game_map target_position [UP; DOWN; LEFT; RIGHT] ≫= fun possible =>
  match possible with
  | [] => Ok NONE
  | first :: rest =>
      if String.eqb (_state g) "vulnerable"
      then Ok (max_by snd first rest).1
      else Ok (min_by snd first rest).1
  end.

Definition update_mode (g : t) (delta_time : F64.t) : t :=
  let g := set_mode_timer (F64.add (_mode_timer g) (F64.mul delta_time 1000)) g in
  let '(patrol_duration, chase_duration) := get_difficulty_adjusted_mode_timing g in
  if String.eqb (_current_mode g) "patrol" then
    if F64.ltb patrol_duration (_mode_timer g)
    then set_mode_timer 0 (set_current_mode "chase" g)
    else g
  else
    if F64.ltb chase_duration (_mode_timer g)
    then set_mode_timer 0 (set_current_mode "patrol" g)
    else g.

(** The assignments [reset_position] and [set_eaten_with_delay] share *)
Definition back_to_spawn (g : t) : t :=
  let g := set_position (Vector2D.copy (_initial_position g)) g in
  let g := set_state "normal" g in
  let g := set_speed (_base_speed g) g in
  let g := set_vulnerable_timer 0 g in
  let g := set_current_mode "patrol" g in
  let g := set_mode_timer 0 g in
  let g := set_current_path [] g in
  let g := set_path_index 0 g in
  let g := set_recalculate_path_timer 0 g in
  let g := set_last_target None g in
  let g := set_patrol_index 0 g in
  set_patrol_timer 0 g.

Definition reset_position (g : t) : t :=
  let g := back_to_spawn g in
  set_spawn_delay_timer 0 (set_is_in_spawn_delay false g).

Definition set_eaten_with_delay (g : t) : t :=
  let g := back_to_spawn g in
  set_spawn_delay_timer (_spawn_delay_duration g) (set_is_in_spawn_delay true g).

Definition reset_difficulty (g : t) : t :=
  set_astar_frequency 2000 (set_speed (_base_speed g) (set_difficulty_multiplier 1 g)).

(** The vulnerability countdown of [update] *)
Definition tick_vulnerable (g : t) (delta_time : F64.t) : t :=
  if String.eqb (_state g) "vulnerable" then
    let g := set_vulnerable_timer
               (F64.sub (_vulnerable_timer g) (F64.mul delta_time 1000)) g in
    if F64.leb (_vulnerable_timer g) 0
    then set_speed 1.5 (set_state "normal" g)
    else g
  else g.

(** [update(delta_time)], with [player_position] and [game_map] left at
    their default [None]: the spawn delay, the vulnerability countdown
    and the mode switch run, the steering block is skipped. *)
Definition update (g : t) (delta_time : F64.t) : t :=
  let waiting :=
    if _is_in_spawn_delay g then
      let g := set_spawn_delay_timer
                 (F64.sub (_spawn_delay_timer g) (F64.mul delta_time 1000)) g in
      if F64.leb (_spawn_delay_timer g) 0
      then (set_spawn_delay_timer 0 (set_is_in_spawn_delay false g), false)
      else (g, true)
    else (g, false) in
  let g := waiting.1 in
  if waiting.2 then set_animation_frame (_animation_frame g + 1) g
  else
    let g := tick_vulnerable g delta_time in
    let g := update_mode g delta_time in
    set_animation_frame (_animation_frame g + 1) g.

(** [get_current_patrol_target] *)
Definition get_current_patrol_target (g : t) : result Vector2D.t :=
  match _patrol_route g with
  | [] => Ok (Vector2D.copy (_initial_position g))
  | _ :: _ =>
      let i := _patrol_index g mod Z.of_nat (length (_patrol_route g)) in
      match _patrol_route g !! Z.to_nat i with
      | Some waypoint => Ok waypoint
      | None => Raise IndexError
      end
  end.

(** The dictionary of tolerances in [advance_patrol_waypoint] *)
Definition tolerance (ghost_type : string) : Z :=
  if String.eqb ghost_type "red" then 28
  else if String.eqb ghost_type "pink" then 35
  else if String.eqb ghost_type "cyan" then 30
  else if String.eqb ghost_type "orange" then 40
  else 32.

(** [advance_patrol_waypoint] returns the ghost after the call and the
    call's return value. *)
Definition advance_patrol_waypoint (g : t) : result (t * bool) :=
  match _patrol_route g with
  | [] => Ok (g, false)
  | _ :: _ =>
      get_current_patrol_target g ≫= fun current_target =>
      let distance := Vector2D.distance_to (_position g) current_target in
      if Surd.ltb distance (Surd.of_Q (inject_Z (tolerance (_ghost_type g)))) then
        Ok (set_patrol_index
              ((_patrol_index g + 1) mod Z.of_nat (length (_patrol_route g))) g, true)
      else Ok (g, false)
  end.

(** [get_target_position(player_position, player_direction, other_ghosts)].
    [player_direction] is [None] or a member of [Direction], and every
    member is true in a condition; [other_ghosts] is a list, and the
    default [None] acts as the empty list. *)
Definition get_target_position (g : t) (player_position : Vector2D.t)
    (player_direction : option Direction) (other_ghosts : list t) : result Vector2D.t :=
  if String.eqb (_current_mode g) "patrol" then get_current_patrol_target g
  else if String.eqb (_current_mode g) "chase" then
    if String.eqb (_ghost_type g) "red" then Ok (Vector2D.copy player_position)
    else if String.eqb (_ghost_type g) "pink" then
      match player_direction with
      | Some d =>
          let cell_size := 16 in
          let offset_x := (value d).1 * cell_size * 4 in
          let offset_y := (value d).2 * cell_size * 4 in
          Ok (Vector2D.mk (Vector2D.x player_position + inject_Z offset_x)
                          (Vector2D.y player_position + inject_Z offset_y))
      | None => Ok (Vector2D.copy player_position)
      end
    else if String.eqb (_ghost_type g) "cyan" then
      match other_ghosts with
      | [] => Ok (Vector2D.copy player_position)
      | _ :: _ =>
          match List.find (fun o => String.eqb (_ghost_type o) "red") other_ghosts with
          | Some red_ghost =>
              let player_ahead :=
                match player_direction with
                | Some d =>
                    let cell_size := 16 in
                    let offset_x := (value d).1 * cell_size * 2 in
                    let offset_y := (value d).2 * cell_size * 2 in
                    Vector2D.mk (Vector2D.x player_position + inject_Z offset_x)
                                (Vector2D.y player_position + inject_Z offset_y)
                | None => Vector2D.copy player_position
                end in
              Ok (Vector2D.mk
                    ((Vector2D.x player_ahead + Vector2D.x (_position red_ghost)) / 2)
                    ((Vector2D.y player_ahead + Vector2D.y (_position red_ghost)) / 2))
          | None => Ok (Vector2D.copy player_position)
          end
      end
    else
      let distance := Vector2D.distance_to (_position g) player_position in
      if Surd.gtb distance (Surd.of_Q 80) then Ok (Vector2D.copy player_position)
      else Ok (Vector2D.mk 50 450)
  else Ok (Vector2D.copy (_initial_position g)).

(** [calculate_direction_to_waypoint] *)
Definition calculate_direction_to_waypoint (g : t) (waypoint : Vector2D.t) : Direction :=
  let diff_x := (Vector2D.x waypoint - Vector2D.x (_position g))%Q in
  let diff_y := (Vector2D.y waypoint - Vector2D.y (_position g))%Q in
  if negb (Qle_bool (Qabs diff_x) (Qabs diff_y)) then
    if negb (Qle_bool diff_x 0) then RIGHT else LEFT
  else
    if negb (Qle_bool diff_y 0) then DOWN else UP.

End Ghost.

(** ** main.py: the rules controller *)

Module Pellet.

Record t : Type := mk { _position : Vector2D.t; _type : string; _value : Z }.

Definition be_eaten (p : t) : Z := _value p.

End Pellet.

Module HighScoreManager.

(** An entry [{"name": ..., "score": ...}] of the table *)
Record entry : Type := mk_entry { name : string; score : Z }.

(** The table in memory and the content of the file [filename], for a
    file whose entries have the shape the game writes. *)
Record t : Type := mk { highscores : list entry; file : list entry }.

(** [sorted(l, key=lambda x: x["score"], reverse=True)]: the scores
    descend, and entries of equal score keep the order they had in [l]
    (Python's sort is stable, also with [reverse=True]). *)
Fixpoint insert_desc (e : entry) (l : list entry) : list entry :=
  match l with
  | [] => [e]
  | e' :: l' => if score e <? score e' then e' :: insert_desc e l' else e :: l
  end.

Definition sorted_desc (l : list entry) : list entry := foldr insert_desc [] l.

Definition save_highscores (self : t) : t := mk (highscores self) (highscores self).

Definition add_score (self : t) (name : string) (score : Z) : t :=
  let self := mk (highscores self ++ [mk_entry name score]) (file self) in
  let self := mk (take 10 (sorted_desc (highscores self))) (file self) in
  save_highscores self.

End HighScoreManager.

(** What the controller sends to the sound manager; the log stands for
    the fire-and-forget sound service. *)
Inductive cue : Type :=
  | play_sound (name : string)
  | stop_all_sounds.

Module Game.

(** The attributes of [Game] the collision phase of [update] uses.
    [cues] logs the sound cues (newest first) and [waited] adds up the
    arguments of [pygame.time.wait]. *)
Record t : Type := mk {
  _state : GameState;
  _input_active : bool;
  _player_name : string;
  _show_save_confirmation : bool;
  _map : Map.t;
  _player : Player.t;
  _ghosts : list Ghost.t;
  _pellets : list Pellet.t;
  _campaign_total_score : Z;
  _current_map_index : Z;
  _available_maps : list string;
  _next_map_info : option string;
  _intermission_timer : Z;
  cues : list cue;
  waited : Z
}.

Definition set_state (v : GameState) (o : t) : t :=
  mk v (_input_active o) (_player_name o) (_show_save_confirmation o) (_map o) (_player o) (_ghosts o) (_pellets o) (_campaign_total_score o) (_current_map_index o) (_available_maps o) (_next_map_info o) (_intermission_timer o) (cues o) (waited o).

Definition set_input_active (v : bool) (o : t) : t :=
  mk (_state o) v (_player_name o) (_show_save_confirmation o) (_map o) (_player o) (_ghosts o) (_pellets o) (_campaign_total_score o) (_current_map_index o) (_available_maps o) (_next_map_info o) (_intermission_timer o) (cues o) (waited o).

Definition set_player_name (v : string) (o : t) : t :=
  mk (_state o) (_input_active o) v (_show_save_confirmation o) (_map o) (_player o) (_ghosts o) (_pellets o) (_campaign_total_score o) (_current_map_index o) (_available_maps o) (_next_map_info o) (_intermission_timer o) (cues o) (waited o).

Definition set_show_save_confirmation (v : bool) (o : t) : t :=
  mk (_state o) (_input_active o) (_player_name o) v (_map o) (_player o) (_ghosts o) (_pellets o) (_campaign_total_score o) (_current_map_index o) (_available_maps o) (_next_map_info o) (_intermission_timer o) (cues o) (waited o).

Definition set_map (v : Map.t) (o : t) : t :=
  mk (_state o) (_input_active o) (_player_name o) (_show_save_confirmation o) v (_player o) (_ghosts o) (_pellets o) (_campaign_total_score o) (_current_map_index o) (_available_maps o) (_next_map_info o) (_intermission_timer o) (cues o) (waited o).

Definition set_player (v : Player.t) (o : t) : t :=
  mk (_state o) (_input_active o) (_player_name o) (_show_save_confirmation o) (_map o) v (_ghosts o) (_pellets o) (_campaign_total_score o) (_current_map_index o) (_available_maps o) (_next_map_info o) (_intermission_timer o) (cues o) (waited o).

Definition set_ghosts (v : list Ghost.t) (o : t) : t :=
  mk (_state o) (_input_active o) (_player_name o) (_show_save_confirmation o) (_map o) (_player o) v (_pellets o) (_campaign_total_score o) (_current_map_index o) (_available_maps o) (_next_map_info o) (_intermission_timer o) (cues o) (waited o).

Definition set_pellets (v : list Pellet.t) (o : t) : t :=
  mk (_state o) (_input_active o) (_player_name o) (_show_save_confirmation o) (_map o) (_player o) (_ghosts o) v (_campaign_total_score o) (_current_map_index o) (_available_maps o) (_next_map_info o) (_intermission_timer o) (cues o) (waited o).

Definition set_campaign_total_score (v : Z) (o : t) : t :=
  mk (_state o) (_input_active o) (_player_name o) (_show_save_confirmation o) (_map o) (_player o) (_ghosts o) (_pellets o) v (_current_map_index o) (_available_maps o) (_next_map_info o) (_intermission_timer o) (cues o) (waited o).

Definition set_current_map_index (v : Z) (o : t) : t :=
  mk (_state o) (_input_active o) (_player_name o) (_show_save_confirmation o) (_map o) (_player o) (_ghosts o) (_pellets o) (_campaign_total_score o) v (_available_maps o) (_next_map_info o) (_intermission_timer o) (cues o) (waited o).

Definition set_available_maps (v : list string) (o : t) : t :=
  mk (_state o) (_input_active o) (_player_name o) (_show_save_confirmation o) (_map o) (_player o) (_ghosts o) (_pellets o) (_campaign_total_score o) (_current_map_index o) v (_next_map_info o) (_intermission_timer o) (cues o) (waited o).

Definition set_next_map_info (v : option string) (o : t) : t :=
  mk (_state o) (_input_active o) (_player_name o) (_show_save_confirmation o) (_map o) (_player o) (_ghosts o) (_pellets o) (_campaign_total_score o) (_current_map_index o) (_available_maps o) v (_intermission_timer o) (cues o) (waited o).

Definition set_intermission_timer (v : Z) (o : t) : t :=
  mk (_state o) (_input_active o) (_player_name o) (_show_save_confirmation o) (_map o) (_player o) (_ghosts o) (_pellets o) (_campaign_total_score o) (_current_map_index o) (_available_maps o) (_next_map_info o) v (cues o) (waited o).

Definition set_cues (v : list cue) (o : t) : t :=
  mk (_state o) (_input_active o) (_player_name o) (_show_save_confirmation o) (_map o) (_player o) (_ghosts o) (_pellets o) (_campaign_total_score o) (_current_map_index o) (_available_maps o) (_next_map_info o) (_intermission_timer o) v (waited o).

Definition set_waited (v : Z) (o : t) : t :=
  mk (_state o) (_input_active o) (_player_name o) (_show_save_confirmation o) (_map o) (_player o) (_ghosts o) (_pellets o) (_campaign_total_score o) (_current_map_index o) (_available_maps o) (_next_map_info o) (_intermission_timer o) (cues o) v.

Definition emit (c : cue) (gm : t) : t := set_cues (c :: cues gm) gm.

Definition _set_game_over (gm : t) : t :=
  let gm := set_state GAME_OVER gm in
  let gm := set_input_active true gm in
  let gm := set_player_name "" gm in
  set_show_save_confirmation false gm.

Definition _reset_positions (gm : t) : t :=
  let player_pos := Map.get_spawn_position (_map gm) "player" in
  let gm := set_player (Player.set_position player_pos (_player gm)) gm in
  set_ghosts (map Ghost.reset_position (_ghosts gm)) gm.

(** The ghost types of [ghost_configs], in order *)
Definition ghost_configs : list string := ["red"; "pink"; "cyan"; "orange"].

(** [_initialize_game] from the point where the map object exists: [m] is
    the [Map] the constructor returned and [map_difficulty] the integer
    the difficulty entry of its metadata was converted to.  The player,
    the four ghosts and the pellets are built from the map; the
    attributes [_total_pellets] and [_game_start_time], which only the
    display reads, are not part of [t]. *)
Definition _initialize_game (gm : t) (m : Map.t) (map_difficulty : Z) : t :=
  let gm := set_map m gm in
  let player_pos := Map.get_spawn_position (_map gm) "player" in
  let gm := set_player
              (Player.init (Vector2D.x player_pos) (Vector2D.y player_pos)
                           base_sprite_size 2 20 0) gm in
  let ghosts :=
    map (fun type : string =>
           let ghost_pos := Map.get_spawn_position (_map gm) ("ghost_" ++ type) in
           Ghost.init (Vector2D.x ghost_pos) (Vector2D.y ghost_pos)
                      base_sprite_size 1.5 ghost_pos type)
        ghost_configs in
  let gm := set_ghosts ghosts gm in
  let pellets :=
    map (fun pellet_info : Map.pellet_info =>
           Pellet.mk (Vector2D.mk (Vector2D.x (Map.position pellet_info))
                                  (Vector2D.y (Map.position pellet_info)))
                     (Map.type pellet_info) (Map.value pellet_info))
        (Map.get_pellets (_map gm)) in
  let gm := set_pellets pellets gm in
  set_ghosts (map (fun ghost => Ghost.set_difficulty ghost map_difficulty) (_ghosts gm)) gm.

(** [sprite_manager.base_sprite_size // 2] *)
Definition collision_radius : Z := base_sprite_size / 2.

(** The body of [for ghost in self._ghosts] in [update], for the ghost at
    index [i] of the list. *)
Definition collide_ghost (gm : t) (i : nat) : t :=
  match _ghosts gm !! i with
  | None => gm
  | Some ghost =>
      let distance :=
        Vector2D.distance_to (Player._position (_player gm)) (Ghost._position ghost) in
      if Surd.ltb distance (Surd.of_Q (inject_Z collision_radius)) then
        if String.eqb (Ghost._state ghost) "vulnerable" then
          let gm := set_player (Player.eat_pellet (_player gm) 200) gm in
          let gm := set_ghosts (<[i := Ghost.set_eaten_with_delay ghost]> (_ghosts gm)) gm in
          emit (play_sound "eating-ghost") gm
        else if String.eqb (Ghost._state ghost) "normal" then
          let gm := set_player (Player.lose_life (_player gm)) gm in
          let gm := emit (play_sound "miss") gm in
          if Player._lives (_player gm) <=? 0 then
            let gm := _set_game_over gm in
            let gm := emit stop_all_sounds gm in
            emit (play_sound "miss") gm
          else
            let gm := _reset_positions gm in
            set_waited (waited gm + 1000) gm
        else gm
      else gm
  end.

(** The loop [for ghost in self._ghosts] that closes [update] *)
Definition collide_ghosts (gm : t) : t :=
  fold_left collide_ghost (seq 0 (length (_ghosts gm))) gm.

(** The body of the pellet loop for a pellet within the collision radius *)
Definition eat (gm : t) (pellet : Pellet.t) : result t :=
  let points := Pellet.be_eaten pellet in
  let gm := set_player (Player.eat_pellet (_player gm) points) gm in
  Map.remove_pellet_at (_map gm) (Pellet._position pellet) ≫= fun removed =>
  let gm := set_map removed.1 gm in
  if String.eqb (Pellet._type pellet) "power_up" then
    let gm := set_player (Player.activate_power_up (_player gm)) gm in
    let gm := set_ghosts (map (fun g => Ghost.set_vulnerable g 8000) (_ghosts gm)) gm in
    Ok (emit (play_sound "ghost-turn-to-blue") gm)
  else Ok (emit (play_sound "eating") gm).

(** The pellet loop over [pellets]; the result carries the pellets that
    stay in [self._pellets]. *)
Fixpoint sweep (gm : t) (pellets : list Pellet.t) : result (t * list Pellet.t) :=
  match pellets with
  | [] => Ok (gm, [])
  | pellet :: rest =>
      let distance :=
        Vector2D.distance_to (Player._position (_player gm)) (Pellet._position pellet) in
      if Surd.ltb distance (Surd.of_Q (inject_Z collision_radius)) then
        eat gm pellet ≫= fun gm' =>
        sweep gm' rest
      else
        sweep gm rest ≫= fun r => Ok (r.1, pellet :: r.2)
  end.

(** [l[i]]: a negative index counts from the end of the list. *)
Definition getitem {A : Type} (l : list A) (i : Z) : result A :=
  let i := if i <? 0 then i + Z.of_nat (length l) else i in
  if i <? 0 then Raise IndexError
  else match l !! Z.to_nat i with
       | Some a => Ok a
       | None => Raise IndexError
       end.

(** The branch [if len(self._pellets) == 0] *)
Definition level_clear (gm : t) (now : Z) : result t :=
  let gm := set_campaign_total_score
              (_campaign_total_score gm + Player._score (_player gm)) gm in
  if _current_map_index gm + 1 <? Z.of_nat (length (_available_maps gm)) then
    let gm := set_current_map_index (_current_map_index gm + 1) gm in
    info ← getitem (_available_maps gm) (_current_map_index gm);
    let gm := set_next_map_info (Some info) gm in
    let gm := set_state INTERMISSION gm in
    let gm := set_intermission_timer now gm in
    Ok (emit (play_sound "extend") (emit stop_all_sounds gm))
  else
    let gm := set_state VICTORY gm in
    Ok (emit (play_sound "credit") (emit stop_all_sounds gm)).

(** [update] in the state [PLAYING], after the player and the ghosts have
    moved: the pellet loop, the level-clear test and the ghost loop.
    [now] is [pygame.time.get_ticks()]. *)
Definition resolve_collisions (gm : t) (now : Z) : result t :=
  sweep gm (_pellets gm) ≫= fun r =>
  let gm := set_pellets r.2 r.1 in
  if (length (_pellets gm) =? 0)%nat then level_clear gm now
  else Ok (collide_ghosts gm).

End Game.

(** * Properties *)

(** [lra] and [nra] over the rationals and over the reals *)
Ltac qlra := Lqa.lra.
Ltac qnra := Lqa.nra.
Ltac rlra := Lra.lra.
Ltac rnra := Lra.nra.

(** Reduce [Ok a ≫= f] and [Raise e ≫= f] and nothing else. *)
Ltac simpl_bind := cbn [mbind result_bind mret result_ret fmap result_fmap].
Tactic Notation "simpl_bind" "in" hyp(H) :=
  cbn [mbind result_bind mret result_ret fmap result_fmap] in H.

(** ** Numbers *)

Lemma Qle_bool_false (a b : Q) : Qle_bool a b = false ↔ (b < a)%Q.
Proof.
  split.
  - intros E. apply Qnot_le_lt. intros L. apply Qle_bool_iff in L. congruence.
  - intros L. destruct (Qle_bool a b) eqn:E; [|done].
    apply Qle_bool_iff in E. qlra.
Qed.

(** Case analysis on a rational comparison made by the code *)
Ltac case_Qle a b :=
  let E := fresh "E" in
  destruct (Qle_bool a b) eqn:E;
  [apply Qle_bool_iff in E | apply Qle_bool_false in E].

(** Two square roots compare as their radicands. *)
Lemma Surd_ltb_roots (a b : Q) :
  Surd.ltb (Surd.sqrt a) (Surd.sqrt b) = true ↔ (a < b)%Q.
Proof.
  unfold Surd.ltb, Surd.sqrt; simpl.
  case_Qle 0%Q (0 - 0)%Q; [|qlra].
  case_Qle 0%Q (a - (0 - 0) * (0 - 0) - b)%Q.
  - case_Qle (4 * ((0 - 0) * (0 - 0)) * b)%Q
      ((a - (0 - 0) * (0 - 0) - b) * (a - (0 - 0) * (0 - 0) - b))%Q; simpl.
    + split; [done|qlra].
    + qnra.
  - split; [qlra|done].
Qed.

(** A square root is below a non-negative rational when its radicand is
    below the square. *)
Lemma Surd_ltb_root_Q (a k : Q) :
  (0 <= k)%Q → Surd.ltb (Surd.sqrt a) (Surd.of_Q k) = true ↔ (a < k * k)%Q.
Proof.
  intros Hk. unfold Surd.ltb, Surd.sqrt, Surd.of_Q; simpl.
  case_Qle 0%Q (k - 0)%Q; [|qlra].
  case_Qle 0%Q (a - (k - 0) * (k - 0) - 0)%Q.
  - case_Qle (4 * ((k - 0) * (k - 0)) * 0)%Q
      ((a - (k - 0) * (k - 0) - 0) * (a - (k - 0) * (k - 0) - 0))%Q; simpl.
    + split; [done|qlra].
    + qnra.
  - split; [qlra|done].
Qed.

(** The comparison of surds is the comparison of the reals they denote. *)
Lemma Surd_ltb_spec (a b : Surd.t) :
  (0 <= Surd.rad a)%Q → (0 <= Surd.rad b)%Q →
  Surd.ltb a b = true ↔ (Surd.toR a < Surd.toR b)%R.
Proof.
  destruct a as [p u], b as [q v]; simpl. intros Hu Hv.
  unfold Surd.ltb, Surd.toR; simpl.
  apply Qreals.Qle_Rle in Hu, Hv. rewrite RMicromega.Q2R_0 in Hu, Hv.
  pose proof (sqrt_pos (Q2R u)) as Su. pose proof (sqrt_pos (Q2R v)) as Sv.
  pose proof (sqrt_sqrt _ Hu) as Eu. pose proof (sqrt_sqrt _ Hv) as Ev.
  assert (Q2R 4 = 4%R) as E4 by (unfold Q2R; simpl; rlra).
  repeat match goal with
  | |- context [Qle_bool ?x ?y] =>
      let E := fresh "E" in
      destruct (Qle_bool x y) eqn:E;
      [apply Qle_bool_iff, Qreals.Qle_Rle in E | apply Qle_bool_false, Qreals.Qlt_Rlt in E]
  end;
  repeat (rewrite ?Qreals.Q2R_minus, ?Qreals.Q2R_mult, ?Qreals.Q2R_plus,
            ?RMicromega.Q2R_0, ?E4 in * );
  simpl; remember (Q2R q - Q2R p)%R as d eqn:Ed;
  remember (sqrt (Q2R u)) as su eqn:Esu; remember (sqrt (Q2R v)) as sv eqn:Esv;
  clear Esu Esv.
  - split; [done|]. intros G. exfalso.
    assert (su * su < (d + sv) * (d + sv))%R by rnra.
    assert (Q2R u - d * d - Q2R v < 2 * d * sv)%R as L by rnra.
    assert (0 <= 2 * d * sv)%R by rnra.
    assert ((Q2R u - d * d - Q2R v) * (Q2R u - d * d - Q2R v)
            < (2 * d * sv) * (2 * d * sv))%R by rnra.
    rnra.
  - split; [|done]. intros _.
    destruct (Rlt_le_dec (Q2R p + su) (Q2R q + sv)) as [|G]; [done|exfalso].
    assert ((d + sv) * (d + sv) <= su * su)%R by rnra.
    assert (2 * d * sv <= Q2R u - d * d - Q2R v)%R as L by rnra.
    assert (0 <= 2 * d * sv)%R by rnra.
    assert ((2 * d * sv) * (2 * d * sv)
            <= (Q2R u - d * d - Q2R v) * (Q2R u - d * d - Q2R v))%R by rnra.
    rnra.
  - split; [|done]. intros _. rnra.
  - split; [done|]. intros G. exfalso. rnra.
  - split; [done|]. intros G. exfalso.
    assert ((su - d) * (su - d) < sv * sv)%R by rnra.
    assert (0 <= - 2 * d * su)%R by rnra.
    assert (- 2 * d * su < Q2R v - Q2R u - d * d)%R by rnra.
    assert ((- 2 * d * su) * (- 2 * d * su)
            < (Q2R v - Q2R u - d * d) * (Q2R v - Q2R u - d * d))%R by rnra.
    rnra.
  - split; [|done]. intros _.
    destruct (Rlt_le_dec (Q2R p + su) (Q2R q + sv)) as [|G]; [done|exfalso].
    assert (sv * sv <= (su - d) * (su - d))%R by rnra.
    assert (0 <= - 2 * d * su)%R by rnra.
    assert (Q2R v - Q2R u - d * d <= - 2 * d * su)%R by rnra.
    assert ((Q2R v - Q2R u - d * d) * (Q2R v - Q2R u - d * d)
            <= (- 2 * d * su) * (- 2 * d * su))%R by rnra.
    rnra.
Qed.

(** ** Geometry kernel *)

(** The squared length of a vector, the radicand of its magnitude. *)
Definition norm2 (v : Vector2D.t) : Q :=
  (Vector2D.x v * Vector2D.x v + Vector2D.y v * Vector2D.y v)%Q.

(** *** [normalize] in floating point *)

(** A double that is not negative: of positive sign, or a NaN *)
Definition unsigned (f : F64.t) : Prop :=
  match f with
  | SpecFloat.S754_zero s | SpecFloat.S754_infinity s | SpecFloat.S754_finite s _ _ => s = false
  | SpecFloat.S754_nan => True
  end.

Lemma round_unsigned (mx ex : Z) (lx : SpecFloat.location) :
  unsigned (SpecFloat.binary_round_aux F64.prec F64.emax false mx ex lx).
Proof.
  unfold SpecFloat.binary_round_aux.
  destruct (SpecFloat.shr_fexp _ _ _ _ _) as [mrs' e'].
  destruct (SpecFloat.shr_fexp _ _ _ _ _) as [mrs'' e''].
  destruct (SpecFloat.shr_m mrs''); [done| |done].
  by destruct (_ <=? _)%Z.
Qed.

Lemma normalize_unsigned (m e : Z) :
  0 ≤ m → unsigned (SpecFloat.binary_normalize F64.prec F64.emax m e false).
Proof.
  intros Hm. destruct m as [|p|p]; [done| |lia].
  unfold SpecFloat.binary_normalize, SpecFloat.binary_round.
  destruct (SpecFloat.shl_align _ _ _) as [mz ez]. apply round_unsigned.
Qed.

Lemma square_unsigned (f : F64.t) : unsigned (F64.mul f f).
Proof.
  destruct f as [s|s| |s m e]; try done; try (by destruct s).
  unfold F64.mul, SpecFloat.SFmul. rewrite xorb_nilpotent. apply round_unsigned.
Qed.

Lemma add_unsigned (a b : F64.t) : unsigned a → unsigned b → unsigned (F64.add a b).
Proof.
  destruct a as [sa|sa| |sa ma ea], b as [sb|sb| |sb mb eb]; cbn; try done;
    try (intros -> ->; done).
  intros -> ->. unfold F64.add, SpecFloat.SFadd. apply normalize_unsigned.
  unfold SpecFloat.cond_Zopp. lia.
Qed.

Lemma unsigned_not_below_zero (f : F64.t) : unsigned f → F64.ltb f 0 = false.
Proof. destruct f as [s|s| |s m e]; try done; by intros ->. Qed.

(** The sum under the root of [magnitude] is never negative, so the
    root is never a domain error. *)
Lemma sum_of_squares_unsigned (v : Vector2D.stored) (xx yy sum : Py.num) (f : F64.t) :
  Py.mul (Vector2D.sx v) (Vector2D.sx v) = Ok xx →
  Py.mul (Vector2D.sy v) (Vector2D.sy v) = Ok yy →
  Py.add xx yy = Ok sum →
  Py.to_float sum = Ok f →
  unsigned f.
Proof.
  destruct v as [[m|fx] [n|fy]]; cbn [Vector2D.sx Vector2D.sy Py.mul Py.to_float];
    simpl_bind; intros [= <-] [= <-].
  - cbn [Py.add]. intros [= <-]. cbn [Py.to_float].
    destruct (F64.is_infinite _); [done|]. intros [= <-]. apply normalize_unsigned. nia.
  - cbn [Py.add Py.to_float]. destruct (F64.is_infinite _); simpl_bind; [done|].
    intros [= <-]. cbn [Py.to_float]. intros [= <-].
    apply add_unsigned; [apply normalize_unsigned; nia|apply square_unsigned].
  - cbn [Py.add Py.to_float]. simpl_bind. destruct (F64.is_infinite _); simpl_bind; [done|].
    intros [= <-]. cbn [Py.to_float]. intros [= <-].
    apply add_unsigned; [apply square_unsigned|apply normalize_unsigned; nia].
  - cbn [Py.add Py.to_float]. simpl_bind. intros [= <-]. cbn [Py.to_float]. intros [= <-].
    apply add_unsigned; apply square_unsigned.
Qed.

Lemma to_float_raises (a : Py.num) (e : PyError) :
  Py.to_float a = Raise e → e = OverflowError ∧ ∃ n, a = Py.Int n.
Proof.
  destruct a as [n|f]; cbn; [|done].
  destruct (F64.is_infinite _); [|done]. intros [= <-]. eauto.
Qed.

Lemma mul_self_returns (a : Py.num) : ∃ aa, Py.mul a a = Ok aa.
Proof. destruct a; cbn; eauto. Qed.

Lemma add_raises (a b : Py.num) (e : PyError) :
  Py.add a b = Raise e → e = OverflowError.
Proof.
  destruct a as [m|fa], b as [n|fb]; cbn [Py.add Py.to_float]; simpl_bind; try done.
  - destruct (F64.is_infinite _); simpl_bind; [by intros [= <-]|done].
  - destruct (F64.is_infinite _); simpl_bind; [by intros [= <-]|done].
Qed.

(** What [magnitude] does: it returns, or raises [OverflowError]. *)
Lemma magnitude_stored_raises (v : Vector2D.stored) (e : PyError) :
  Vector2D.magnitude_stored v = Raise e → e = OverflowError.
Proof.
  unfold Vector2D.magnitude_stored.
  destruct (mul_self_returns (Vector2D.sx v)) as [xx Hx].
  destruct (mul_self_returns (Vector2D.sy v)) as [yy Hy].
  rewrite Hx, Hy. simpl_bind.
  destruct (Py.add xx yy) as [sum|e'] eqn:Hs; simpl_bind.
  2:{ intros [= <-]. by eapply add_raises. }
  unfold Py.math_sqrt.
  destruct (Py.to_float sum) as [f|e'] eqn:Hf; simpl_bind.
  2:{ intros [= <-]. by apply to_float_raises in Hf as [? _]. }
  rewrite (unsigned_not_below_zero f); [done|].
  by eapply sum_of_squares_unsigned.
Qed.

(** The doubles 1e-200 and 1e200 *)
Definition tiny : F64.t := SpecFloat.S754_finite false 6894565328877484 (-717).
Definition huge : F64.t := SpecFloat.S754_finite false 5883593420661338 612.

(** C10, the claim as stated fails.  The vector (1e-200, 0.0) is not the
    zero vector, but its squares underflow, the magnitude computed is
    0.0 and [normalize] returns [Vector2D(0, 0)]; for (1e200, 0.0) the
    square overflows, the magnitude computed is infinite and the result
    is (0.0, 0.0); neither is the vector scaled by the reciprocal of its
    magnitude.  And [normalize] is not total: with the integer
    coordinates (10**200, 0) the sum of the squares is an integer beyond
    the range of the doubles and [math.sqrt] raises [OverflowError]. *)
Lemma normalize_underflow_and_overflow :
  F64.eqb tiny 0 = false
  ∧ Vector2D.normalize (Vector2D.store (Py.Float tiny) (Py.Float 0))
    = Ok (Vector2D.store (Py.Int 0) (Py.Int 0))
  ∧ huge = F64.of_Z (10 ^ 200)
  ∧ Vector2D.normalize (Vector2D.store (Py.Float huge) (Py.Float 0))
    = Ok (Vector2D.store (Py.Float 0) (Py.Float 0))
  ∧ Vector2D.normalize (Vector2D.store (Py.Int (10 ^ 200)) (Py.Int 0))
    = Raise OverflowError.
Proof. split_and!; vm_compute; reflexivity. Qed.

(** C10, amended.  [normalize] never divides by zero, and it never
    raises on [float] coordinates.  It returns [Vector2D(0, 0)] exactly
    when the magnitude it computes, [math.sqrt(x * x + y * y)] in
    floating point, equals 0, as it does for the zero vector; otherwise
    it returns the coordinates divided by that magnitude, in floating
    point.  The one exception it can raise is [OverflowError], for an
    [int] coordinate too large for a [float].  A vector with the
    coordinates 3 and 4 gives (0.6, 0.8). *)
Theorem normalize_total (v : Vector2D.stored) :
  (∀ e, Vector2D.normalize v = Raise e →
        e = OverflowError ∧ ∃ n, Vector2D.sx v = Py.Int n ∨ Vector2D.sy v = Py.Int n)
  ∧ (∀ fx fy, v = Vector2D.store (Py.Float fx) (Py.Float fy) →
        ∃ r, Vector2D.normalize v = Ok r)
  ∧ ((Vector2D.sx v = Py.Int 0 ∨ ∃ s, Vector2D.sx v = Py.Float (SpecFloat.S754_zero s)) →
     (Vector2D.sy v = Py.Int 0 ∨ ∃ s, Vector2D.sy v = Py.Float (SpecFloat.S754_zero s)) →
     Vector2D.normalize v = Ok (Vector2D.store (Py.Int 0) (Py.Int 0)))
  ∧ (∀ r, Vector2D.normalize v = Ok r →
        ∃ mag, Vector2D.magnitude_stored v = Ok mag
               ∧ (F64.eqb mag 0 = true → r = Vector2D.store (Py.Int 0) (Py.Int 0))
               ∧ (F64.eqb mag 0 = false →
                  ∃ fx fy, Py.to_float (Vector2D.sx v) = Ok fx
                           ∧ Py.to_float (Vector2D.sy v) = Ok fy
                           ∧ r = Vector2D.store (Py.Float (F64.div fx mag))
                                                (Py.Float (F64.div fy mag))))
  ∧ Vector2D.normalize (Vector2D.store (Py.Int 3) (Py.Int 4))
    = Ok (Vector2D.store (Py.Float (F64.ratio 6 10)) (Py.Float (F64.ratio 8 10))).
Proof.
  assert (Hraise : ∀ e, Vector2D.normalize v = Raise e →
            e = OverflowError ∧ ∃ n, Vector2D.sx v = Py.Int n ∨ Vector2D.sy v = Py.Int n).
  { intros e. unfold Vector2D.normalize.
    destruct (Vector2D.magnitude_stored v) as [mag|e'] eqn:Hm; simpl_bind.
    - destruct (F64.eqb mag 0) eqn:Hz; [done|]. unfold Py.truediv. rewrite Hz.
      destruct (Py.to_float (Vector2D.sx v)) as [fx|e1] eqn:Hx; simpl_bind.
      + destruct (Py.to_float (Vector2D.sy v)) as [fy|e2] eqn:Hy; simpl_bind; [done|].
        intros [= <-]. apply to_float_raises in Hy as (-> & n & ->). eauto.
      + intros [= <-]. apply to_float_raises in Hx as (-> & n & ->). eauto.
    - intros [= <-]. split; [by eapply magnitude_stored_raises|].
      destruct v as [[m|fx] [n|fy]]; cbn [Vector2D.sx Vector2D.sy]; eauto.
      exfalso. revert Hm. unfold Vector2D.magnitude_stored, Py.math_sqrt.
      repeat (progress (cbn [Vector2D.sx Vector2D.sy Py.mul Py.add Py.to_float]; simpl_bind)).
      rewrite (unsigned_not_below_zero _ (add_unsigned _ _ (square_unsigned fx)
                                                           (square_unsigned fy))).
      done. }
  split_and!.
  - exact Hraise.
  - intros fx fy ->.
    destruct (Vector2D.normalize (Vector2D.store (Py.Float fx) (Py.Float fy)))
      as [r|e] eqn:Hn; [eauto|].
    destruct (Hraise e eq_refl) as (_ & n & [Hi|Hi]); discriminate Hi.
  - intros Hx Hy. destruct v as [vx vy]. cbn [Vector2D.sx Vector2D.sy] in Hx, Hy.
    destruct Hx as [->|[s ->]], Hy as [->|[s' ->]];
      try destruct s; try destruct s'; reflexivity.
  - intros r. unfold Vector2D.normalize.
    destruct (Vector2D.magnitude_stored v) as [mag|e'] eqn:Hm; simpl_bind; [|done].
    destruct (F64.eqb mag 0) eqn:Hz.
    + intros [= <-]. exists mag. split; [done|]. split; [done|]. by rewrite Hz.
    + unfold Py.truediv. rewrite Hz.
      destruct (Py.to_float (Vector2D.sx v)) as [fx|e1] eqn:Hx; simpl_bind; [|done].
      destruct (Py.to_float (Vector2D.sy v)) as [fy|e2] eqn:Hy; simpl_bind; [|done].
      intros [= <-]. exists mag. split; [done|]. rewrite Hz. split; [done|]. eauto.
  - vm_compute. reflexivity.
Qed.

(** ** Maze and collision service *)

Lemma half_size_player (s : Z) : Map.half_size s "player" = inject_Z (8 * s / 17).
Proof.
  unfold Map.half_size. change (String.eqb "player" "player") with true. cbv iota.
  f_equal. rewrite Zdiv_Qdiv. apply Qfloor_comp.
  rewrite inject_Z_mult. field.
Qed.

Lemma half_size_not_player (s : Z) (kind : string) :
  kind ≠ "player" → Map.half_size s kind = inject_Z (s / 3).
Proof.
  intros Hk. unfold Map.half_size.
  destruct (String.eqb_spec kind "player"); [done|].
  by destruct (String.eqb kind "ghost").
Qed.

Lemma half_size_player_above_ghost (s : Z) : 7 ≤ s → s / 3 < 8 * s / 17.
Proof.
  intros Hs.
  pose proof (Z.mul_div_le s 3 ltac:(lia)).
  pose proof (Z.mul_succ_div_gt (8 * s) 17 ltac:(lia)).
  lia.
Qed.

Lemma no_wall_at_true (m : Map.t) (cs : list Vector2D.t) :
  Map.no_wall_at m cs = Ok true ↔ Forall (fun c => Map.is_wall m c = Ok false) cs.
Proof.
  induction cs as [|c cs IH]; simpl.
  - split; [constructor|done].
  - destruct (Map.is_wall m c) as [[|]|e] eqn:E; simpl.
    + split; [done|]. intros F. inversion F; congruence.
    + rewrite IH. split; [by constructor|]. intros F. by inversion F.
    + split; [done|]. intros F. inversion F; congruence.
Qed.

(** C6, the claim as stated fails: at the game's object size 16 an entity
    that is neither the player nor a ghost gets the half-extent 5, the
    ghost's own, not a smaller one; and at object size 6 the player's
    half-extent is 2, the ghost's own, not a larger one. *)
Lemma clearance_other_equals_ghost :
  Map.half_size 16 "default" = 5%Q ∧ Map.half_size 16 "ghost" = 5%Q
  ∧ Map.half_size 6 "player" = 2%Q ∧ Map.half_size 6 "ghost" = 2%Q.
Proof. repeat split; reflexivity. Qed.

(** C6, amended.  The player's half-extent [floor(size / 2.125)] is
    strictly larger than the ghost's [size // 3] for every object size
    from 7 on; every kind other than the player uses the ghost's
    half-extent; and a position is valid exactly when none of the four
    corners at plus and minus the half-extent is a wall. *)
Theorem clearance_by_kind :
  (∀ s, 7 ≤ s → (Map.half_size s "ghost" < Map.half_size s "player")%Q)
  ∧ (∀ s kind, kind ≠ "player" → Map.half_size s kind = Map.half_size s "ghost")
  ∧ (∀ m position s kind,
       let h := Map.half_size s kind in
       let px := Vector2D.x position in
       let py := Vector2D.y position in
       Map.is_valid_position m position s kind = Ok true
       ↔ Map.is_wall m (Vector2D.mk (px - h) (py - h)) = Ok false
         ∧ Map.is_wall m (Vector2D.mk (px + h) (py - h)) = Ok false
         ∧ Map.is_wall m (Vector2D.mk (px - h) (py + h)) = Ok false
         ∧ Map.is_wall m (Vector2D.mk (px + h) (py + h)) = Ok false).
Proof.
  split; [|split].
  - intros s Hs. rewrite half_size_player, (half_size_not_player s "ghost") by done.
    rewrite <- Zlt_Qlt. by apply half_size_player_above_ghost.
  - intros s kind Hk. by rewrite !half_size_not_player.
  - intros m position s kind h px py.
    unfold Map.is_valid_position. rewrite no_wall_at_true.
    unfold Map.corners. fold h px py. rewrite !Forall_cons, Forall_nil. tauto.
Qed.

(** The cell code under a pixel position, when the position lies on the
    grid. *)
Definition cell_under (m : Map.t) (position : Vector2D.t) : option Z :=
  match Map.floordiv (Vector2D.x position) (Map._cell_size m),
        Map.floordiv (Vector2D.y position) (Map._cell_size m) with
  | Ok col, Ok row =>
      if Map.in_bounds m row col then
        match Map.index2 (Map._layout m) row col with
        | Ok cell => Some cell
        | Raise _ => None
        end
      else None
  | _, _ => None
  end.

Lemma index2_set_cell_eq (layout : list (list Z)) (row col cell v : Z) :
  Map.index2 layout row col = Ok cell →
  Map.index2 (Map.set_cell layout row col v) row col = Ok v.
Proof.
  unfold Map.index2. intros Hcell.
  destruct (layout !! Z.to_nat row) as [r|] eqn:Er; [|done].
  destruct (r !! Z.to_nat col) as [c|] eqn:Ec; [|done].
  assert (Map.set_cell layout row col v !! Z.to_nat row
          = Some (<[Z.to_nat col := v]> r)) as ->.
  { unfold Map.set_cell. by rewrite list_lookup_alter_eq, Er. }
  rewrite list_lookup_insert_eq; [done|]. by eapply lookup_lt_Some.
Qed.

Lemma index2_set_cell_ne (layout : list (list Z)) (row col v r c : Z) :
  0 ≤ row → 0 ≤ col → 0 ≤ r → 0 ≤ c → (r ≠ row ∨ c ≠ col) →
  Map.index2 (Map.set_cell layout row col v) r c = Map.index2 layout r c.
Proof.
  intros Hrow Hcol Hr Hc Hne. unfold Map.index2.
  destruct (decide (r = row)) as [->|Hrr].
  - destruct (layout !! Z.to_nat row) as [l|] eqn:El.
    + assert (Map.set_cell layout row col v !! Z.to_nat row
              = Some (<[Z.to_nat col := v]> l)) as ->.
      { unfold Map.set_cell. by rewrite list_lookup_alter_eq, El. }
      rewrite list_lookup_insert_ne; [done|]. lia.
    + assert (Map.set_cell layout row col v !! Z.to_nat row = None) as ->; [|done].
      unfold Map.set_cell. by rewrite list_lookup_alter_eq, El.
  - unfold Map.set_cell. rewrite list_lookup_alter_ne; [done|]. lia.
Qed.

(** The coordinate [a] falls into stretch number [k] of a ruler whose
    stretches are [cs] pixels long: between [k * cs] and [(k + 1) * cs],
    the lower end included.  (For a negative [cs] the ruler runs the
    other way.) *)
Definition lies_in (cs k : Z) (a : Q) : Prop :=
  (0 < cs ∧ (inject_Z (k * cs) <= a)%Q ∧ (a < inject_Z ((k + 1) * cs))%Q)
  ∨ (cs < 0 ∧ (inject_Z ((k + 1) * cs) < a)%Q ∧ (a <= inject_Z (k * cs))%Q).

Lemma floordiv_lies_in (cs k : Z) (a : Q) :
  lies_in cs k a → Map.floordiv a cs = Ok k.
Proof.
  intros H. unfold Map.floordiv.
  assert (Hcs : cs ≠ 0) by (destruct H as [[? _]|[? _]]; lia).
  destruct (Z.eqb_spec cs 0) as [|_]; [done|]. f_equal.
  set (q := (a / inject_Z cs)%Q).
  assert (Hq : (q * inject_Z cs == a)%Q).
  { unfold q. field. intros E. apply Hcs. unfold Qeq in E. simpl in E. lia. }
  pose proof (Qfloor_le q) as L1. pose proof (Qlt_floor q) as L2.
  assert (Hk : (inject_Z k <= q)%Q ∧ (q < inject_Z (k + 1))%Q).
  { destruct H as [(Hpos & Hlo & Hhi)|(Hneg & Hlo & Hhi)].
    - rewrite inject_Z_mult in Hlo, Hhi. rewrite <- Hq in Hlo, Hhi.
      assert (0 < inject_Z cs)%Q by (rewrite <- (Zlt_Qlt 0); lia).
      split.
      + by apply (Qmult_le_r _ _ (inject_Z cs)).
      + by apply (Qmult_lt_r _ _ (inject_Z cs)).
    - rewrite inject_Z_mult in Hlo, Hhi. rewrite <- Hq in Hlo, Hhi.
      assert (0 < - inject_Z cs)%Q.
      { rewrite <- inject_Z_opp, <- (Zlt_Qlt 0). lia. }
      split.
      + apply (Qmult_le_r _ _ (- inject_Z cs)); [done|]. qlra.
      + apply (Qmult_lt_r _ _ (- inject_Z cs)); [done|]. qlra. }
  destruct Hk as [K1 K2].
  assert (inject_Z k < inject_Z (Qfloor q + 1))%Q as K3 by qlra.
  assert (inject_Z (Qfloor q) < inject_Z (k + 1))%Q as K4 by qlra.
  rewrite <- Zlt_Qlt in K3, K4. lia.
Qed.

Lemma alter_at {A : Type} (f : A → A) (l : list A) (i : nat) (x : A) :
  l !! i = Some x → alter f i l = <[i := f x]> l.
Proof.
  intros Hi. rewrite list_insert_alter. apply list_alter_ext; [|done].
  intros y Hy. congruence.
Qed.

(** C2.  A position lies in the cell of row [r] and column [c] of the
    grid, and that cell holds a pellet (2) or a power-up (3).  Then
    [remove_pellet_at] returns [True] and leaves the same map with that
    one cell set to 0; a second call on the map it leaves returns
    [False] and leaves the map as it is.  The cell is named by the pixel
    bounds of the position, not by the conversion the code makes. *)
Theorem remove_pellet_at_once (m : Map.t) (position : Vector2D.t) (r c : nat)
    (row : list Z) (cell : Z) :
  lies_in (Map._cell_size m) (Z.of_nat c) (Vector2D.x position) →
  lies_in (Map._cell_size m) (Z.of_nat r) (Vector2D.y position) →
  Z.of_nat c < Map._width m →
  Z.of_nat r < Map._height m →
  Map._layout m !! r = Some row →
  row !! c = Some cell →
  cell = 2 ∨ cell = 3 →
  ∃ m',
    Map.remove_pellet_at m position = Ok (m', true)
    ∧ Map._layout m' = <[r := <[c := 0]> row]> (Map._layout m)
    ∧ Map._cell_size m' = Map._cell_size m
    ∧ Map._width m' = Map._width m
    ∧ Map._height m' = Map._height m
    ∧ Map._spawn_positions m' = Map._spawn_positions m
    ∧ Map.remove_pellet_at m' position = Ok (m', false).
Proof.
  intros Hx Hy Hw Hh Hrow Hcell Hkind.
  apply floordiv_lies_in in Hx, Hy.
  assert (Hin : Map.in_bounds m (Z.of_nat r) (Z.of_nat c) = true).
  { unfold Map.in_bounds. rewrite !andb_true_iff, !Z.leb_le, !Z.ltb_lt. lia. }
  assert (Hi : Map.index2 (Map._layout m) (Z.of_nat r) (Z.of_nat c) = Ok cell).
  { unfold Map.index2. by rewrite !Nat2Z.id, Hrow, Hcell. }
  unfold Map.remove_pellet_at at 1. rewrite Hx, Hy. simpl_bind.
  rewrite Hin, Hi. simpl_bind.
  assert ((cell =? 2) || (cell =? 3) = true) as ->.
  { destruct Hkind as [-> | ->]; reflexivity. }
  eexists. split; [reflexivity|].
  assert (Hl : Map.set_cell (Map._layout m) (Z.of_nat r) (Z.of_nat c) 0
               = <[r := <[c := 0]> row]> (Map._layout m)).
  { unfold Map.set_cell. rewrite !Nat2Z.id. by apply alter_at. }
  split; [exact Hl|]. do 4 (split; [reflexivity|]).
  unfold Map.remove_pellet_at.
  change (Map._cell_size (Map.set_layout m _)) with (Map._cell_size m).
  rewrite Hx, Hy. simpl_bind.
  change (Map.in_bounds (Map.set_layout m _) (Z.of_nat r) (Z.of_nat c))
    with (Map.in_bounds m (Z.of_nat r) (Z.of_nat c)).
  rewrite Hin.
  change (Map._layout (Map.set_layout m ?l)) with l.
  erewrite index2_set_cell_eq by exact Hi. reflexivity.
Qed.

Definition corridor : Map.t :=
  Map.init [[1; 1; 1; 1]; [1; 2; 0; 1]; [1; 1; 1; 1]] (Some 12).

(** A hall of 12-pixel cells with pellets in rows 1 and 2 and a power-up
    in row 1, column 3 *)
Definition gallery : Map.t :=
  Map.init [[1; 1; 1; 1; 1]; [1; 2; 0; 3; 1]; [1; 2; 2; 0; 1]; [1; 1; 1; 1; 1]] (Some 12).

(** The position (40, 17) lies off the centre of the cell of row 1 and
    column 3 of [gallery], which spans the pixels 36 to 48 across and 12
    to 24 down and holds the power-up; it is removed once. *)
Lemma remove_pellet_at_once_witness :
  ∃ m',
    Map.remove_pellet_at gallery (Vector2D.mk 40 17) = Ok (m', true)
    ∧ Map._layout m'
      = [[1; 1; 1; 1; 1]; [1; 2; 0; 0; 1]; [1; 2; 2; 0; 1]; [1; 1; 1; 1; 1]]
    ∧ Map.remove_pellet_at m' (Vector2D.mk 40 17) = Ok (m', false).
Proof.
  destruct (remove_pellet_at_once gallery (Vector2D.mk 40 17) 1 3 [1; 2; 0; 3; 1] 3)
    as (m' & H1 & H2 & _ & _ & _ & _ & H3).
  - left. split; [done|]. split; [by vm_compute|by vm_compute].
  - left. split; [done|]. split; [by vm_compute|by vm_compute].
  - reflexivity.
  - reflexivity.
  - reflexivity.
  - reflexivity.
  - by right.
  - exists m'. split; [exact H1|]. split; [exact H2|exact H3].
Defined.

(** ** Difficulty scaling *)

Lemma difficulty_multiplier_set (g : Ghost.t) (d : Z) :
  Ghost._difficulty_multiplier (Ghost.set_difficulty g d)
  = F64.add 1 (F64.min (F64.div d 100) 2).
Proof. reflexivity. Qed.

(** The durations at the two ends of the difficulty scale *)
Lemma durations_at_200_and_0 (g : Ghost.t) :
  Ghost.get_difficulty_adjusted_vulnerable_duration (Ghost.set_difficulty g 200) 8000 = 1000
  ∧ Ghost.get_difficulty_adjusted_vulnerable_duration (Ghost.set_difficulty g 0) 8000 = 8000
  ∧ Ghost.get_difficulty_adjusted_mode_timing (Ghost.set_difficulty g 200) = (2000, 39000)
  ∧ Ghost.get_difficulty_adjusted_mode_timing (Ghost.set_difficulty g 0) = (10000, 15000).
Proof.
  unfold Ghost.get_difficulty_adjusted_vulnerable_duration,
    Ghost.get_difficulty_adjusted_mode_timing.
  rewrite !difficulty_multiplier_set. repeat split; vm_compute; reflexivity.
Qed.

(** C8.  For any ghost, the vulnerability duration after
    [set_difficulty(200)] is strictly below the one after
    [set_difficulty(0)], and so is the patrol duration; whatever the
    ghost and the base duration, the vulnerability duration is at least
    1000, the patrol duration at least 2000 and the chase duration at
    most 40000. *)
Theorem difficulty_scaling (g : Ghost.t) :
  let hard := Ghost.set_difficulty g 200 in
  let easy := Ghost.set_difficulty g 0 in
  Ghost.get_difficulty_adjusted_vulnerable_duration hard 8000
  < Ghost.get_difficulty_adjusted_vulnerable_duration easy 8000
  ∧ (Ghost.get_difficulty_adjusted_mode_timing hard).1
    < (Ghost.get_difficulty_adjusted_mode_timing easy).1
  ∧ (∀ (g' : Ghost.t) (base_duration : Z),
       1000 ≤ Ghost.get_difficulty_adjusted_vulnerable_duration g' base_duration)
  ∧ (∀ g' : Ghost.t,
       2000 ≤ (Ghost.get_difficulty_adjusted_mode_timing g').1
       ∧ (Ghost.get_difficulty_adjusted_mode_timing g').2 ≤ 40000).
Proof.
  intros hard easy. subst hard easy.
  destruct (durations_at_200_and_0 g) as (-> & -> & -> & ->).
  simpl. split; [lia|]. split; [lia|]. split.
  - intros g' base_duration.
    unfold Ghost.get_difficulty_adjusted_vulnerable_duration. lia.
  - intros g'. unfold Ghost.get_difficulty_adjusted_mode_timing. simpl. lia.
Qed.

(** ** Entity movement *)

(** The position a player has after a step in [d] *)
Definition advanced (p : Player.t) (d : Direction) : Vector2D.t :=
  Vector2D.add (Player._position p)
    (Vector2D.mk (inject_Z (value d).1 * Player._speed p)
                 (inject_Z (value d).2 * Player._speed p)).

Lemma player_can_move_ext (p q : Player.t) (d : Direction) (m : Map.t) :
  Player._position p = Player._position q →
  Player._speed p = Player._speed q →
  Player.can_move p d m = Player.can_move q d m.
Proof.
  intros Hp Hs. unfold Player.can_move, MovableObject.can_move, MovableObject.step.
  simpl. by rewrite Hp, Hs.
Qed.

Lemma tick_power_up_frame (p : Player.t) (dt : F64.t) :
  let p' := Player.tick_power_up p dt in
  Player._position p' = Player._position p
  ∧ Player._speed p' = Player._speed p
  ∧ Player._direction p' = Player._direction p
  ∧ Player._next_direction p' = Player._next_direction p.
Proof.
  unfold Player.tick_power_up. destruct (Player._power_up_active p); [|done].
  simpl. by destruct (F64.leb _ _).
Qed.

Lemma can_move_NONE (p : Player.t) (m : Map.t) : Player.can_move p NONE m = Ok false.
Proof. reflexivity. Qed.

Lemma player_move_position (p : Player.t) :
  Player._direction p ≠ NONE →
  Player._position (MovableObject.move p None) = advanced p (Player._direction p)
  ∧ Player._direction (MovableObject.move p None) = Player._direction p.
Proof.
  intros Hd. unfold MovableObject.move. simpl.
  destruct (decide (Player._direction p ≠ NONE)); done.
Qed.

Arguments Player.can_move : simpl never.
Arguments MovableObject.move : simpl never.

Lemma resolve_turn_take (p : Player.t) (m : Map.t) :
  Player._next_direction p ≠ Player._direction p →
  Player.can_move p (Player._next_direction p) m = Ok true →
  Player.resolve_turn p m = Ok (Player.set_direction (Player._next_direction p) p).
Proof.
  intros Hne Hn. unfold Player.resolve_turn.
  destruct (decide (Player._next_direction p ≠ Player._direction p)); [|done].
  by rewrite Hn.
Qed.

Lemma resolve_turn_keep (p : Player.t) (m : Map.t) :
  Player._next_direction p = Player._direction p
  ∨ (Player.can_move p (Player._next_direction p) m = Ok false
     ∧ Player.can_move p (Player._direction p) m = Ok true) →
  Player.resolve_turn p m = Ok p.
Proof.
  intros Hk. unfold Player.resolve_turn.
  destruct (decide (Player._next_direction p ≠ Player._direction p)) as [Hne|]; [|done].
  destruct Hk as [|[Hn Hd]]; [done|]. by rewrite Hn; simpl; rewrite Hd.
Qed.

Lemma resolve_turn_stop (p : Player.t) (m : Map.t) :
  Player._next_direction p ≠ Player._direction p →
  Player.can_move p (Player._next_direction p) m = Ok false →
  Player.can_move p (Player._direction p) m = Ok false →
  Player.resolve_turn p m = Ok (Player.set_direction NONE p).
Proof.
  intros Hne Hn Hd. unfold Player.resolve_turn.
  destruct (decide (Player._next_direction p ≠ Player._direction p)); [|done].
  by rewrite Hn; simpl; rewrite Hd.
Qed.

Lemma advance_free (p : Player.t) (m : Map.t) :
  Player.can_move p (Player._direction p) m = Ok true →
  Player.advance p m = Ok (MovableObject.move p None).
Proof. intros Hd. unfold Player.advance. by rewrite Hd. Qed.

Lemma advance_blocked (p : Player.t) (m : Map.t) :
  Player.can_move p (Player._direction p) m = Ok false →
  Player._next_direction p = Player._direction p
  ∨ Player.can_move p (Player._next_direction p) m = Ok false →
  Player.advance p m = Ok (Player.set_direction NONE p).
Proof.
  intros Hd Hn. unfold Player.advance. rewrite Hd. simpl.
  destruct (decide (Player._next_direction p ≠ Player._direction p)) as [Hne|]; [|done].
  destruct Hn as [|Hn]; [done|]. by rewrite Hn.
Qed.

(** C5.  One call of [Player.update], for a player with committed
    direction [_direction] and requested direction [_next_direction]:
    (a) a requested direction that differs from the committed one and is
    free becomes the committed one, and the player advances along it;
    (b) when neither direction is free the committed direction becomes
    [NONE] and the position stays;
    (c) when the committed direction is free, and the requested one is
    the same or is blocked, the committed direction stays and the
    position advances by the direction's unit vector times the speed. *)
Theorem player_update_movement (p : Player.t) (delta_time : F64.t) (m : Map.t) :
  let d := Player._direction p in
  let n := Player._next_direction p in
  (n ≠ d → Player.can_move p n m = Ok true →
     ∃ p', Player.update p delta_time m = Ok p'
           ∧ Player._direction p' = n
           ∧ Player._position p' = advanced p n)
  ∧ (Player.can_move p d m = Ok false → Player.can_move p n m = Ok false →
     ∃ p', Player.update p delta_time m = Ok p'
           ∧ Player._direction p' = NONE
           ∧ Player._position p' = Player._position p)
  ∧ (Player.can_move p d m = Ok true → (n = d ∨ Player.can_move p n m = Ok false) →
     ∃ p', Player.update p delta_time m = Ok p'
           ∧ Player._direction p' = d
           ∧ Player._position p' = advanced p d).
Proof.
  intros d n. subst d n.
  destruct (tick_power_up_frame p delta_time) as (Tp & Ts & Td & Tn).
  unfold Player.update.
  set (p0 := Player.tick_power_up p delta_time) in *.
  assert (∀ x, Player.can_move p0 x m = Player.can_move p x m) as Tc.
  { intros x. by apply player_can_move_ext. }
  assert (∀ d' x, Player.can_move (Player.set_direction d' p0) x m
                  = Player.can_move p x m) as Tc'.
  { intros d' x. by apply player_can_move_ext. }
  assert (∀ x, advanced p0 x = advanced p x) as Ta.
  { intros x. unfold advanced. by rewrite Tp, Ts. }
  split; [|split].
  - intros Hne Hfree.
    assert (Player._next_direction p ≠ NONE) as Hnn.
    { intros E. rewrite E, can_move_NONE in Hfree. done. }
    rewrite (resolve_turn_take p0); [|congruence|by rewrite Tc, Tn]. simpl.
    set (p1 := Player.set_direction (Player._next_direction p0) p0).
    rewrite (advance_free p1); [|by subst p1; rewrite Tc'; simpl; rewrite Tn]. simpl.
    eexists. split; [reflexivity|]. simpl.
    destruct (player_move_position p1) as [-> ->]; [by subst p1; simpl; rewrite Tn|].
    subst p1. simpl. by rewrite Tn, <- Ta.
  - intros Hd Hn.
    destruct (decide (Player._next_direction p = Player._direction p)) as [He|Hne].
    + rewrite (resolve_turn_keep p0); [|left; congruence]. simpl.
      rewrite (advance_blocked p0); [|by rewrite Tc, Td|left; congruence].
      simpl. eexists. split; [reflexivity|]. by simpl.
    + rewrite (resolve_turn_stop p0);
        [|congruence|by rewrite Tc, Tn|by rewrite Tc, Td]. simpl.
      set (p1 := Player.set_direction NONE p0).
      rewrite (advance_blocked p1);
        [|reflexivity|right; by subst p1; rewrite Tc'; simpl; rewrite Tn].
      simpl. eexists. split; [reflexivity|]. by simpl.
  - intros Hd Hn.
    assert (Player._direction p ≠ NONE) as Hdn.
    { intros E. rewrite E, can_move_NONE in Hd. done. }
    rewrite (resolve_turn_keep p0).
    2:{ destruct Hn as [Hn|Hn]; [left; congruence|right].
        by rewrite !Tc, Tn, Td. }
    simpl. rewrite (advance_free p0); [|by rewrite Tc, Td]. simpl.
    eexists. split; [reflexivity|]. simpl.
    destruct (player_move_position p0) as [-> ->]; [congruence|].
    by rewrite Td, Ta.
Qed.

(** A street of two free cells of 16 pixels between walls *)
Definition street : Map.t :=
  Map.init [[1; 1; 1; 1]; [1; 0; 0; 1]; [1; 1; 1; 1]] None.

(** A player at (24, 24) with speed 2 in [street]: only RIGHT is free. *)
Definition walker (committed requested : Direction) : Player.t :=
  Player.set_next_direction requested
    (Player.set_direction committed (Player.init 24 24 16 2 3 0)).

(** The three cases of [player_update_movement] in [street]: turning
    from UP into the free RIGHT; stopping with UP and LEFT both blocked;
    going on RIGHT while the requested UP is blocked. *)
Lemma player_update_movement_witness :
  (∃ p', Player.update (walker UP RIGHT) 0 street = Ok p'
         ∧ Player._direction p' = RIGHT
         ∧ Player._position p' = advanced (walker UP RIGHT) RIGHT)
  ∧ (∃ p', Player.update (walker UP LEFT) 0 street = Ok p'
           ∧ Player._direction p' = NONE
           ∧ Player._position p' = Player._position (walker UP LEFT))
  ∧ (∃ p', Player.update (walker RIGHT UP) 0 street = Ok p'
           ∧ Player._direction p' = RIGHT
           ∧ Player._position p' = advanced (walker RIGHT UP) RIGHT).
Proof.
  split; [|split].
  - apply (player_update_movement (walker UP RIGHT) 0 street); [done|reflexivity].
  - apply (player_update_movement (walker UP LEFT) 0 street); reflexivity.
  - apply (player_update_movement (walker RIGHT UP) 0 street);
      [reflexivity|right; reflexivity].
Defined.

(** ** Vulnerability and speed *)

(** Entering the vulnerable state: the speed drops by 1 but not below 1. *)
Lemma set_vulnerable_speed (g : Ghost.t) (duration : Z) :
  let g' := Ghost.set_vulnerable g duration in
  Ghost._state g' = "vulnerable"
  ∧ Ghost._speed g' = Qmax 1 (Ghost._speed g - 1)
  ∧ (1 <= Ghost._speed g')%Q
  ∧ ((2 <= Ghost._speed g)%Q → Ghost._speed g' == Ghost._speed g - 1)%Q
  ∧ Ghost._base_speed g' = Ghost._base_speed g.
Proof.
  simpl. split; [done|]. split; [done|]. split; [apply Q.le_max_l|]. split; [|done].
  intros Hs. apply Q.max_r. qlra.
Qed.

(** When the countdown of a vulnerable ghost runs out in [update], the
    ghost is normal again and its speed is the literal 1.5, whatever its
    speed was before it became vulnerable. *)
Lemma update_expiry_speed (g : Ghost.t) (delta_time : F64.t) :
  Ghost._is_in_spawn_delay g = false →
  Ghost._state g = "vulnerable" →
  F64.leb (F64.sub (Ghost._vulnerable_timer g) (F64.mul delta_time 1000)) 0 = true →
  let g' := Ghost.update g delta_time in
  Ghost._state g' = "normal" ∧ Ghost._speed g' = 1.5%Q.
Proof.
  intros Hd Hs Ht. unfold Ghost.update. rewrite Hd. cbn [fst snd].
  unfold Ghost.tick_vulnerable. rewrite Hs. cbn [String.eqb Ascii.eqb Bool.eqb].
  cbn [Ghost._vulnerable_timer Ghost.set_vulnerable_timer]. rewrite Ht.
  unfold Ghost.update_mode.
  destruct (Ghost.get_difficulty_adjusted_mode_timing _) as [patrol_duration chase_duration].
  repeat match goal with |- context [if ?b then _ else _] => destruct b end; done.
Qed.

(** A ghost built with speed 2, made vulnerable and updated past the end
    of its vulnerability *)
Definition fast_ghost : Ghost.t := Ghost.init 100 100 16 2 (Vector2D.mk 100 100) "red".

(** C7, at the failing input: a ghost of speed 2 slows down to 1 when it
    becomes vulnerable; after the countdown has run out it is normal
    again with speed 1.5, which is neither its former speed 2 nor its
    [_base_speed]. *)
Lemma expiry_speed_of_fast_ghost :
  let scared := Ghost.set_vulnerable fast_ghost 8000 in
  let calm := Ghost.update scared 8 in
  Ghost._speed fast_ghost = 2%Q
  ∧ Ghost._speed scared = 1%Q
  ∧ Ghost._state calm = "normal"
  ∧ Ghost._speed calm = 1.5%Q
  ∧ Ghost._base_speed calm = 2%Q
  ∧ Qeq_bool (Ghost._speed calm) (Ghost._speed fast_ghost) = false.
Proof. vm_compute. repeat split; reflexivity. Qed.

(** The sibling paths restore the base speed. *)
Lemma reset_restores_base_speed (g : Ghost.t) :
  Ghost._speed (Ghost.reset_position g) = Ghost._base_speed g
  ∧ Ghost._speed (Ghost.set_eaten_with_delay g) = Ghost._base_speed g
  ∧ Ghost._speed (Ghost.reset_difficulty g) = Ghost._base_speed g
  ∧ ∀ d, Ghost._speed (Ghost.set_difficulty g d) = Ghost._base_speed g.
Proof. repeat split. Qed.

(** ** Ghost collisions and the last life *)

(** [distance < collision_radius] between the player and a ghost *)
Definition touches (p : Player.t) (ghost : Ghost.t) : bool :=
  Surd.ltb (Vector2D.distance_to (Player._position p) (Ghost._position ghost))
           (Surd.of_Q (inject_Z Game.collision_radius)).

Lemma lose_life_nonneg (p : Player.t) : 0 ≤ Player._lives (Player.lose_life p).
Proof.
  unfold Player.lose_life. simpl.
  destruct (Player._lives p - 1 <? 0) eqn:E; simpl; lia.
Qed.

Lemma lose_life_last (p : Player.t) :
  Player._lives p ≤ 1 → Player._lives (Player.lose_life p) ≤ 0.
Proof.
  intros H. unfold Player.lose_life. simpl.
  destruct (Player._lives p - 1 <? 0) eqn:E; simpl; lia.
Qed.

Lemma lose_life_position (p : Player.t) :
  Player._position (Player.lose_life p) = Player._position p.
Proof. unfold Player.lose_life. simpl. by destruct (_ <? 0). Qed.

(** The game is lost: no life left and the state is [GAME_OVER]; the
    player stands where it stood in [gm0] and nothing was waited for. *)
Definition lost (gm0 gm : Game.t) : Prop :=
  Player._lives (Game._player gm) = 0
  ∧ Game._state gm = GAME_OVER
  ∧ Game.waited gm = Game.waited gm0
  ∧ Player._position (Game._player gm) = Player._position (Game._player gm0).

(** The loop has reached index [k] with the last life still there: the
    player and the ghosts from [k] on are those of [gm0]. *)
Definition last_life (gm0 gm : Game.t) (k : nat) : Prop :=
  Player._lives (Game._player gm) = 1
  ∧ Game.waited gm = Game.waited gm0
  ∧ Player._position (Game._player gm) = Player._position (Game._player gm0)
  ∧ length (Game._ghosts gm) = length (Game._ghosts gm0)
  ∧ ∀ j, (k ≤ j)%nat → Game._ghosts gm !! j = Game._ghosts gm0 !! j.

Lemma collide_ghost_lost (gm0 gm : Game.t) (j : nat) :
  lost gm0 gm → lost gm0 (Game.collide_ghost gm j).
Proof.
  intros (Hl & Hs & Hw & Hp). unfold Game.collide_ghost.
  destruct (Game._ghosts gm !! j) as [ghost|]; [|done].
  destruct (Surd.ltb _ _); [|done].
  destruct (String.eqb (Ghost._state ghost) "vulnerable"); [done|].
  destruct (String.eqb (Ghost._state ghost) "normal"); [|done].
  simpl. pose proof (lose_life_last (Game._player gm) ltac:(lia)) as Hz.
  pose proof (lose_life_nonneg (Game._player gm)).
  destruct (Player._lives (Player.lose_life (Game._player gm)) <=? 0) eqn:E; [|lia].
  unfold lost. simpl. rewrite lose_life_position. split; [lia|done].
Qed.

Lemma collide_ghosts_lost (gm0 gm : Game.t) (l : list nat) :
  lost gm0 gm → lost gm0 (fold_left Game.collide_ghost l gm).
Proof.
  revert gm. induction l as [|j l IH]; intros gm H; [done|].
  simpl. apply IH. by apply collide_ghost_lost.
Qed.

Lemma collide_ghost_last_life (gm0 gm : Game.t) (k : nat) :
  last_life gm0 gm k →
  last_life gm0 (Game.collide_ghost gm k) (S k) ∨ lost gm0 (Game.collide_ghost gm k).
Proof.
  intros (Hl & Hw & Hp & Hn & Hg). unfold Game.collide_ghost.
  destruct (Game._ghosts gm !! k) as [ghost|] eqn:Ek.
  2:{ left. repeat split; try done. intros j Hj. apply Hg. lia. }
  destruct (Surd.ltb _ _).
  2:{ left. repeat split; try done. intros j Hj. apply Hg. lia. }
  destruct (String.eqb (Ghost._state ghost) "vulnerable").
  { left. unfold last_life. simpl. rewrite length_insert.
    repeat split; try done. intros j Hj.
    rewrite list_lookup_insert_ne by lia. apply Hg. lia. }
  destruct (String.eqb (Ghost._state ghost) "normal").
  2:{ left. repeat split; try done. intros j Hj. apply Hg. lia. }
  right. simpl.
  pose proof (lose_life_last (Game._player gm) ltac:(lia)) as Hz.
  pose proof (lose_life_nonneg (Game._player gm)).
  destruct (Player._lives (Player.lose_life (Game._player gm)) <=? 0) eqn:E; [|lia].
  unfold lost. simpl. rewrite lose_life_position. split; [lia|done].
Qed.

Lemma collide_ghost_hit (gm0 gm : Game.t) (i : nat) (ghost : Ghost.t) :
  last_life gm0 gm i →
  Game._ghosts gm0 !! i = Some ghost →
  Ghost._state ghost = "normal" →
  touches (Game._player gm0) ghost = true →
  lost gm0 (Game.collide_ghost gm i).
Proof.
  intros (Hl & Hw & Hp & Hn & Hg) Hi Hs Ht. unfold Game.collide_ghost.
  rewrite Hg, Hi by lia. unfold touches in Ht. rewrite Hp, Ht, Hs. simpl.
  pose proof (lose_life_last (Game._player gm) ltac:(lia)) as Hz.
  pose proof (lose_life_nonneg (Game._player gm)).
  destruct (Player._lives (Player.lose_life (Game._player gm)) <=? 0) eqn:E; [|lia].
  unfold lost. simpl. rewrite lose_life_position. split; [lia|done].
Qed.

Lemma collide_ghosts_from (gm0 gm : Game.t) (i : nat) (ghost : Ghost.t) (n k : nat) :
  last_life gm0 gm k →
  (k ≤ i < k + n)%nat →
  Game._ghosts gm0 !! i = Some ghost →
  Ghost._state ghost = "normal" →
  touches (Game._player gm0) ghost = true →
  lost gm0 (fold_left Game.collide_ghost (seq k n) gm).
Proof.
  revert gm k. induction n as [|n IH]; intros gm k HL Hk Hi Hs Ht; [lia|].
  simpl. destruct (decide (k = i)) as [->|Hne].
  - apply collide_ghosts_lost. by eapply collide_ghost_hit.
  - destruct (collide_ghost_last_life gm0 gm k HL) as [HL'|HL'].
    + eapply IH; try done. lia.
    + by apply collide_ghosts_lost.
Qed.

(** C9.  The player has exactly one life and, when the ghost loop of
    [update] starts, stands within the collision radius of a ghost in the
    normal state.  After the loop the player has 0 lives and the game is
    in the state [GAME_OVER]; the spawn-reset branch was not taken: no
    pause was waited for and the player was not moved.  And [lose_life]
    never leaves a negative number of lives. *)
Theorem last_life_collision (gm : Game.t) (i : nat) (ghost : Ghost.t) :
  Player._lives (Game._player gm) = 1 →
  Game._ghosts gm !! i = Some ghost →
  Ghost._state ghost = "normal" →
  touches (Game._player gm) ghost = true →
  let gm' := Game.collide_ghosts gm in
  Player._lives (Game._player gm') = 0
  ∧ Game._state gm' = GAME_OVER
  ∧ Game.waited gm' = Game.waited gm
  ∧ Player._position (Game._player gm') = Player._position (Game._player gm)
  ∧ ∀ p : Player.t, 0 ≤ Player._lives (Player.lose_life p).
Proof.
  intros Hl Hi Hs Ht gm'.
  assert (lost gm gm') as (H1 & H2 & H3 & H4).
  { subst gm'. unfold Game.collide_ghosts.
    eapply (collide_ghosts_from gm gm i ghost); try done.
    apply lookup_lt_Some in Hi. lia. }
  repeat split; try done. apply lose_life_nonneg.
Qed.

(** A game in play on [street]: the player on its last life at (24, 24),
    a vulnerable ghost and a normal ghost both two pixels away. *)
Definition last_stand : Game.t :=
  let ghost := Ghost.init 26 24 16 1.5 (Vector2D.mk 40 24) "red" in
  Game.mk PLAYING false "" false street
    (Player.init 24 24 16 2 1 0)
    [Ghost.set_vulnerable ghost 8000; ghost] []
    0 0 [] None 0 [] 0.

Lemma last_life_collision_witness :
  let gm' := Game.collide_ghosts last_stand in
  Player._lives (Game._player gm') = 0
  ∧ Game._state gm' = GAME_OVER
  ∧ Game.waited gm' = Game.waited last_stand
  ∧ Player._position (Game._player gm') = Player._position (Game._player last_stand)
  ∧ ∀ p : Player.t, 0 ≤ Player._lives (Player.lose_life p).
Proof.
  apply (last_life_collision last_stand 1
           (Ghost.init 26 24 16 1.5 (Vector2D.mk 40 24) "red")); reflexivity.
Defined.

(** ** Collision queries on a well-formed map never raise *)

Arguments Map.index2 : simpl never.
Arguments Map.is_wall : simpl never.
Arguments Map.is_valid_position : simpl never.

Lemma floordiv_ok (a : Q) (b : Z) : b ≠ 0 → Map.floordiv a b = Ok (Qfloor (a / inject_Z b)).
Proof. intros Hb. unfold Map.floordiv. by destruct (Z.eqb_spec b 0). Qed.

Lemma index2_ok (m : Map.t) (row col : Z) :
  Map.well_formed m → 0 ≤ row < Map._height m → 0 ≤ col < Map._width m →
  ∃ cell, Map.index2 (Map._layout m) row col = Ok cell.
Proof.
  intros (_ & Hh & Hw) Hrow Hcol. unfold Map.index2.
  destruct (Map._layout m !! Z.to_nat row) as [r|] eqn:Er.
  - assert (Z.of_nat (length r) = Map._width m) as Hr.
    { rewrite Forall_forall in Hw. apply Hw. by eapply list_elem_of_lookup_2. }
    destruct (r !! Z.to_nat col) as [c|] eqn:Ec; [eauto|].
    apply lookup_ge_None in Ec. lia.
  - apply lookup_ge_None in Er. lia.
Qed.

Lemma is_wall_ok (m : Map.t) (p : Vector2D.t) :
  Map.well_formed m → ∃ b, Map.is_wall m p = Ok b.
Proof.
  intros Hwf. pose proof Hwf as (Hc & _). unfold Map.is_wall.
  rewrite !floordiv_ok by lia. simpl_bind.
  set (col := Qfloor (Vector2D.x p / inject_Z (Map._cell_size m))).
  set (row := Qfloor (Vector2D.y p / inject_Z (Map._cell_size m))).
  destruct ((row <? 0) || (row >=? Map._height m) || (col <? 0) || (col >=? Map._width m))
    eqn:E; [eauto|].
  destruct (index2_ok m row col Hwf) as [cell ->]; [lia..|]. simpl_bind. eauto.
Qed.

Lemma is_valid_position_ok (m : Map.t) (p : Vector2D.t) (s : Z) (kind : string) :
  Map.well_formed m → ∃ b, Map.is_valid_position m p s kind = Ok b.
Proof.
  intros Hwf. unfold Map.is_valid_position.
  induction (Map.corners p (Map.half_size s kind)) as [|c cs IH]; simpl; [eauto|].
  destruct (is_wall_ok m c Hwf) as [[|] ->]; simpl; eauto.
Qed.

Lemma ghost_can_move_ok (g : Ghost.t) (d : Direction) (m : Map.t) :
  Map.well_formed m → ∃ b, Ghost.can_move g d m = Ok b.
Proof.
  intros Hwf. unfold Ghost.can_move, MovableObject.can_move.
  destruct (decide (d = NONE)); [eauto|]. by apply is_valid_position_ok.
Qed.

(** ** The greedy direction of a vulnerable ghost *)

Arguments Ghost.can_move : simpl never.

(** The distance [choose_direction] computes for a direction: from the
    position one step away to the target *)
Definition away (g : Ghost.t) (target : Vector2D.t) (d : Direction) : Surd.t :=
  Vector2D.distance_to (MovableObject.step g d) target.

(** Its radicand, the squared distance *)
Definition away2 (g : Ghost.t) (target : Vector2D.t) (d : Direction) : Q :=
  norm2 (Vector2D.sub (MovableObject.step g d) target).

Lemma away_sqrt (g : Ghost.t) (target : Vector2D.t) (d : Direction) :
  away g target d = Surd.sqrt (away2 g target d).
Proof. reflexivity. Qed.

Lemma Surd_leb_roots (a b : Q) :
  Surd.leb (Surd.sqrt a) (Surd.sqrt b) = true ↔ (a <= b)%Q.
Proof.
  unfold Surd.leb. pose proof (Surd_ltb_roots b a) as L.
  destruct (Surd.ltb (Surd.sqrt b) (Surd.sqrt a)); simpl.
  - split; [done|]. intros G. assert (b < a)%Q by (by apply L). qlra.
  - split; [|done]. intros _. destruct (Qlt_le_dec b a) as [G|G]; [|done].
    apply L in G. done.
Qed.

Lemma Surd_eqb_roots (a b : Q) :
  Surd.eqb (Surd.sqrt a) (Surd.sqrt b) = true ↔ (a == b)%Q.
Proof.
  unfold Surd.eqb. rewrite andb_true_iff.
  change (negb (Surd.ltb (Surd.sqrt a) (Surd.sqrt b))) with (Surd.leb (Surd.sqrt b) (Surd.sqrt a)).
  change (negb (Surd.ltb (Surd.sqrt b) (Surd.sqrt a))) with (Surd.leb (Surd.sqrt a) (Surd.sqrt b)).
  rewrite !Surd_leb_roots. split; [intros []|intros E]; [|split]; qlra.
Qed.

(** [max(l, key=...)] returns an element of the list whose key is the
    greatest, for keys that are square roots. *)
Lemma max_by_spec {A : Type} (key : A → Surd.t) (r : A → Q) (first : A) (rest : list A) :
  (∀ a, a ∈ first :: rest → key a = Surd.sqrt (r a)) →
  max_by key first rest ∈ first :: rest
  ∧ ∀ a, a ∈ first :: rest → (r a <= r (max_by key first rest))%Q.
Proof.
  revert first. induction rest as [|x rest IH]; intros first Hk.
  - simpl. split; [by left|]. intros a Ha. apply list_elem_of_singleton in Ha as ->. qlra.
  - unfold max_by. simpl.
    set (best := if Surd.gtb (key x) (key first) then x else first).
    assert (best ∈ [first; x] ∧ (r first <= r best)%Q ∧ (r x <= r best)%Q) as (Hb & Hf & Hx).
    { subst best. unfold Surd.gtb.
      rewrite (Hk x), (Hk first) by (rewrite !elem_of_cons; tauto).
      pose proof (Surd_ltb_roots (r first) (r x)) as L.
      destruct (Surd.ltb (Surd.sqrt (r first)) (Surd.sqrt (r x))).
      - assert (r first < r x)%Q by (by apply L).
        split; [rewrite !elem_of_cons; tauto|]. split; qlra.
      - split; [rewrite !elem_of_cons; tauto|]. split; [qlra|].
        destruct (Qlt_le_dec (r first) (r x)) as [G|G]; [|done].
        apply L in G. done. }
    destruct (IH best) as (Hin & Hmax).
    { intros a Ha. apply Hk. rewrite !elem_of_cons in *. rewrite elem_of_nil in Hb.
      destruct Ha as [->|Ha]; tauto. }
    fold (max_by key best rest). split.
    + rewrite !elem_of_cons in *. rewrite elem_of_nil in Hb.
      destruct Hin as [->|Hin]; tauto.
    + intros a Ha. rewrite !elem_of_cons in Ha. destruct Ha as [->|[->|Ha]].
      * eapply Qle_trans; [exact Hf|]. apply Hmax. by left.
      * eapply Qle_trans; [exact Hx|]. apply Hmax. by left.
      * apply Hmax. by right.
Qed.

(** What the collecting loop of [choose_direction] returns, when every
    query of the loop returns *)
Lemma possible_directions_spec (g : Ghost.t) (m : Map.t) (target : Vector2D.t)
    (ds : list Direction) :
  (∀ d, d ∈ ds → ∃ b, Ghost.can_move g d m = Ok b) →
  ∃ l, Ghost.possible_directions g m target ds = Ok l
       ∧ ∀ x, x ∈ l ↔ ∃ d, d ∈ ds ∧ Ghost.can_move g d m = Ok true ∧ x = (d, away g target d).
Proof.
  induction ds as [|d ds IHds]; intros Hok; simpl.
  - exists []. split; [done|]. intros x. rewrite elem_of_nil.
    split; [done|]. intros (d & Hd & _). by rewrite elem_of_nil in Hd.
  - destruct IHds as (l & IH & Hl).
    { intros d' Hd'. apply Hok. by right. }
    rewrite IH. destruct (Hok d) as [[|] Hd]; [by left| |]; rewrite Hd; simpl.
    + eexists. split; [done|]. intros x. rewrite elem_of_cons, Hl. split.
      * intros [->|(d' & Hd' & Hf & ->)].
        -- exists d. rewrite elem_of_cons. tauto.
        -- exists d'. rewrite elem_of_cons. tauto.
      * intros (d' & Hd' & Hf & ->). rewrite elem_of_cons in Hd'.
        destruct Hd' as [->|Hd']; [by left|]. right. eauto.
    + exists l. split; [done|]. intros x. rewrite Hl. split.
      * intros (d' & Hd' & Hf & ->). exists d'. rewrite elem_of_cons. tauto.
      * intros (d' & Hd' & Hf & ->). rewrite elem_of_cons in Hd'.
        destruct Hd' as [->|Hd']; [congruence|]. eauto.
Qed.

Lemma can_move_true_listed (g : Ghost.t) (d : Direction) (m : Map.t) :
  Ghost.can_move g d m = Ok true → d ∈ [UP; DOWN; LEFT; RIGHT].
Proof.
  intros H. destruct d; rewrite ?elem_of_cons; try tauto. done.
Qed.

(** C1, amended.  A vulnerable ghost with at least one free direction,
    each of the four queries of [can_move] returning: [choose_direction]
    returns a free direction whose distance from the next position to the
    target is the greatest among the free directions.  It is a direction
    of least distance only when all free directions are equally far from
    the target. *)
Theorem flee_direction (g : Ghost.t) (m : Map.t) (target : Vector2D.t) (d0 : Direction) :
  Ghost._state g = "vulnerable" →
  (∀ d, d ∈ [UP; DOWN; LEFT; RIGHT] → ∃ b, Ghost.can_move g d m = Ok b) →
  Ghost.can_move g d0 m = Ok true →
  ∃ d, Ghost.choose_direction g m target = Ok d
       ∧ Ghost.can_move g d m = Ok true
       ∧ (∀ d', Ghost.can_move g d' m = Ok true →
                Surd.leb (away g target d') (away g target d) = true)
       ∧ ((∀ d', Ghost.can_move g d' m = Ok true →
                 Surd.leb (away g target d) (away g target d') = true) →
          ∀ d', Ghost.can_move g d' m = Ok true →
                Surd.eqb (away g target d') (away g target d) = true).
Proof.
  intros Hs Hok H0. unfold Ghost.choose_direction.
  destruct (possible_directions_spec g m target [UP; DOWN; LEFT; RIGHT] Hok) as (l & -> & Hl).
  simpl_bind. rewrite Hs. change (String.eqb "vulnerable" "vulnerable") with true. cbv iota.
  destruct l as [|first rest].
  { exfalso. eapply elem_of_nil. apply Hl. exists d0.
    split; [by eapply can_move_true_listed|done]. }
  destruct (max_by_spec snd (fun x => away2 g target x.1) first rest) as (Hin & Hmax).
  { intros a Ha. apply Hl in Ha as (d & _ & _ & ->). reflexivity. }
  set (best := max_by snd first rest) in *.
  apply Hl in Hin as (d & Hd & Hfree & Hbest).
  exists d. rewrite Hbest. simpl. split; [done|]. split; [done|].
  assert (∀ d', Ghost.can_move g d' m = Ok true → (away2 g target d' <= away2 g target d)%Q)
    as Hfar.
  { intros d' Hd'.
    specialize (Hmax (d', away g target d')). rewrite Hbest in Hmax. simpl in Hmax.
    apply Hmax, Hl. exists d'. split; [by eapply can_move_true_listed|done]. }
  split.
  - intros d' Hd'. rewrite !away_sqrt, Surd_leb_roots. by apply Hfar.
  - intros Hnear d' Hd'. rewrite !away_sqrt, Surd_eqb_roots.
    specialize (Hnear d' Hd'). rewrite !away_sqrt, Surd_leb_roots in Hnear.
    specialize (Hfar d' Hd'). qlra.
Qed.

(** A vulnerable ghost (of speed 1, after [set_vulnerable]) in the middle
    of the first free cell of [street], where all four directions are
    free, threatened from (40, 24) on its right. *)
Definition fleeing : Ghost.t :=
  Ghost.set_vulnerable (Ghost.init 24 24 16 (3 # 2) (Vector2D.mk 24 24) "red") 8000.

(** All four directions are free for [fleeing]; the choice is LEFT, the
    direction of greatest distance (17 pixels), and not RIGHT, the
    direction of least distance (15 pixels). *)
Lemma flee_direction_witness :
  (∀ d, d ∈ [UP; DOWN; LEFT; RIGHT] → Ghost.can_move fleeing d street = Ok true)
  ∧ Ghost.choose_direction fleeing street (Vector2D.mk 40 24) = Ok LEFT
  ∧ Surd.ltb (away fleeing (Vector2D.mk 40 24) RIGHT)
             (away fleeing (Vector2D.mk 40 24) LEFT) = true
  ∧ ∃ d, Ghost.choose_direction fleeing street (Vector2D.mk 40 24) = Ok d
         ∧ Ghost.can_move fleeing d street = Ok true
         ∧ (∀ d', Ghost.can_move fleeing d' street = Ok true →
                  Surd.leb (away fleeing (Vector2D.mk 40 24) d')
                           (away fleeing (Vector2D.mk 40 24) d) = true)
         ∧ ((∀ d', Ghost.can_move fleeing d' street = Ok true →
                   Surd.leb (away fleeing (Vector2D.mk 40 24) d)
                            (away fleeing (Vector2D.mk 40 24) d') = true) →
            ∀ d', Ghost.can_move fleeing d' street = Ok true →
                  Surd.eqb (away fleeing (Vector2D.mk 40 24) d')
                           (away fleeing (Vector2D.mk 40 24) d) = true).
Proof.
  assert (Hfree : ∀ d, d ∈ [UP; DOWN; LEFT; RIGHT] →
                       Ghost.can_move fleeing d street = Ok true).
  { intros d Hd. rewrite !elem_of_cons, elem_of_nil in Hd.
    destruct Hd as [->|[->|[->|[->|[]]]]]; reflexivity. }
  split; [exact Hfree|]. split; [reflexivity|]. split; [reflexivity|].
  apply (flee_direction fleeing street (Vector2D.mk 40 24) LEFT).
  - reflexivity.
  - intros d Hd. exists true. by apply Hfree.
  - reflexivity.
Defined.

(** A vulnerable ghost of speed 2 in the middle of the first free cell
    of [corridor], whose cells are 12 pixels wide: LEFT, UP and DOWN are
    blocked. *)
Definition cornered : Ghost.t :=
  Ghost.set_vulnerable (Ghost.init 18 18 16 3 (Vector2D.mk 18 18) "red") 8000.

Lemma corridor_well_formed : Map.well_formed corridor.
Proof.
  split; [done|]. split; [done|]. simpl. by repeat constructor.
Qed.

(** A maze whose second row is one cell short, as the constructor takes
    it from manual layout data: the width, 3, is that of the first row. *)
Definition ledge : Map.t := Map.init [[0; 0; 0]; [0; 0]] None.

(** A vulnerable ghost in the third cell of the first row of [ledge], six
    pixels above the second row *)
Definition on_the_ledge : Ghost.t :=
  Ghost.set_vulnerable (Ghost.init 40 10 16 (3 # 2) (Vector2D.mk 40 10) "red") 8000.

(** C1, the claim as stated fails, in two ways.  [cornered] is vulnerable
    and has a free direction, the target (30, 18) lies to its right, and
    [choose_direction] returns RIGHT, the one free direction, which is the
    direction of least distance to the target among the free ones.  And
    [on_the_ledge] is vulnerable and free to go UP, but the query for DOWN
    reads the cell that the short row of [ledge] lacks, so that
    [choose_direction] raises [IndexError] and returns no direction. *)
Lemma flee_direction_can_minimize :
  (Ghost._state cornered = "vulnerable"
   ∧ Ghost.choose_direction cornered corridor (Vector2D.mk 30 18) = Ok RIGHT
   ∧ Ghost.can_move cornered RIGHT corridor = Ok true
   ∧ ∀ d', Ghost.can_move cornered d' corridor = Ok true →
           Surd.leb (away cornered (Vector2D.mk 30 18) RIGHT)
                    (away cornered (Vector2D.mk 30 18) d') = true)
  ∧ (Ghost._state on_the_ledge = "vulnerable"
     ∧ Ghost.can_move on_the_ledge UP ledge = Ok true
     ∧ Ghost.can_move on_the_ledge DOWN ledge = Raise IndexError
     ∧ Ghost.choose_direction on_the_ledge ledge (Vector2D.mk 40 40) = Raise IndexError).
Proof.
  split.
  - split; [reflexivity|]. split; [reflexivity|]. split; [reflexivity|].
    intros d' Hd'. destruct d'; try (vm_compute in Hd'; discriminate). reflexivity.
  - split; [reflexivity|]. split; [reflexivity|]. split; reflexivity.
Qed.

(** ** A* search: a priority queue to run it with *)

Lemma sorted_insert_perm (n : AStarNode) (l : list AStarNode) :
  sorted_insert n l ≡ₚ n :: l.
Proof.
  induction l as [|a l IH]; simpl; [done|].
  destruct (node_lt n a); [done|]. rewrite IH. apply Permutation_swap.
Qed.

Lemma sorted_pop_None (l : list AStarNode) : sorted_pop l = None ↔ l = [].
Proof. by destruct l. Qed.

Lemma sorted_pop_Some (l : list AStarNode) (n : AStarNode) (l' : list AStarNode) :
  sorted_pop l = Some (n, l') → l ≡ₚ n :: l'.
Proof. destruct l as [|a l]; simpl; intros E; [done|]. by injection E as -> ->. Qed.

#[global] Instance sorted_heap : HeapQ (list AStarNode) := {|
  heap_new := [];
  heappush := fun h n => sorted_insert n h;
  heappop := sorted_pop;
  heap_items := fun h => h;
  heap_new_items := eq_refl;
  heappush_items := fun h n => sorted_insert_perm n h;
  heappop_None := sorted_pop_None;
  heappop_Some := sorted_pop_Some
|}.

(** ** A* search: the shape of a returned path *)

(** Two waypoints one step of 16 pixels apart along one axis *)
Definition one_step (a b : Vector2D.t) : Prop :=
  (Vector2D.x b == Vector2D.x a
   ∧ (Vector2D.y b == Vector2D.y a - 16 ∨ Vector2D.y b == Vector2D.y a + 16))%Q
  ∨ (Vector2D.y b == Vector2D.y a
     ∧ (Vector2D.x b == Vector2D.x a - 16 ∨ Vector2D.x b == Vector2D.x a + 16))%Q.

Lemma get_neighbors_one_step (a b : Vector2D.t) :
  b ∈ AStar.get_neighbors a 16 → one_step a b.
Proof.
  unfold AStar.get_neighbors. simpl. rewrite !elem_of_cons, elem_of_nil.
  unfold one_step. intros [->|[->|[->|[->|[]]]]]; simpl; unfold inject_Z;
    change (- (16))%Z with (-16)%Z.
  - left. split; [|left]; qlra.
  - left. split; [|right]; qlra.
  - right. split; [|left]; qlra.
  - right. split; [|right]; qlra.
Qed.

(** A node whose parent links lead back to the start node, each link a
    step to a neighbour *)
Inductive linked (start : Vector2D.t) : AStarNode → Prop :=
  | linked_start g h : linked start (mkNode start g h None)
  | linked_step p pos g h :
      linked start p →
      pos ∈ AStar.get_neighbors (position p) 16 →
      linked start (mkNode pos g h (Some p)).

Lemma copy_id (v : Vector2D.t) : Vector2D.copy v = v.
Proof. by destruct v. Qed.

(** A list of waypoints that starts at [first], ends at [final] and
    advances by one step from each waypoint to the next *)
Inductive walk (first : Vector2D.t) : Vector2D.t → list Vector2D.t → Prop :=
  | walk_one : walk first first [first]
  | walk_snoc a b l : walk first a l → one_step a b → walk first b (l ++ [b]).

Lemma linked_walk (start : Vector2D.t) (n : AStarNode) :
  linked start n → walk start (position n) (AStar.reconstruct_path n).
Proof.
  unfold AStar.reconstruct_path. induction 1 as [g h|p pos g h Hp IH Hpos]; simpl.
  - rewrite copy_id. constructor.
  - rewrite copy_id. econstructor; [exact IH|]. by apply get_neighbors_one_step.
Qed.

Lemma walk_head (first final : Vector2D.t) (l : list Vector2D.t) :
  walk first final l → head l = Some first.
Proof.
  induction 1 as [|a b l Hw IH Hs]; [done|].
  destruct l; [done|]. simpl in *. done.
Qed.

Lemma walk_last (first final : Vector2D.t) (l : list Vector2D.t) :
  walk first final l → last l = Some final.
Proof. induction 1; [done|]. apply last_snoc. Qed.

Lemma walk_steps (first final : Vector2D.t) (l : list Vector2D.t) :
  walk first final l →
  ∀ i a b, l !! i = Some a → l !! S i = Some b → one_step a b.
Proof.
  induction 1 as [|a0 b0 l Hw IH Hs]; intros i a b Ha Hb.
  - by destruct i.
  - pose proof (walk_last _ _ _ Hw) as Hlast.
    destruct (decide (S i < length l)%nat) as [Hlt|Hge].
    + rewrite lookup_app_l in Ha by lia. rewrite lookup_app_l in Hb by lia. eauto.
    + assert (S i = length l) as Hi.
      { apply lookup_lt_Some in Hb. rewrite length_app in Hb. simpl in Hb. lia. }
      rewrite lookup_app_l in Ha by lia.
      rewrite lookup_app_r in Hb by lia. rewrite Hi, Nat.sub_diag in Hb.
      injection Hb as <-.
      rewrite last_lookup in Hlast. rewrite <- Hi in Hlast. simpl in Hlast.
      congruence.
Qed.

Arguments AStar.visit_all : simpl never.
Arguments AStar.get_neighbors : simpl never.
Arguments AStar.at_goal : simpl never.

Section Shape.

Context {H : Type} `{HeapQ H}.

Variable game_map : Map.t.
Variable start goal : Vector2D.t.
Variable heuristic_type : string.

Abbreviation visit := (AStar.visit game_map goal heuristic_type).
Abbreviation visit_all := (AStar.visit_all game_map goal heuristic_type).
Abbreviation search := (AStar.search game_map goal heuristic_type).

Lemma visit_linked (current : AStarNode) (closed : list AStar.key)
    (st st' : H * list (AStar.key * Z)) (np : Vector2D.t) :
  linked start current →
  np ∈ AStar.get_neighbors (position current) 16 →
  Forall (linked start) (heap_items st.1) →
  visit current closed st np = Ok st' →
  Forall (linked start) (heap_items st'.1).
Proof.
  intros Hc Hnp Hst. unfold AStar.visit.
  destruct (AStar.key_in _ _); [by intros [= <-]|].
  destruct (Map.is_valid_position _ _ _ _) as [[|]|]; simpl_bind; simpl;
    [|by intros [= <-]|done].
  destruct (match AStar.dict_get st.2 (AStar.key_of np) with
            | Some best => _ | None => _ end); [|by intros [= <-]].
  intros [= <-]. simpl. rewrite heappush_items. constructor; [|done].
  by constructor.
Qed.

Lemma visit_all_linked (current : AStarNode) (closed : list AStar.key)
    (nps : list Vector2D.t) (st st' : H * list (AStar.key * Z)) :
  linked start current →
  (∀ np, np ∈ nps → np ∈ AStar.get_neighbors (position current) 16) →
  Forall (linked start) (heap_items st.1) →
  visit_all current closed st nps = Ok st' →
  Forall (linked start) (heap_items st'.1).
Proof.
  intros Hc. revert st. induction nps as [|np nps IH]; intros st Hnps Hst;
    unfold AStar.visit_all; fold (AStar.visit_all game_map goal heuristic_type).
  - by intros [= <-].
  - destruct (visit current closed st np) as [st1|] eqn:E1; simpl_bind; [|done].
    apply IH.
    + intros np' Hnp'. apply Hnps. by right.
    + eapply visit_linked; try done. apply Hnps. by left.
Qed.

(** A returned path is empty or the reconstruction of a node that is
    linked to the start and lies within the goal tolerance. *)
Lemma search_returns (fuel : nat) (open : H) (closed : list AStar.key)
    (best : list (AStar.key * Z)) (path : list Vector2D.t) :
  Forall (linked start) (heap_items open) →
  search fuel open closed best = AStar.Returned path →
  path = []
  ∨ ∃ n, linked start n ∧ AStar.at_goal goal n = true ∧ path = AStar.reconstruct_path n.
Proof.
  revert open closed best. induction fuel as [|fuel IH]; intros open closed best Hopen; simpl.
  - done.
  - destruct (heappop open) as [[current open']|] eqn:Epop; [|intros [= <-]; by left].
    apply heappop_Some in Epop. rewrite Epop in Hopen.
    apply Forall_cons in Hopen as [Hc Hopen'].
    destruct (AStar.at_goal goal current) eqn:Eg.
    + intros [= <-]. right. eauto.
    + match goal with
      | |- context [AStar.visit_all ?m ?g ?h ?c ?cl ?st ?ns] =>
          destruct (AStar.visit_all m g h c cl st ns) as [st'|] eqn:Ev; [|done]
      end.
      apply IH.
      eapply (visit_all_linked current _ _ (open', best));
        [exact Hc|intros np Hnp; exact Hnp|exact Hopen'|exact Ev].
Qed.

(** C4, what the code does.  A non-empty path returned by [find_path]
    starts at the start position, advances by exactly 16 pixels along
    one axis from each waypoint to the next, and ends within 8 pixels of
    the goal.  The 16 is the default [cell_size] of [get_neighbors] and
    the literal added to [g_cost] as the cost of one cell; the cell size
    of the maze is not consulted. *)
Theorem find_path_shape (fuel : nat) (path : list Vector2D.t) :
  AStar.find_path fuel start goal game_map heuristic_type = AStar.Returned path →
  path ≠ [] →
  head path = Some start
  ∧ (∀ i a b, path !! i = Some a → path !! S i = Some b → one_step a b)
  ∧ ∃ final, last path = Some final
             ∧ Surd.ltb (Vector2D.distance_to final goal) (Surd.of_Q 8) = true
             ∧ (norm2 (Vector2D.sub final goal) < 64)%Q.
Proof.
  unfold AStar.find_path. intros Hret Hne.
  apply search_returns in Hret as [->|(n & Hn & Hg & ->)]; [done| |].
  - apply linked_walk in Hn. split; [by eapply walk_head|].
    split; [by eapply walk_steps|].
    exists (position n). split; [by eapply walk_last|]. split; [exact Hg|].
    unfold AStar.at_goal, Vector2D.distance_to, Vector2D.magnitude in Hg.
    apply Surd_ltb_root_Q in Hg; [|qlra]. unfold norm2. qlra.
  - rewrite heappush_items, heap_new_items. repeat constructor.
Qed.

End Shape.

(** A maze of the same shape as [street] with cells of 32 pixels *)
Definition wide : Map.t :=
  Map.init [[1; 1; 1; 1]; [1; 0; 0; 1]; [1; 1; 1; 1]] (Some 32).

(** C4, at the failing input: in the maze [wide], whose cell size is
    32, the path found from (48, 48) to (80, 48) has consecutive
    waypoints 16 pixels apart, half a cell and not the one cell that the
    claim, the comment on the step cost and the documentation of
    [get_neighbors] speak of. *)
Lemma find_path_steps_not_cell_size :
  AStar.find_path (H := list AStarNode) 20 (Vector2D.mk 48 48) (Vector2D.mk 80 48)
                  wide "manhattan"
  = AStar.Returned [Vector2D.mk 48 48; Vector2D.mk 64 48; Vector2D.mk 80 48]
  ∧ Map._cell_size wide = 32
  ∧ Qeq_bool (64 - 48) (inject_Z (Map._cell_size wide)) = false.
Proof. split; [|split]; vm_compute; reflexivity. Qed.

Lemma find_path_shape_witness :
  let path := [Vector2D.mk 24 24; Vector2D.mk 40 24] in
  head path = Some (Vector2D.mk 24 24)
  ∧ (∀ i a b, path !! i = Some a → path !! S i = Some b → one_step a b)
  ∧ ∃ final, last path = Some final
             ∧ Surd.ltb (Vector2D.distance_to final (Vector2D.mk 40 24)) (Surd.of_Q 8) = true
             ∧ (norm2 (Vector2D.sub final (Vector2D.mk 40 24)) < 64)%Q.
Proof.
  apply (find_path_shape (H := list AStarNode) street (Vector2D.mk 24 24)
           (Vector2D.mk 40 24) "manhattan" 20).
  - vm_compute. reflexivity.
  - done.
Defined.

(** ** A* search: the search ends *)

(** More fuel does not change a returned path or the expanded nodes. *)
Section Fuel.

Context {H : Type} `{HeapQ H}.

Variable game_map : Map.t.
Variable goal : Vector2D.t.
Variable heuristic_type : string.

Lemma search_more_fuel (fuel : nat) (open : H) (closed : list AStar.key)
    (best : list (AStar.key * Z)) (path : list Vector2D.t) (k : nat) :
  AStar.search game_map goal heuristic_type fuel open closed best = AStar.Returned path →
  AStar.search game_map goal heuristic_type (fuel + k) open closed best = AStar.Returned path
  ∧ AStar.expanded game_map goal heuristic_type (fuel + k) open closed best
    = AStar.expanded game_map goal heuristic_type fuel open closed best.
Proof.
  revert open closed best. induction fuel as [|fuel IH]; intros open closed best; simpl.
  - done.
  - destruct (heappop open) as [[current open']|]; [|done].
    destruct (AStar.at_goal goal current); [done|].
    match goal with
    | |- context [AStar.visit_all ?m ?g ?h ?c ?cl ?st ?ns] =>
        destruct (AStar.visit_all m g h c cl st ns) as [st'|]; [|done]
    end.
    intros Hret. destruct (IH _ _ _ Hret) as [-> ->]. done.
Qed.

Lemma reconstruct_path_nonempty (n : AStarNode) : AStar.reconstruct_path n ≠ [].
Proof.
  unfold AStar.reconstruct_path. destruct n as [pos g h par]. simpl.
  intros E. apply (f_equal length) in E. rewrite length_app in E. simpl in E. lia.
Qed.

(** The returned path is empty exactly when no expanded node was within
    the goal tolerance. *)
Lemma search_empty_iff (fuel : nat) (open : H) (closed : list AStar.key)
    (best : list (AStar.key * Z)) (path : list Vector2D.t) :
  AStar.search game_map goal heuristic_type fuel open closed best = AStar.Returned path →
  path = []
  ↔ Forall (fun n => AStar.at_goal goal n = false)
           (AStar.expanded game_map goal heuristic_type fuel open closed best).
Proof.
  revert open closed best. induction fuel as [|fuel IH]; intros open closed best; simpl.
  - done.
  - destruct (heappop open) as [[current open']|]; [|by intros [= <-]].
    destruct (AStar.at_goal goal current) eqn:Eg.
    + intros [= <-]. split.
      * intros E. by apply reconstruct_path_nonempty in E.
      * intros F. apply Forall_cons in F as [F _]. congruence.
    + match goal with
      | |- context [AStar.visit_all ?m ?g ?h ?c ?cl ?st ?ns] =>
          destruct (AStar.visit_all m g h c cl st ns) as [st'|]; [|done]
      end.
      intros Hret. rewrite Forall_cons. specialize (IH _ _ _ Hret). tauto.
Qed.

End Fuel.

(** Keys are compared as numbers; the dictionary respects that. *)
Lemma key_eqb_iff (k k' : AStar.key) :
  AStar.key_eqb k k' = true ↔ (k.1 == k'.1 ∧ k.2 == k'.2)%Q.
Proof. unfold AStar.key_eqb. by rewrite andb_true_iff, !Qeq_bool_iff. Qed.

Lemma key_eqb_sym (k k' : AStar.key) : AStar.key_eqb k k' = AStar.key_eqb k' k.
Proof. unfold AStar.key_eqb. by rewrite (Qeq_bool_comm k.1), (Qeq_bool_comm k.2). Qed.

Lemma key_eqb_trans (k1 k2 k3 : AStar.key) :
  AStar.key_eqb k1 k2 = true → AStar.key_eqb k2 k3 = true → AStar.key_eqb k1 k3 = true.
Proof.
  rewrite !key_eqb_iff. intros [E1 E2] [E3 E4]. split.
  - by rewrite E1. 
  - by rewrite E2.
Qed.

Lemma dict_get_proper (d : list (AStar.key * Z)) (k k' : AStar.key) :
  AStar.key_eqb k k' = true → AStar.dict_get d k = AStar.dict_get d k'.
Proof.
  intros E. induction d as [|[k0 v] d IH]; simpl; [done|].
  assert (AStar.key_eqb k k0 = AStar.key_eqb k' k0) as ->; [|by rewrite IH].
  destruct (AStar.key_eqb k' k0) eqn:E0.
  - by eapply key_eqb_trans.
  - destruct (AStar.key_eqb k k0) eqn:E1; [|done].
    rewrite <- E0. symmetry. eapply key_eqb_trans; [|exact E1].
    by rewrite key_eqb_sym.
Qed.

(** Sums over a list, compared term by term *)
Lemma sum_list_with_le {A : Type} (f g : A → nat) (l : list A) :
  (∀ c, c ∈ l → (f c ≤ g c)%nat) → (sum_list_with f l ≤ sum_list_with g l)%nat.
Proof.
  induction l as [|a l IH]; simpl; intros Hfg; [done|].
  pose proof (Hfg a ltac:(by left)). 
  assert (sum_list_with f l ≤ sum_list_with g l)%nat; [|lia].
  apply IH. intros c Hc. apply Hfg. by right.
Qed.

Lemma sum_list_with_lt {A : Type} (f g : A → nat) (l : list A) (c0 : A) :
  (∀ c, c ∈ l → (f c ≤ g c)%nat) → c0 ∈ l → (f c0 < g c0)%nat →
  (sum_list_with f l < sum_list_with g l)%nat.
Proof.
  induction l as [|a l IH]; simpl; intros Hfg Hc0 Hlt.
  - by apply elem_of_nil in Hc0.
  - pose proof (Hfg a ltac:(by left)).
    assert (∀ c, c ∈ l → (f c ≤ g c)%nat) as Hl by (intros c Hc; apply Hfg; by right).
    pose proof (sum_list_with_le f g l Hl).
    apply elem_of_cons in Hc0 as [->|Hc0]; [lia|].
    specialize (IH Hl Hc0 Hlt). lia.
Qed.

Lemma sum_list_with_eq {A : Type} (f g : A → nat) (l : list A) :
  (∀ c, c ∈ l → f c = g c) → sum_list_with f l = sum_list_with g l.
Proof.
  intros Hfg. apply Nat.le_antisymm; apply sum_list_with_le; intros c Hc;
    rewrite (Hfg c Hc); done.
Qed.

(** A free corner lies on the grid of the maze. *)
Lemma floor_nonneg (a : Q) (cs : Z) :
  0 < cs → 0 ≤ Qfloor (a / inject_Z cs) → (0 <= a)%Q.
Proof.
  intros Hcs Hf. 
  assert (0 < inject_Z cs)%Q as Hq by (rewrite <- (Qfloor_Z 0) in Hcs; by rewrite Zlt_Qlt in Hcs).
  pose proof (Qfloor_le (a / inject_Z cs)) as Hle.
  assert (0 <= inject_Z (Qfloor (a / inject_Z cs)))%Q as H0 by (by rewrite Zle_Qle in Hf).
  assert (0 <= a / inject_Z cs)%Q as Hd by qlra.
  assert (a == (a / inject_Z cs) * inject_Z cs)%Q as -> by (field; qlra).
  apply Qmult_le_0_compat; qlra.
Qed.

Lemma floor_below (a : Q) (cs w : Z) :
  0 < cs → Qfloor (a / inject_Z cs) < w → (a < inject_Z (w * cs))%Q.
Proof.
  intros Hcs Hf.
  assert (0 < inject_Z cs)%Q as Hq by (rewrite <- (Qfloor_Z 0) in Hcs; by rewrite Zlt_Qlt in Hcs).
  pose proof (Qlt_floor (a / inject_Z cs)) as Hlt.
  assert (inject_Z (Qfloor (a / inject_Z cs) + 1) <= inject_Z w)%Q as Hw.
  { rewrite <- Zle_Qle. lia. }
  assert (a / inject_Z cs < inject_Z w)%Q as Hd by qlra.
  rewrite inject_Z_mult.
  assert (a == (a / inject_Z cs) * inject_Z cs)%Q as -> by (field; qlra).
  apply Qmult_lt_compat_r; done.
Qed.

Lemma is_wall_false_inside (m : Map.t) (p : Vector2D.t) :
  Map.well_formed m → Map.is_wall m p = Ok false →
  (0 <= Vector2D.x p ∧ Vector2D.x p < inject_Z (Map._width m * Map._cell_size m)
   ∧ 0 <= Vector2D.y p ∧ Vector2D.y p < inject_Z (Map._height m * Map._cell_size m))%Q.
Proof.
  intros (Hc & _) Hw. unfold Map.is_wall in Hw.
  rewrite !floordiv_ok in Hw by lia. simpl_bind in Hw.
  set (col := Qfloor (Vector2D.x p / inject_Z (Map._cell_size m))) in *.
  set (row := Qfloor (Vector2D.y p / inject_Z (Map._cell_size m))) in *.
  destruct ((row <? 0) || (row >=? Map._height m) || (col <? 0) || (col >=? Map._width m))
    eqn:E; [done|].
  rewrite !orb_false_iff in E. destruct E as (((E1 & E2) & E3) & E4).
  assert (0 ≤ row < Map._height m ∧ 0 ≤ col < Map._width m) as ([] & []) by lia.
  repeat split; first [by eapply floor_nonneg | by apply floor_below].
Qed.

Lemma half_size_ghost_16 : Map.half_size 16 "ghost" = 5%Q.
Proof. reflexivity. Qed.

(** A position that is valid for a ghost keeps 5 pixels from the border
    of the maze. *)
Lemma valid_ghost_inside (m : Map.t) (p : Vector2D.t) :
  Map.well_formed m →
  Map.is_valid_position m p 16 "ghost" = Ok true →
  (5 <= Vector2D.x p ∧ Vector2D.x p + 5 < inject_Z (Map._width m * Map._cell_size m)
   ∧ 5 <= Vector2D.y p ∧ Vector2D.y p + 5 < inject_Z (Map._height m * Map._cell_size m))%Q.
Proof.
  intros Hwf Hv. unfold Map.is_valid_position in Hv.
  rewrite half_size_ghost_16 in Hv. apply no_wall_at_true in Hv.
  unfold Map.corners in Hv. rewrite !Forall_cons in Hv.
  destruct Hv as (H1 & _ & _ & H4 & _).
  apply is_wall_false_inside in H1, H4; try done. simpl in H1, H4. qlra.
Qed.

(** The grid indices [i] with [5 <= origin + 16 i] and
    [origin + 16 i + 5 < extent] *)
Definition span (origin extent : Q) : list Z :=
  let lo := Qfloor ((5 - origin) / 16) in
  let hi := Qfloor ((extent - origin) / 16) in
  seqZ lo (hi - lo + 1).

Lemma in_span (origin extent : Q) (i : Z) :
  (5 <= origin + 16 * inject_Z i)%Q → (origin + 16 * inject_Z i + 5 < extent)%Q →
  i ∈ span origin extent.
Proof.
  intros Hlo Hhi. unfold span. apply elem_of_seqZ.
  assert (Qfloor ((5 - origin) / 16) ≤ i).
  { rewrite <- (Qfloor_Z i). apply Qfloor_resp_le.
    apply Qle_shift_div_r; qlra. }
  assert (i ≤ Qfloor ((extent - origin) / 16)).
  { rewrite <- (Qfloor_Z i) at 1. apply Qfloor_resp_le.
    apply Qle_shift_div_l; qlra. }
  lia.
Qed.

Section Termination.

Context {H : Type} `{HeapQ H}.

Variable game_map : Map.t.
Variable start goal : Vector2D.t.
Variable heuristic_type : string.

Hypothesis game_map_well_formed : Map.well_formed game_map.

(** The positions the search can reach: the start moved by multiples of
    16 pixels along the axes *)
Definition on_grid (p : Vector2D.t) : Prop :=
  ∃ i j : Z, (Vector2D.x p == Vector2D.x start + 16 * inject_Z i
              ∧ Vector2D.y p == Vector2D.y start + 16 * inject_Z j)%Q.

Definition cell_key (i j : Z) : AStar.key :=
  (Vector2D.x start + 16 * inject_Z i, Vector2D.y start + 16 * inject_Z j)%Q.

(** The keys of all reachable positions that can be valid for a ghost *)
Definition cells : list AStar.key :=
  i ← span (Vector2D.x start) (inject_Z (Map._width game_map * Map._cell_size game_map));
  j ← span (Vector2D.y start) (inject_Z (Map._height game_map * Map._cell_size game_map));
  [cell_key i j].

Lemma valid_in_cells (p : Vector2D.t) :
  on_grid p →
  Map.is_valid_position game_map p 16 "ghost" = Ok true →
  ∃ c, c ∈ cells ∧ AStar.key_eqb c (AStar.key_of p) = true.
Proof.
  intros (i & j & Hi & Hj) Hv.
  apply valid_ghost_inside in Hv as (Hx1 & Hx2 & Hy1 & Hy2); [|done].
  exists (cell_key i j). split.
  - unfold cells. apply list_elem_of_bind. exists i. split.
    + apply list_elem_of_bind. exists j. split; [by left|].
      apply in_span; qlra.
    + apply in_span; qlra.
  - apply key_eqb_iff. simpl. by rewrite Hi, Hj.
Qed.

Lemma on_grid_start : on_grid start.
Proof. exists 0, 0. change (inject_Z 0) with 0%Q. split; qlra. Qed.

Lemma inject_Z_pred (j : Z) : (inject_Z (j - 1) == inject_Z j - 1)%Q.
Proof. unfold Z.sub. rewrite inject_Z_plus. reflexivity. Qed.

Lemma inject_Z_succ (j : Z) : (inject_Z (j + 1) == inject_Z j + 1)%Q.
Proof. rewrite inject_Z_plus. reflexivity. Qed.

Lemma on_grid_neighbor (p np : Vector2D.t) :
  on_grid p → np ∈ AStar.get_neighbors p 16 → on_grid np.
Proof.
  intros (i & j & Hi & Hj) Hnp. apply get_neighbors_one_step in Hnp.
  destruct Hnp as [[Ex [Ey|Ey]]|[Ey [Ex|Ex]]].
  - exists i, (j - 1). rewrite inject_Z_pred, Ex, Ey, Hi, Hj. split; qlra.
  - exists i, (j + 1). rewrite inject_Z_succ, Ex, Ey, Hi, Hj. split; qlra.
  - exists (i - 1), j. rewrite inject_Z_pred, Ex, Ey, Hi, Hj. split; qlra.
  - exists (i + 1), j. rewrite inject_Z_succ, Ex, Ey, Hi, Hj. split; qlra.
Qed.

(** What the search keeps true of the nodes in the heap *)
Definition sound (n : AStarNode) : Prop := on_grid (position n) ∧ 0 ≤ g_cost n.

(** The measure: the cells with no entry in [best_costs], then the sum of
    the entries of the cells plus the size of the heap. *)
Definition unseen (best : list (AStar.key * Z)) : nat :=
  sum_list_with (fun c => match AStar.dict_get best c with None => 1 | Some _ => 0 end)%nat
                cells.

Definition weight (st : H * list (AStar.key * Z)) : nat :=
  (sum_list_with (fun c => Z.to_nat (default 0%Z (AStar.dict_get st.2 c))) cells
   + length (heap_items st.1))%nat.

Definition smaller (st' st : H * list (AStar.key * Z)) : Prop :=
  (unseen st'.2 < unseen st.2)%nat
  ∨ (unseen st'.2 = unseen st.2 ∧ weight st' ≤ weight st)%nat.

Lemma smaller_refl (st : H * list (AStar.key * Z)) : smaller st st.
Proof. right. done. Qed.

Lemma smaller_trans (st1 st2 st3 : H * list (AStar.key * Z)) :
  smaller st1 st2 → smaller st2 st3 → smaller st1 st3.
Proof. unfold smaller. lia. Qed.

Lemma visit_smaller (current : AStarNode) (closed : list AStar.key)
    (st : H * list (AStar.key * Z)) (np : Vector2D.t) :
  sound current →
  np ∈ AStar.get_neighbors (position current) 16 →
  Forall sound (heap_items st.1) →
  ∃ st', AStar.visit game_map goal heuristic_type current closed st np = Ok st'
         ∧ Forall sound (heap_items st'.1)
         ∧ smaller st' st.
Proof.
  intros [Hcg Hcc] Hnp Hst. unfold AStar.visit.
  destruct (AStar.key_in _ _); [exists st; eauto using smaller_refl|].
  destruct (is_valid_position_ok game_map np 16 "ghost" game_map_well_formed) as [valid Hv].
  rewrite Hv. simpl_bind.
  destruct valid; simpl; [|exists st; eauto using smaller_refl].
  assert (on_grid np) as Hgrid by (by eapply on_grid_neighbor).
  destruct (valid_in_cells np Hgrid Hv) as (c0 & Hc0 & Ec0).
  set (k := AStar.key_of np) in *.
  set (g := g_cost current + 16).
  assert (∀ c, AStar.dict_get (AStar.dict_set st.2 k g) c
               = if AStar.key_eqb c k then Some g else AStar.dict_get st.2 c) as Hset by done.
  assert (∀ c, AStar.key_eqb c k = true → AStar.dict_get st.2 c = AStar.dict_get st.2 k) as Hsame.
  { intros c Hc. by apply dict_get_proper. }
  destruct (AStar.dict_get st.2 k) as [old|] eqn:Eold.
  - destruct (Z.ltb_spec g old) as [Hlt|Hge]; [|exists st; eauto using smaller_refl].
    eexists. split; [reflexivity|]. cbn [fst snd]. split.
    + rewrite heappush_items. constructor; [|done]. split; simpl; [done|lia].
    + right. split.
      * unfold unseen. apply sum_list_with_eq. intros c Hc. rewrite Hset.
        destruct (AStar.key_eqb c k) eqn:Ec; [|done]. by rewrite (Hsame c Ec).
      * unfold weight. cbn [fst snd]. rewrite heappush_items. cbn [length].
        assert (sum_list_with
                  (fun c => Z.to_nat (default 0%Z (AStar.dict_get (AStar.dict_set st.2 k g) c)))
                  cells
                < sum_list_with (fun c => Z.to_nat (default 0%Z (AStar.dict_get st.2 c))) cells)%nat;
          [|lia].
        apply (sum_list_with_lt _ _ _ c0); [|done|].
        -- intros c Hc. rewrite Hset. destruct (AStar.key_eqb c k) eqn:Ec; [|done].
           rewrite (Hsame c Ec). simpl. subst g. lia.
        -- rewrite Hset, Ec0, (Hsame c0 Ec0). simpl. subst g. lia.
  - eexists. split; [reflexivity|]. cbn [fst snd]. split.
    + rewrite heappush_items. constructor; [|done]. split; simpl; [done|lia].
    + left. unfold unseen. apply (sum_list_with_lt _ _ _ c0); [|done|].
      * intros c Hc. rewrite Hset. destruct (AStar.key_eqb c k) eqn:Ec; [|done].
        rewrite (Hsame c Ec). lia.
      * rewrite Hset, Ec0, (Hsame c0 Ec0). lia.
Qed.

Lemma visit_all_smaller (current : AStarNode) (closed : list AStar.key)
    (nps : list Vector2D.t) (st : H * list (AStar.key * Z)) :
  sound current →
  (∀ np, np ∈ nps → np ∈ AStar.get_neighbors (position current) 16) →
  Forall sound (heap_items st.1) →
  ∃ st', AStar.visit_all game_map goal heuristic_type current closed st nps = Ok st'
         ∧ Forall sound (heap_items st'.1)
         ∧ smaller st' st.
Proof.
  intros Hc. revert st. induction nps as [|np nps IH]; intros st Hnps Hst;
    unfold AStar.visit_all; fold (AStar.visit_all game_map goal heuristic_type).
  - exists st. eauto using smaller_refl.
  - destruct (visit_smaller current closed st np) as (st1 & -> & Hs1 & Hm1); try done.
    { apply Hnps. by left. }
    simpl_bind.
    destruct (IH st1) as (st2 & -> & Hs2 & Hm2); try done.
    { intros np' Hnp'. apply Hnps. by right. }
    exists st2. eauto using smaller_trans.
Qed.

(** The loop ends: from any heap of sound nodes some fuel is enough for
    [search] to return. *)
Lemma search_terminates :
  ∀ (a b : nat) (open : H) (closed : list AStar.key) (best : list (AStar.key * Z)),
    Forall sound (heap_items open) →
    unseen best = a → weight (open, best) = b →
    ∃ fuel path,
      AStar.search game_map goal heuristic_type fuel open closed best = AStar.Returned path.
Proof.
  intros a. induction a as [a IHa] using lt_wf_ind.
  intros b. induction b as [b IHb] using lt_wf_ind.
  intros open closed best Hopen Ha Hb.
  destruct (heappop open) as [[current open']|] eqn:Epop.
  2:{ exists 1%nat, []. simpl. by rewrite Epop. }
  pose proof (heappop_Some _ _ _ Epop) as Hperm.
  rewrite Hperm in Hopen. apply Forall_cons in Hopen as [Hc Hopen'].
  destruct (AStar.at_goal goal current) eqn:Eg.
  { exists 1%nat, (AStar.reconstruct_path current). simpl. by rewrite Epop, Eg. }
  destruct (visit_all_smaller current (AStar.key_of (position current) :: closed)
              (AStar.get_neighbors (position current) 16) (open', best))
    as (st' & Ev & Hs' & Hm'); try done.
  assert (weight (open', best) < b)%nat as Hw.
  { subst b. unfold weight. simpl. rewrite Hperm. simpl. lia. }
  assert (∃ fuel path,
            AStar.search game_map goal heuristic_type fuel st'.1
              (AStar.key_of (position current) :: closed) st'.2 = AStar.Returned path)
    as (fuel & path & Hret).
  { destruct Hm' as [Hm'|[Hm1 Hm2]]; simpl in *.
    - eapply (IHa (unseen st'.2)); [lia|exact Hs'|done|done].
    - eapply (IHb (weight st')); [lia|exact Hs'|lia|].
      by destruct st'. }
  exists (S fuel), path. simpl. by rewrite Epop, Eg, Ev.
Qed.

(** On a well-formed maze [find_path] returns: some amount of fuel is
    enough, and with that much or more the search neither raises nor
    runs on. *)
Lemma find_path_terminates :
  ∃ fuel, ∀ fuel', (fuel ≤ fuel')%nat →
    ∃ path, AStar.find_path fuel' start goal game_map heuristic_type = AStar.Returned path.
Proof.
  unfold AStar.find_path.
  assert (∃ fuel path,
            AStar.search game_map goal heuristic_type fuel
              (heappush heap_new (AStar.start_node start goal heuristic_type))
              [] [(AStar.key_of start, 0)] = AStar.Returned path)
    as (fuel & path & Hret).
  { eapply search_terminates; [|reflexivity|reflexivity].
    rewrite heappush_items, heap_new_items. constructor; [|done].
    split; [apply on_grid_start|done]. }
  exists fuel. intros fuel' Hle. exists path.
  replace fuel' with (fuel + (fuel' - fuel))%nat by lia.
  by apply search_more_fuel.
Qed.

End Termination.

(** C3.  For every start, goal, maze and heuristic: whenever [find_path]
    returns, the path is empty exactly when none of the expanded nodes
    came within the goal tolerance of 8 pixels, that is when the open set
    ran out; and on a well-formed maze [find_path] does return, it
    neither raises nor runs on: some amount of fuel is enough, and more
    fuel gives a result as well. *)
Theorem find_path_exhaustion {H : Type} `{HeapQ H} (game_map : Map.t)
    (start goal : Vector2D.t) (heuristic_type : string) :
  (∀ fuel path,
     AStar.find_path fuel start goal game_map heuristic_type = AStar.Returned path →
     path = []
     ↔ Forall (fun n => AStar.at_goal goal n = false)
              (AStar.find_path_expanded fuel start goal game_map heuristic_type))
  ∧ (Map.well_formed game_map →
     ∃ fuel, ∀ fuel', (fuel ≤ fuel')%nat →
       ∃ path,
         AStar.find_path fuel' start goal game_map heuristic_type = AStar.Returned path).
Proof.
  split.
  - intros fuel path. apply search_empty_iff.
  - intros Hwf. by apply find_path_terminates.
Qed.

Lemma street_well_formed : Map.well_formed street.
Proof. split; [done|]. split; [done|]. simpl. by repeat constructor. Qed.

(** In [street] no route leads from (24, 24) to (400, 24): two nodes are
    expanded, the open set runs out and the path is empty. *)
Lemma find_path_exhaustion_witness :
  AStar.find_path (H := list AStarNode) 3 (Vector2D.mk 24 24) (Vector2D.mk 400 24)
                  street "manhattan" = AStar.Returned []
  ∧ Forall (fun n => AStar.at_goal (Vector2D.mk 400 24) n = false)
           (AStar.find_path_expanded (H := list AStarNode) 3 (Vector2D.mk 24 24)
              (Vector2D.mk 400 24) street "manhattan")
  ∧ ∃ fuel, ∀ fuel', (fuel ≤ fuel')%nat →
      ∃ path,
        AStar.find_path (H := list AStarNode) fuel' (Vector2D.mk 24 24)
          (Vector2D.mk 400 24) street "manhattan" = AStar.Returned path.
Proof.
  destruct (find_path_exhaustion (H := list AStarNode) street (Vector2D.mk 24 24)
              (Vector2D.mk 400 24) "manhattan") as [Hempty Hreturns].
  assert (AStar.find_path (H := list AStarNode) 3 (Vector2D.mk 24 24) (Vector2D.mk 400 24)
            street "manhattan" = AStar.Returned []) as Hrun by (vm_compute; reflexivity).
  split; [exact Hrun|]. split.
  - by apply (Hempty 3%nat []).
  - apply Hreturns. exact street_well_formed.
Defined.

(** ** Further properties of the maze and the controller *)

(** The maze the game falls back to when no map file loads *)
Definition fallback : Map.t := Map.load_default_map (Map.mk [] 16 0 0 ∅).

(** The built-in fallback maze is not rectangular: its width is 35 but
    its row 4 has 34 cells.  [is_wall] raises [IndexError] at a position
    in column 34 of that row, and a search started beside it raises as
    well instead of returning a path. *)
Lemma fallback_maze_is_ragged :
  Map._width fallback = 35
  ∧ length <$> (Map._layout fallback !! 4%nat) = Some 34%nat
  ∧ Map.is_wall fallback (Vector2D.mk 550 70) = Raise IndexError
  ∧ AStar.find_path (H := list AStarNode) 50 (Vector2D.mk 533 72) (Vector2D.mk 100 100)
      fallback "manhattan" = AStar.Raised IndexError.
Proof. repeat split; vm_compute; reflexivity. Qed.

(** On a well-formed maze the collision queries return for every
    position, size and kind: they never raise. *)
Theorem collision_queries_return (m : Map.t) (p : Vector2D.t) (s : Z) (kind : string) :
  Map.well_formed m →
  (∃ b, Map.is_wall m p = Ok b) ∧ (∃ b, Map.is_valid_position m p s kind = Ok b).
Proof.
  intros Hwf. split; [by apply is_wall_ok|by apply is_valid_position_ok].
Qed.

Lemma collision_queries_return_witness :
  (∃ b, Map.is_wall street (Vector2D.mk 24 24) = Ok b)
  ∧ (∃ b, Map.is_valid_position street (Vector2D.mk 24 24) 16 "player" = Ok b).
Proof.
  apply (collision_queries_return street (Vector2D.mk 24 24) 16 "player").
  exact street_well_formed.
Defined.

(** The pellet loop leaves the state and the campaign record alone. *)
Definition campaign (gm : Game.t) : GameState * Z * Z * list string :=
  (Game._state gm, Game._campaign_total_score gm, Game._current_map_index gm,
   Game._available_maps gm).

Lemma eat_campaign (gm gm' : Game.t) (pellet : Pellet.t) :
  Game.eat gm pellet = Ok gm' → campaign gm' = campaign gm.
Proof.
  unfold Game.eat.
  destruct (Map.remove_pellet_at _ _) as [[m b]|]; simpl_bind; [|done].
  destruct (String.eqb _ _); intros [= <-]; reflexivity.
Qed.

Lemma sweep_campaign (pellets kept : list Pellet.t) (gm gm' : Game.t) :
  Game.sweep gm pellets = Ok (gm', kept) → campaign gm' = campaign gm.
Proof.
  revert gm gm' kept. induction pellets as [|pellet pellets IH]; intros gm gm' kept.
  - by intros [= <- _].
  - cbn [Game.sweep]. cbv zeta. destruct (Surd.ltb _ _).
    + destruct (Game.eat gm pellet) as [gm1|] eqn:E; simpl_bind; [|done].
      intros H. rewrite (IH _ _ _ H). by eapply eat_campaign.
    + destruct (Game.sweep gm pellets) as [[gm1 k]|] eqn:E; simpl_bind; [|done].
      intros [= <- _]. by eapply IH.
Qed.

Lemma getitem_nonneg {A : Type} (l : list A) (i : Z) (a : A) :
  0 ≤ i → l !! Z.to_nat i = Some a → Game.getitem l i = Ok a.
Proof.
  intros Hi Ha. unfold Game.getitem.
  destruct (Z.ltb_spec i 0) as [?|_]; [lia|].
  destruct (Z.ltb_spec i 0) as [?|_]; [lia|]. by rewrite Ha.
Qed.

(** X3: when the pellet loop of [update] leaves no pellet, the frame ends
    out of play and the ghost loop is not run.  With a map index that is
    not negative (the game counts it up from 0), the score of the player
    is added to the campaign's total; if the list of maps holds a map
    after the current one, the index moves on to it, it becomes the next
    map, the intermission timer is set to the clock and the state is
    [INTERMISSION]; if it holds none, the index stays and the state is
    [VICTORY]. *)
Theorem level_clear_leaves_play (gm gm1 : Game.t) (now : Z) :
  0 ≤ Game._current_map_index gm →
  Game.sweep gm (Game._pellets gm) = Ok (gm1, []) →
  ∃ gm', Game.resolve_collisions gm now = Ok gm'
         ∧ Game._campaign_total_score gm'
           = Game._campaign_total_score gm + Player._score (Game._player gm1)
         ∧ Game._player gm' = Game._player gm1
         ∧ Game._ghosts gm' = Game._ghosts gm1
         ∧ Game.waited gm' = Game.waited gm1
         ∧ (Game._current_map_index gm + 1 < Z.of_nat (length (Game._available_maps gm)) →
            Game._state gm' = INTERMISSION
            ∧ Game._current_map_index gm' = Game._current_map_index gm + 1
            ∧ Game._next_map_info gm'
              = Game._available_maps gm !! Z.to_nat (Game._current_map_index gm + 1)
            ∧ Game._intermission_timer gm' = now)
         ∧ (Z.of_nat (length (Game._available_maps gm)) ≤ Game._current_map_index gm + 1 →
            Game._state gm' = VICTORY
            ∧ Game._current_map_index gm' = Game._current_map_index gm).
Proof.
  intros Hnn Hs. pose proof (sweep_campaign _ _ _ _ Hs) as Hc.
  injection Hc as Hst Hsc Hix Hmaps.
  unfold Game.resolve_collisions. rewrite Hs. simpl_bind.
  cbn [fst snd]. change (length (Game._pellets (Game.set_pellets [] gm1))) with 0%nat.
  cbn [Nat.eqb].
  unfold Game.level_clear. cbv zeta.
  change (Game._current_map_index (Game.set_campaign_total_score _ (Game.set_pellets [] gm1)))
    with (Game._current_map_index gm1).
  change (Game._available_maps (Game.set_campaign_total_score _ (Game.set_pellets [] gm1)))
    with (Game._available_maps gm1).
  rewrite Hix, Hmaps. clear Hs.
  destruct gm1 as [st ia pn sc m p gs ps ct ci am nm it cs w].
  cbn [Game._state Game._campaign_total_score Game._current_map_index
       Game._available_maps] in Hst, Hsc, Hix, Hmaps. subst st ct ci am.
  destruct (Z.ltb_spec (Game._current_map_index gm + 1)
                       (Z.of_nat (length (Game._available_maps gm)))) as [Hlt|Hge].
  - cbn [Game.set_pellets Game.set_campaign_total_score Game.set_current_map_index
         Game._available_maps Game._current_map_index].
    destruct (Game._available_maps gm !! Z.to_nat (Game._current_map_index gm + 1))
      as [info|] eqn:Einfo.
    + rewrite (getitem_nonneg (Game._available_maps gm) (Game._current_map_index gm + 1) info);
        [|lia|exact Einfo].
      simpl_bind.
      eexists. split; [reflexivity|]. cbn. split_and!; try done; try (intros; lia).
    + apply lookup_ge_None in Einfo. lia.
  - eexists. split; [reflexivity|]. cbn. split_and!; try done. intros. lia.
Qed.

(** A game on [street] whose last pellet lies under the player; the
    campaign has a second map. *)
Definition last_pellet : Game.t :=
  Game.mk PLAYING false "" false street
    (Player.init 24 24 16 2 3 0) []
    [Pellet.mk (Vector2D.mk 24 24) "normal" 10]
    0 0 ["first.json"; "second.json"] None 0 [] 0.

Lemma level_clear_leaves_play_witness :
  ∃ gm', Game.resolve_collisions last_pellet 77 = Ok gm'
         ∧ Game._state gm' = INTERMISSION
         ∧ Game._next_map_info gm' = Some "second.json"
         ∧ Game._campaign_total_score gm' = 10.
Proof.
  assert (Hs : ∃ gm1, Game.sweep last_pellet (Game._pellets last_pellet) = Ok (gm1, [])
                      ∧ Player._score (Game._player gm1) = 10).
  { eexists. split; vm_compute; reflexivity. }
  destruct Hs as (gm1 & Hs & Hscore).
  destruct (level_clear_leaves_play last_pellet gm1 77 ltac:(done) Hs)
    as (gm' & Hr & Hsc & _ & _ & _ & Hnext & _).
  destruct Hnext as (Hst & _ & Hinfo & _); [done|].
  exists gm'. split; [exact Hr|]. split; [exact Hst|]. split; [exact Hinfo|].
  rewrite Hsc, Hscore. reflexivity.
Defined.

(** ** The maze as a store of pellets *)

Lemma row_pellets_length (m : Map.t) (row_idx col_idx : Z) (row : list Z) :
  length (Map.row_pellets m row_idx col_idx row)
  = length (filter (fun cell => cell = 2 ∨ cell = 3) row).
Proof.
  revert col_idx. induction row as [|cell rest IH]; intros col_idx; [done|].
  cbn [Map.row_pellets]. rewrite filter_cons.
  destruct (decide (cell = 2 ∨ cell = 3)) as [[-> | ->]|Hn]; cbn; rewrite ?IH; try done.
  destruct (Z.eqb_spec cell 2), (Z.eqb_spec cell 3); try lia; apply IH.
Qed.

Lemma get_pellets_length (m : Map.t) :
  Z.of_nat (length (Map.get_pellets m)) = Map.count_pellets m.
Proof.
  unfold Map.get_pellets, Map.count_pellets. f_equal.
  generalize 0. induction (Map._layout m) as [|row rest IH]; intros row_idx; [done|].
  cbn [Map.rows_pellets concat]. rewrite filter_app, !length_app, IH.
  by rewrite row_pellets_length.
Qed.

(** Replacing a pellet cell of a row by an empty cell takes one pellet
    off the count. *)
Lemma filter_insert_count (row : list Z) (c : nat) (cell : Z) :
  row !! c = Some cell → cell = 2 ∨ cell = 3 →
  S (length (filter (fun cell => cell = 2 ∨ cell = 3) (<[c := 0]> row)))
  = length (filter (fun cell => cell = 2 ∨ cell = 3) row).
Proof.
  revert c. induction row as [|a row IH]; intros [|c] Hc Hp; try done.
  - injection Hc as ->. change (<[0%nat := 0]> (cell :: row)) with (0 :: row).
    rewrite !filter_cons.
    destruct (decide (0 = 2 ∨ 0 = 3)); [lia|].
    by destruct (decide (cell = 2 ∨ cell = 3)).
  - change (<[S c := 0]> (a :: row)) with (a :: <[c := 0]> row).
    rewrite !filter_cons. specialize (IH c Hc Hp).
    destruct (decide (a = 2 ∨ a = 3)); cbn [length]; by rewrite IH.
Qed.

Lemma count_set_cell (layout : list (list Z)) (row col cell : Z) :
  0 ≤ row → 0 ≤ col →
  Map.index2 layout row col = Ok cell → cell = 2 ∨ cell = 3 →
  S (length (filter (fun cell => cell = 2 ∨ cell = 3)
               (concat (Map.set_cell layout row col 0))))
  = length (filter (fun cell => cell = 2 ∨ cell = 3) (concat layout)).
Proof.
  intros _ _. unfold Map.index2, Map.set_cell.
  generalize (Z.to_nat row) (Z.to_nat col). clear row col. intros r c.
  revert r. induction layout as [|a layout IH]; intros [|r] Hi Hp; try done.
  - cbn in Hi. destruct (a !! c) as [x|] eqn:Ea; [|done]. injection Hi as ->.
    cbn [alter list_alter concat]. rewrite !filter_app, !length_app.
    by rewrite <- (filter_insert_count a c cell).
  - cbn [alter list_alter concat]. rewrite !filter_app, !length_app.
    rewrite <- (IH r); [lia | exact Hi | exact Hp].
Qed.

Lemma set_cell_lengths (layout : list (list Z)) (row col v : Z) :
  length (Map.set_cell layout row col v) = length layout
  ∧ ∀ w, Forall (fun r => Z.of_nat (length r) = w) layout →
         Forall (fun r => Z.of_nat (length r) = w) (Map.set_cell layout row col v).
Proof.
  unfold Map.set_cell. split; [by rewrite length_alter|].
  intros w Hall. generalize (Z.to_nat row). intros r. revert r.
  induction Hall as [|a l Ha Hl IH]; intros [|r]; cbn [alter list_alter]; constructor;
    try done.
  by rewrite length_insert.
Qed.

(** A cell that is not a wall before or after the change keeps [is_wall]. *)
Lemma is_wall_set_cell (m : Map.t) (row col cell : Z) (q : Vector2D.t) :
  0 ≤ row → 0 ≤ col →
  Map.index2 (Map._layout m) row col = Ok cell → cell ≠ 1 →
  Map.is_wall (Map.set_layout m (Map.set_cell (Map._layout m) row col 0)) q
  = Map.is_wall m q.
Proof.
  intros Hr Hc Hi Hcell. unfold Map.is_wall. cbn [Map.set_layout Map._cell_size
    Map._height Map._width Map._layout].
  destruct (Map.floordiv (Vector2D.x q) (Map._cell_size m)) as [c|]; [|done].
  destruct (Map.floordiv (Vector2D.y q) (Map._cell_size m)) as [r|]; [|done].
  simpl_bind.
  destruct ((r <? 0) || (r >=? Map._height m) || (c <? 0) || (c >=? Map._width m))
    eqn:E; [done|].
  rewrite !orb_false_iff in E. destruct E as (((E1 & E2) & E3) & E4).
  destruct (decide (r = row ∧ c = col)) as [[-> ->]|Hne].
  - erewrite index2_set_cell_eq by done. rewrite Hi. simpl_bind.
    f_equal. symmetry. by apply Z.eqb_neq.
  - rewrite index2_set_cell_ne; [done|lia..|].
    destruct (decide (r = row)); [right|left]; naive_solver.
Qed.

(** X7: [remove_pellet_at] changes nothing but one pellet cell: the
    dimensions, the cell size and the spawn points stay, a rectangular
    grid stays rectangular, the pellet count drops by one exactly when
    the call returns [True], a call that returns [False] leaves the maze
    as it was, and [is_wall] answers as before at every position. *)
Theorem remove_pellet_at_frame (m m' : Map.t) (position : Vector2D.t) (removed : bool) :
  Map.remove_pellet_at m position = Ok (m', removed) →
  Map._cell_size m' = Map._cell_size m
  ∧ Map._width m' = Map._width m
  ∧ Map._height m' = Map._height m
  ∧ Map._spawn_positions m' = Map._spawn_positions m
  ∧ (Map.well_formed m → Map.well_formed m')
  ∧ Map.count_pellets m' = Map.count_pellets m - (if removed then 1 else 0)
  ∧ (removed = false → m' = m)
  ∧ ∀ q, Map.is_wall m' q = Map.is_wall m q.
Proof.
  unfold Map.remove_pellet_at.
  destruct (Map.floordiv (Vector2D.x position) (Map._cell_size m)) as [col|]; [|done].
  destruct (Map.floordiv (Vector2D.y position) (Map._cell_size m)) as [row|]; [|done].
  simpl_bind.
  assert (Hsame : Map._cell_size m = Map._cell_size m ∧ Map._width m = Map._width m
    ∧ Map._height m = Map._height m ∧ Map._spawn_positions m = Map._spawn_positions m
    ∧ (Map.well_formed m → Map.well_formed m)
    ∧ Map.count_pellets m = Map.count_pellets m - 0
    ∧ (false = false → m = m) ∧ ∀ q, Map.is_wall m q = Map.is_wall m q).
  { split_and!; try done. lia. }
  destruct (Map.in_bounds m row col) eqn:Eb; [|by intros [= <- <-]].
  destruct (Map.index2 (Map._layout m) row col) as [cell|] eqn:Ei; [|done].
  simpl_bind.
  destruct ((cell =? 2) || (cell =? 3)) eqn:Ec; [|by intros [= <- <-]].
  intros [= <- <-]. clear Hsame.
  unfold Map.in_bounds in Eb. 
  assert (0 ≤ row ∧ 0 ≤ col) as [Hr Hc] by lia.
  assert (cell = 2 ∨ cell = 3) as Hp by lia.
  pose proof (set_cell_lengths (Map._layout m) row col 0) as [Hlen Hrows].
  split_and!; try done.
  - intros (H1 & H2 & H3). split_and!; cbn; [done|by rewrite Hlen|by apply Hrows].
  - unfold Map.count_pellets. cbn [Map.set_layout Map._layout].
    rewrite <- (count_set_cell (Map._layout m) row col cell) by done. lia.
  - intros q. apply (is_wall_set_cell m row col cell); [done..|lia].
Qed.

Definition corridor_eaten : Map.t :=
  Map.init [[1; 1; 1; 1]; [1; 0; 0; 1]; [1; 1; 1; 1]] (Some 12).

Lemma remove_pellet_at_frame_witness :
  Map._cell_size corridor_eaten = Map._cell_size corridor
  ∧ Map._width corridor_eaten = Map._width corridor
  ∧ Map._height corridor_eaten = Map._height corridor
  ∧ Map._spawn_positions corridor_eaten = Map._spawn_positions corridor
  ∧ (Map.well_formed corridor → Map.well_formed corridor_eaten)
  ∧ Map.count_pellets corridor_eaten = Map.count_pellets corridor - 1
  ∧ (true = false → corridor_eaten = corridor)
  ∧ ∀ q, Map.is_wall corridor_eaten q = Map.is_wall corridor q.
Proof.
  apply (remove_pellet_at_frame corridor corridor_eaten (Vector2D.mk 18 18) true).
  vm_compute. reflexivity.
Defined.

(** Floor division of integers, as the rationals compute it *)
Lemma Qfloor_div_Z (a cs : Z) : 0 < cs → Qfloor (inject_Z a / inject_Z cs) = a / cs.
Proof.
  intros Hcs. destruct cs as [|p|p]; try lia.
  unfold Qdiv, Qinv, Qmult, inject_Z, Qfloor. simpl. by rewrite Z.mul_1_r.
Qed.

(** The pixel in the middle of a cell, as [get_pellets] computes it *)
Definition centre (m : Map.t) (row col : Z) : Vector2D.t :=
  Vector2D.mk (inject_Z (col * Map._cell_size m + Map._cell_size m / 2))
              (inject_Z (row * Map._cell_size m + Map._cell_size m / 2)).

Lemma centre_inj (m : Map.t) (r c r' c' : Z) :
  Map._cell_size m ≠ 0 → centre m r c = centre m r' c' → r = r' ∧ c = c'.
Proof. intros Hcs [= H1 H2]. split; nia. Qed.

Lemma floordiv_centre (m : Map.t) (r c : Z) :
  0 < Map._cell_size m →
  Map.floordiv (Vector2D.x (centre m r c)) (Map._cell_size m) = Ok c
  ∧ Map.floordiv (Vector2D.y (centre m r c)) (Map._cell_size m) = Ok r.
Proof.
  intros Hcs. unfold Map.floordiv, centre. cbn [Vector2D.x Vector2D.y].
  destruct (Z.eqb_spec (Map._cell_size m) 0); [lia|].
  rewrite !Qfloor_div_Z by done.
  rewrite !Z.div_add_l by lia.
  rewrite (Z.div_small (Map._cell_size m / 2)).
  - split; f_equal; lia.
  - split; [apply Z.div_pos; lia | apply Z.div_lt; lia].
Qed.

(** The dictionary [get_pellets] makes for a pellet cell *)
Definition pellet_at (m : Map.t) (row col cell : Z) : Map.pellet_info :=
  if cell =? 2 then Map.mk_pellet_info (centre m row col) "normal" 10
  else Map.mk_pellet_info (centre m row col) "power_up" 50.

Lemma elem_of_row_pellets (m : Map.t) (ri ci : Z) (row : list Z) (info : Map.pellet_info) :
  info ∈ Map.row_pellets m ri ci row
  ↔ ∃ (k : nat) (cell : Z), row !! k = Some cell ∧ (cell = 2 ∨ cell = 3)
                            ∧ info = pellet_at m ri (ci + Z.of_nat k) cell.
Proof.
  revert ci. induction row as [|a row IH]; intros ci.
  - cbn. split; [by intros ?%elem_of_nil|by intros (k & cell & ? & _)].
  - cbn [Map.row_pellets]. split.
    + intros Hin.
      assert (Hcases : (info = pellet_at m ri ci a ∧ (a = 2 ∨ a = 3))
                       ∨ info ∈ Map.row_pellets m ri (ci + 1) row).
      { unfold pellet_at, centre.
        destruct (Z.eqb_spec a 2) as [->|H2]; [|destruct (Z.eqb_spec a 3) as [->|H3]];
          [apply elem_of_cons in Hin as [->|Hin]; [left|right]; by auto..|by right]. }
      destruct Hcases as [[-> Hp]|Hin'].
      * exists 0%nat, a. by rewrite Z.add_0_r.
      * apply IH in Hin' as (k & cell & Hk & Hp & ->).
        exists (S k), cell. split_and!; try done. f_equal. lia.
    + intros ([|k] & cell & Hk & Hp & ->).
      * injection Hk as ->. rewrite Z.add_0_r. unfold pellet_at, centre.
        destruct Hp as [-> | ->]; cbn; left.
      * assert (pellet_at m ri (ci + Z.of_nat (S k)) cell
                ∈ Map.row_pellets m ri (ci + 1) row) as Hin.
        { apply IH. exists k, cell. split_and!; try done. f_equal. lia. }
        destruct (a =? 2); [by right|]. destruct (a =? 3); [by right|done].
Qed.

Lemma elem_of_rows_pellets (m : Map.t) (ri : Z) (layout : list (list Z))
    (info : Map.pellet_info) :
  info ∈ Map.rows_pellets m ri layout
  ↔ ∃ (r k : nat) (row : list Z) (cell : Z),
      layout !! r = Some row ∧ row !! k = Some cell ∧ (cell = 2 ∨ cell = 3)
      ∧ info = pellet_at m (ri + Z.of_nat r) (Z.of_nat k) cell.
Proof.
  revert ri. induction layout as [|a layout IH]; intros ri.
  - cbn. split; [by intros ?%elem_of_nil|by intros (r & k & row & cell & ? & _)].
  - cbn [Map.rows_pellets]. rewrite elem_of_app, elem_of_row_pellets, IH. split.
    + intros [(k & cell & Hk & Hp & ->)|(r & k & row & cell & Hr & Hk & Hp & ->)].
      * exists 0%nat, k, a, cell. by rewrite Z.add_0_r.
      * exists (S r), k, row, cell. split_and!; try done. f_equal. lia.
    + intros ([|r] & k & row & cell & Hr & Hk & Hp & ->).
      * injection Hr as ->. left. exists k, cell. by rewrite Z.add_0_r.
      * right. exists r, k, row, cell. split_and!; try done. f_equal. lia.
Qed.

(** X6: on a rectangular maze every pellet [get_pellets] lists lies in
    the middle of a cell that holds its kind (2 for a normal pellet worth
    10, 3 for a power-up worth 50), and [remove_pellet_at] at its position
    finds it: the call returns [True] and the remaining count is one
    less. *)
Theorem listed_pellet_is_removable (m : Map.t) (info : Map.pellet_info) :
  Map.well_formed m →
  info ∈ Map.get_pellets m →
  ∃ (cell : Z) (m' : Map.t),
    cell_under m (Map.position info) = Some cell
    ∧ (cell = 2 ∧ Map.type info = "normal" ∧ Map.value info = 10
       ∨ cell = 3 ∧ Map.type info = "power_up" ∧ Map.value info = 50)
    ∧ Map.remove_pellet_at m (Map.position info) = Ok (m', true)
    ∧ cell_under m' (Map.position info) = Some 0
    ∧ Map.count_pellets m' = Map.count_pellets m - 1.
Proof.
  intros Hwf Hin. pose proof Hwf as (Hcs & Hh & Hrows).
  apply elem_of_rows_pellets in Hin as (r & k & row & cell & Hr & Hk & Hp & ->).
  rewrite Z.add_0_l.
  assert (Hpos : Map.position (pellet_at m (Z.of_nat r) (Z.of_nat k) cell)
                 = centre m (Z.of_nat r) (Z.of_nat k)).
  { unfold pellet_at. by destruct (cell =? 2). }
  destruct (floordiv_centre m (Z.of_nat r) (Z.of_nat k) Hcs) as [Ex Ey].
  assert (Hb : Map.in_bounds m (Z.of_nat r) (Z.of_nat k) = true).
  { unfold Map.in_bounds. apply lookup_lt_Some in Hr as Hr'.
    rewrite Forall_forall in Hrows. specialize (Hrows row (list_elem_of_lookup_2 _ _ _ Hr)).
    apply lookup_lt_Some in Hk. lia. }
  assert (Hi : Map.index2 (Map._layout m) (Z.of_nat r) (Z.of_nat k) = Ok cell).
  { unfold Map.index2. by rewrite !Nat2Z.id, Hr, Hk. }
  assert (Hc : cell_under m (centre m (Z.of_nat r) (Z.of_nat k)) = Some cell).
  { unfold cell_under. by rewrite Ex, Ey, Hb, Hi. }
  assert (Hrm : Map.remove_pellet_at m (centre m (Z.of_nat r) (Z.of_nat k))
    = Ok (Map.set_layout m (Map.set_cell (Map._layout m) (Z.of_nat r) (Z.of_nat k) 0), true)).
  { unfold Map.remove_pellet_at. rewrite Ex, Ey. simpl_bind. rewrite Hb, Hi. simpl_bind.
    by assert ((cell =? 2) || (cell =? 3) = true) as -> by lia. }
  exists cell, (Map.set_layout m (Map.set_cell (Map._layout m) (Z.of_nat r) (Z.of_nat k) 0)).
  rewrite Hpos. split_and!; try done.
  - unfold pellet_at. destruct Hp as [-> | ->]; cbn; tauto.
  - unfold cell_under. cbn [Map.set_layout Map._cell_size Map._layout].
    rewrite Ex, Ey.
    change (Map.in_bounds (Map.set_layout m _) (Z.of_nat r) (Z.of_nat k))
      with (Map.in_bounds m (Z.of_nat r) (Z.of_nat k)).
    rewrite Hb. by erewrite index2_set_cell_eq.
  - unfold Map.count_pellets. cbn [Map.set_layout Map._layout].
    rewrite <- (count_set_cell (Map._layout m) (Z.of_nat r) (Z.of_nat k) cell) by (done || lia).
    lia.
Qed.

Lemma listed_pellet_is_removable_witness :
  ∃ (cell : Z) (m' : Map.t),
    cell_under corridor (Vector2D.mk 18 18) = Some cell
    ∧ (cell = 2 ∧ "normal" = "normal" ∧ 10 = 10
       ∨ cell = 3 ∧ "normal" = "power_up" ∧ 10 = 50)
    ∧ Map.remove_pellet_at corridor (Vector2D.mk 18 18) = Ok (m', true)
    ∧ cell_under m' (Vector2D.mk 18 18) = Some 0
    ∧ Map.count_pellets m' = Map.count_pellets corridor - 1.
Proof.
  apply (listed_pellet_is_removable corridor
           (Map.mk_pellet_info (Vector2D.mk 18 18) "normal" 10)).
  - exact corridor_well_formed.
  - vm_compute. left.
Defined.

(** X5: [get_pellets] lists exactly the pellet cells of the layout, on
    every maze, rectangular or not: as many entries as [count_pellets]
    counts, and an entry is listed exactly when some cell of the layout
    holds 2 (then the entry is a normal pellet worth 10 in the middle of
    that cell) or 3 (then it is a power-up worth 50). *)
Theorem get_pellets_lists_pellet_cells (m : Map.t) :
  Z.of_nat (length (Map.get_pellets m)) = Map.count_pellets m
  ∧ ∀ info : Map.pellet_info,
      info ∈ Map.get_pellets m
      ↔ ∃ (r c : nat) (row : list Z) (cell : Z),
          Map._layout m !! r = Some row ∧ row !! c = Some cell
          ∧ (cell = 2
             ∧ info = Map.mk_pellet_info (centre m (Z.of_nat r) (Z.of_nat c)) "normal" 10
             ∨ cell = 3
               ∧ info = Map.mk_pellet_info (centre m (Z.of_nat r) (Z.of_nat c)) "power_up" 50).
Proof.
  split; [apply get_pellets_length|].
  intros info. unfold Map.get_pellets. rewrite elem_of_rows_pellets. split.
  - intros (r & c & row & cell & Hr & Hc & Hp & ->). exists r, c, row, cell.
    rewrite Z.add_0_l. split_and!; try done. unfold pellet_at.
    destruct Hp as [-> | ->]; [left|right]; done.
  - intros (r & c & row & cell & Hr & Hc & Hp). exists r, c, row, cell.
    rewrite Z.add_0_l. split_and!; try done; unfold pellet_at;
      destruct Hp as [[-> ->] | [-> ->]]; auto.
Qed.

(** Positions are compared as Python objects with equal coordinates
    written the same way, which is how [get_pellets] and the controller
    produce them (integers). *)
#[local] Instance Q_eq_dec : EqDecision Q.
Proof. solve_decision. Defined.

#[local] Instance Vector2D_eq_dec : EqDecision Vector2D.t.
Proof. solve_decision. Defined.

Lemma filter_all {A : Type} (P : A → Prop) `{!∀ x, Decision (P x)} (l : list A) :
  (∀ x, x ∈ l → P x) → filter P l = l.
Proof.
  induction l as [|a l IH]; intros Hall; [done|].
  rewrite filter_cons_True by (apply Hall; by left).
  f_equal. apply IH. intros x Hx. apply Hall. by right.
Qed.

Lemma filter_ext_in {A : Type} (P Q : A → Prop)
    `{!∀ x, Decision (P x)} `{!∀ x, Decision (Q x)} (l : list A) :
  (∀ x, x ∈ l → P x ↔ Q x) → filter P l = filter Q l.
Proof.
  induction l as [|a l IH]; intros Hall; [done|].
  rewrite !filter_cons.
  pose proof (Hall a ltac:(by left)) as Ha.
  rewrite IH by (intros x Hx; apply Hall; by right).
  destruct (decide (P a)), (decide (Q a)); tauto.
Qed.

Lemma pellet_at_position (m : Map.t) (r c cell : Z) :
  Map.position (pellet_at m r c cell) = centre m r c.
Proof. unfold pellet_at. by destruct (cell =? 2). Qed.

Lemma row_pellets_other (m : Map.t) (ri ci : Z) (row : list Z) (q : Vector2D.t) :
  (∀ k : nat, q ≠ centre m ri (ci + Z.of_nat k)) →
  filter (fun i => Map.position i ≠ q) (Map.row_pellets m ri ci row)
  = Map.row_pellets m ri ci row.
Proof.
  intros Hq. apply filter_all. intros info (k & cell & _ & _ & ->)%elem_of_row_pellets.
  rewrite pellet_at_position. intros E. by apply (Hq k).
Qed.

Lemma rows_pellets_other (m : Map.t) (ri : Z) (layout : list (list Z)) (q : Vector2D.t) :
  (∀ r k : nat, q ≠ centre m (ri + Z.of_nat r) (Z.of_nat k)) →
  filter (fun i => Map.position i ≠ q) (Map.rows_pellets m ri layout)
  = Map.rows_pellets m ri layout.
Proof.
  intros Hq. apply filter_all.
  intros info (r & k & row & cell & _ & _ & _ & ->)%elem_of_rows_pellets.
  rewrite pellet_at_position. intros E. by apply (Hq r k).
Qed.

Lemma row_pellets_insert (m : Map.t) (ri ci : Z) (row : list Z) (c : nat) (cell : Z) :
  Map._cell_size m ≠ 0 → row !! c = Some cell → cell = 2 ∨ cell = 3 →
  Map.row_pellets m ri ci (<[c := 0]> row)
  = filter (fun i => Map.position i ≠ centre m ri (ci + Z.of_nat c))
           (Map.row_pellets m ri ci row).
Proof.
  intros Hcs. revert ci c. induction row as [|a row IH]; intros ci [|c] Hc Hp; try done.
  - injection Hc as ->. change (<[0%nat := 0]> (cell :: row)) with (0 :: row).
    rewrite Z.add_0_r. cbn [Map.row_pellets]. change (0 =? 2) with false.
    change (0 =? 3) with false. cbv iota.
    assert (Hrest : filter (fun i => Map.position i ≠ centre m ri ci)
                      (Map.row_pellets m ri (ci + 1) row)
                    = Map.row_pellets m ri (ci + 1) row).
    { apply row_pellets_other. intros k E. apply centre_inj in E; [lia|done]. }
    destruct Hp as [-> | ->].
    + change (2 =? 2) with true. cbv iota.
      rewrite filter_cons_False, Hrest; [done|]. intros Hne. by apply Hne.
    + change (3 =? 2) with false. change (3 =? 3) with true. cbv iota.
      rewrite filter_cons_False, Hrest; [done|]. intros Hne. by apply Hne.
  - change (<[S c := 0]> (a :: row)) with (a :: <[c := 0]> row).
    cbn [Map.row_pellets]. rewrite (IH (ci + 1) c Hc Hp).
    replace (ci + 1 + Z.of_nat c) with (ci + Z.of_nat (S c)) by lia.
    assert (Hhead : centre m ri ci ≠ centre m ri (ci + Z.of_nat (S c))).
    { intros E. apply centre_inj in E; [lia|done]. }
    destruct (a =? 2); [by rewrite filter_cons_True|].
    destruct (a =? 3); [by rewrite filter_cons_True|done].
Qed.

Lemma rows_pellets_alter (m : Map.t) (ri : Z) (layout : list (list Z))
    (r c : nat) (row : list Z) (cell : Z) :
  Map._cell_size m ≠ 0 → layout !! r = Some row → row !! c = Some cell →
  cell = 2 ∨ cell = 3 →
  Map.rows_pellets m ri (alter (fun x => <[c := 0]> x) r layout)
  = filter (fun i => Map.position i ≠ centre m (ri + Z.of_nat r) (Z.of_nat c))
           (Map.rows_pellets m ri layout).
Proof.
  intros Hcs. revert ri r. induction layout as [|a layout IH]; intros ri [|r] Hr Hc Hp;
    try done.
  - injection Hr as ->. cbn [alter list_alter Map.rows_pellets].
    rewrite filter_app, Z.add_0_r.
    rewrite (row_pellets_insert m ri 0 row c cell) by done. rewrite Z.add_0_l.
    f_equal. symmetry. apply rows_pellets_other.
    intros r' k E. apply centre_inj in E; [lia|done].
  - cbn [alter list_alter Map.rows_pellets]. rewrite filter_app.
    cbn [lookup list_lookup] in Hr.
    rewrite (IH (ri + 1) r Hr Hc Hp).
    replace (ri + 1 + Z.of_nat r) with (ri + Z.of_nat (S r)) by lia.
    f_equal. symmetry. apply row_pellets_other.
    intros k E. apply centre_inj in E; [lia|done].
Qed.

Lemma rows_pellets_same_size (m1 m2 : Map.t) (ri : Z) (layout : list (list Z)) :
  Map._cell_size m1 = Map._cell_size m2 →
  Map.rows_pellets m1 ri layout = Map.rows_pellets m2 ri layout.
Proof.
  intros E. revert ri. induction layout as [|row layout IH]; intros ri; [done|].
  cbn [Map.rows_pellets]. rewrite IH. f_equal.
  generalize 0. induction row as [|a row IHr]; intros ci; [done|].
  cbn [Map.row_pellets]. by rewrite IHr, E.
Qed.

(** [remove_pellet_at] in the middle of a cell takes the pellet of that
    cell, if there is one, off the list [get_pellets] returns. *)
Lemma remove_pellet_at_listed (m m' : Map.t) (r c : nat) (b : bool) :
  Map.well_formed m →
  Map.remove_pellet_at m (centre m (Z.of_nat r) (Z.of_nat c)) = Ok (m', b) →
  Map.get_pellets m'
  = filter (fun i => Map.position i ≠ centre m (Z.of_nat r) (Z.of_nat c)) (Map.get_pellets m).
Proof.
  intros (Hcs & Hh & Hrows). unfold Map.remove_pellet_at.
  destruct (floordiv_centre m (Z.of_nat r) (Z.of_nat c) Hcs) as [-> ->]. simpl_bind.
  assert (Hnone : (∀ cell, Map.index2 (Map._layout m) (Z.of_nat r) (Z.of_nat c) = Ok cell →
                          ¬ (cell = 2 ∨ cell = 3)) →
    Map.get_pellets m
    = filter (fun i => Map.position i ≠ centre m (Z.of_nat r) (Z.of_nat c)) (Map.get_pellets m)).
  { intros Hcell. symmetry. apply filter_all.
    intros info (r' & k' & row & cell' & Hr & Hk & Hp & ->)%elem_of_rows_pellets.
    rewrite pellet_at_position, Z.add_0_l. intros E.
    apply centre_inj in E as [Er Ek]; [|lia].
    apply Nat2Z.inj in Er, Ek. subst r' k'.
    apply (Hcell cell'); [|exact Hp].
    unfold Map.index2. by rewrite !Nat2Z.id, Hr, Hk. }
  destruct (Map.in_bounds m (Z.of_nat r) (Z.of_nat c)) eqn:Eb.
  - destruct (Map.index2 (Map._layout m) (Z.of_nat r) (Z.of_nat c)) as [cell|] eqn:Ei;
      [|done].
    simpl_bind. destruct ((cell =? 2) || (cell =? 3)) eqn:Ec.
    + intros [= <- <-]. unfold Map.index2 in Ei. rewrite !Nat2Z.id in Ei.
      destruct (Map._layout m !! r) as [row|] eqn:Er; [|done].
      destruct (row !! c) as [x|] eqn:Ek; [|done]. injection Ei as ->.
      unfold Map.get_pellets, Map.set_cell. cbn [Map.set_layout Map._layout].
      rewrite !Nat2Z.id.
      pose proof (rows_pellets_alter m 0 (Map._layout m) r c row cell) as Ha.
      rewrite Z.add_0_l in Ha. rewrite <- Ha; [|lia|done|done|lia].
      by apply rows_pellets_same_size.
    + intros [= <- <-]. apply Hnone. intros cell' [= ->]. lia.
  - intros [= <- <-]. apply Hnone. intros cell Hi.
    unfold Map.index2 in Hi. rewrite !Nat2Z.id in Hi.
    destruct (Map._layout m !! r) as [row|] eqn:Er; [|done].
    destruct (row !! c) as [x|] eqn:Ek; [|done].
    apply lookup_lt_Some in Er as Er'.
    rewrite Forall_forall in Hrows. specialize (Hrows row (list_elem_of_lookup_2 _ _ _ Er)).
    apply lookup_lt_Some in Ek. unfold Map.in_bounds in Eb. lia.
Qed.

(** ** The pellet loop of the controller *)

(** [distance < collision_radius] between the player and a pellet *)
Definition reaches (p : Player.t) (pellet : Pellet.t) : bool :=
  Surd.ltb (Vector2D.distance_to (Player._position p) (Pellet._position pellet))
           (Surd.of_Q (inject_Z Game.collision_radius)).

(** The sum of the values of a list of pellets *)
Definition points (l : list Pellet.t) : Z :=
  foldr (fun pellet total => Pellet._value pellet + total) 0 l.

Lemma remove_pellet_at_ok (m : Map.t) (p : Vector2D.t) :
  Map.well_formed m →
  ∃ m' b, Map.remove_pellet_at m p = Ok (m', b)
          ∧ Map.well_formed m' ∧ Map._cell_size m' = Map._cell_size m.
Proof.
  intros Hwf. pose proof Hwf as (Hcs & Hh & Hrows). unfold Map.remove_pellet_at.
  rewrite !floordiv_ok by lia. simpl_bind.
  set (col := Qfloor (Vector2D.x p / inject_Z (Map._cell_size m))).
  set (row := Qfloor (Vector2D.y p / inject_Z (Map._cell_size m))).
  destruct (Map.in_bounds m row col) eqn:Eb; [|by eexists _, _].
  unfold Map.in_bounds in Eb.
  destruct (index2_ok m row col Hwf) as [cell ->]; [lia..|]. simpl_bind.
  destruct ((cell =? 2) || (cell =? 3)); [|by eexists _, _].
  eexists _, _. split; [reflexivity|]. split; [|done].
  pose proof (set_cell_lengths (Map._layout m) row col 0) as [Hlen Hr].
  split_and!; cbn [Map.set_layout Map._cell_size Map._height Map._layout Map._width];
    [done|by rewrite Hlen|by apply Hr].
Qed.

(** What eating one pellet changes *)
Lemma eat_spec (gm gm' : Game.t) (pellet : Pellet.t) :
  Game.eat gm pellet = Ok gm' →
  (∃ b, Map.remove_pellet_at (Game._map gm) (Pellet._position pellet)
        = Ok (Game._map gm', b))
  ∧ Player._position (Game._player gm') = Player._position (Game._player gm)
  ∧ Player._lives (Game._player gm') = Player._lives (Game._player gm)
  ∧ Player._score (Game._player gm')
    = Player._score (Game._player gm) + Pellet._value pellet
  ∧ Game._state gm' = Game._state gm
  ∧ length (Game._ghosts gm') = length (Game._ghosts gm).
Proof.
  unfold Game.eat.
  change (Game._map (Game.set_player _ gm)) with (Game._map gm).
  destruct (Map.remove_pellet_at (Game._map gm) (Pellet._position pellet))
    as [[m1 b]|] eqn:Er; [|done].
  simpl_bind. cbn [fst].
  destruct (String.eqb (Pellet._type pellet) "power_up"); intros [= <-]; cbn;
    rewrite ?length_map; split_and!; by eauto.
Qed.

(** The pellet loop on any list of pellets *)
Lemma sweep_spec (pellets : list Pellet.t) (gm gm' : Game.t) (kept : list Pellet.t) :
  Game.sweep gm pellets = Ok (gm', kept) →
  kept = filter (fun pellet => reaches (Game._player gm) pellet = false) pellets
  ∧ Player._position (Game._player gm') = Player._position (Game._player gm)
  ∧ Player._lives (Game._player gm') = Player._lives (Game._player gm)
  ∧ Player._score (Game._player gm')
    = Player._score (Game._player gm)
      + points (filter (fun pellet => reaches (Game._player gm) pellet = true) pellets)
  ∧ Game._state gm' = Game._state gm
  ∧ length (Game._ghosts gm') = length (Game._ghosts gm).
Proof.
  revert gm gm' kept. induction pellets as [|pellet rest IH]; intros gm gm' kept.
  - cbn. intros [= <- <-]. split_and!; try done. lia.
  - cbn [Game.sweep]. rewrite !filter_cons. fold (reaches (Game._player gm) pellet).
    destruct (reaches (Game._player gm) pellet) eqn:En.
    + destruct (Game.eat gm pellet) as [gm1|] eqn:Ee; [|done]. simpl_bind.
      intros Hs. apply eat_spec in Ee as (_ & Hp & Hl & Hsc & Hst & Hg).
      apply IH in Hs as (-> & Hp' & Hl' & Hsc' & Hst' & Hg').
      assert (Hr : ∀ q, reaches (Game._player gm1) q = reaches (Game._player gm) q)
        by (intros q; unfold reaches; by rewrite Hp).
      destruct (decide (true = false)); [done|]. destruct (decide (true = true)); [|done].
      split_and!; try congruence.
      * apply filter_ext_in. intros q _. by rewrite Hr.
      * rewrite Hsc', Hsc. cbn [points foldr].
        rewrite (filter_ext_in (fun q => reaches (Game._player gm1) q = true)
                   (fun q => reaches (Game._player gm) q = true)) by (intros q _; by rewrite Hr).
        fold (points (filter (fun q => reaches (Game._player gm) q = true) rest)). lia.
    + destruct (Game.sweep gm rest) as [[gm2 kept2]|] eqn:Es; [|done]. simpl_bind.
      cbn [fst snd]. intros [= <- <-].
      apply IH in Es as (-> & Hp' & Hl' & Hsc' & Hst' & Hg').
      destruct (decide (false = false)); [|done]. destruct (decide (false = true)); [done|].
      by split_and!.
Qed.

(** The pellet loop returns on a rectangular maze and leaves it
    rectangular. *)
Lemma sweep_ok (pellets : list Pellet.t) (gm : Game.t) :
  Map.well_formed (Game._map gm) →
  ∃ gm' kept, Game.sweep gm pellets = Ok (gm', kept)
              ∧ Map.well_formed (Game._map gm')
              ∧ Map._cell_size (Game._map gm') = Map._cell_size (Game._map gm).
Proof.
  revert gm. induction pellets as [|pellet rest IH]; intros gm Hwf.
  - by exists gm, [].
  - cbn [Game.sweep].
    destruct (Surd.ltb _ _).
    + destruct (remove_pellet_at_ok (Game._map gm) (Pellet._position pellet) Hwf)
        as (m1 & b & Hr & Hwf1 & Hcs1).
      assert (∃ gm1, Game.eat gm pellet = Ok gm1 ∧ Game._map gm1 = m1) as (gm1 & -> & Hm).
      { unfold Game.eat. cbn [Game.set_player Game._map]. rewrite Hr. simpl_bind. cbn [fst].
        destruct (String.eqb _ _); by eexists. }
      simpl_bind. destruct (IH gm1) as (gm' & kept & -> & Hwf' & Hcs'); [by rewrite Hm|].
      exists gm', kept. split_and!; [done..|]. by rewrite Hcs', Hm.
    + destruct (IH gm Hwf) as (gm' & kept & -> & Hwf' & Hcs'). simpl_bind.
      by eexists _, _.
Qed.

Lemma eat_ghosts (gm gm' : Game.t) (pellet : Pellet.t) :
  Game.eat gm pellet = Ok gm' →
  (Pellet._type pellet = "power_up" →
     Game._ghosts gm' = map (fun g => Ghost.set_vulnerable g 8000) (Game._ghosts gm)
     ∧ Player._power_up_active (Game._player gm') = true)
  ∧ (Pellet._type pellet ≠ "power_up" →
     Game._ghosts gm' = Game._ghosts gm
     ∧ Player._power_up_active (Game._player gm')
       = Player._power_up_active (Game._player gm)).
Proof.
  unfold Game.eat.
  destruct (Map.remove_pellet_at _ _) as [[m1 b]|]; [|done].
  simpl_bind. cbn [fst].
  destruct (String.eqb_spec (Pellet._type pellet) "power_up") as [E|E];
    intros [= <-]; by split.
Qed.

(** Once every ghost is vulnerable and the power-up runs, the rest of the
    pellet loop keeps it so. *)
Lemma sweep_keeps_scared (pellets : list Pellet.t) (gm gm' : Game.t)
    (kept : list Pellet.t) :
  Game.sweep gm pellets = Ok (gm', kept) →
  Forall (fun g => Ghost._state g = "vulnerable") (Game._ghosts gm) →
  Player._power_up_active (Game._player gm) = true →
  Forall (fun g => Ghost._state g = "vulnerable") (Game._ghosts gm')
  ∧ Player._power_up_active (Game._player gm') = true.
Proof.
  revert gm gm' kept. induction pellets as [|pellet rest IH]; intros gm gm' kept.
  - cbn. by intros [= <- <-].
  - cbn [Game.sweep]. destruct (Surd.ltb _ _).
    + destruct (Game.eat gm pellet) as [gm1|] eqn:Ee; [|done]. simpl_bind.
      intros Hs Hall Hact. apply eat_ghosts in Ee as [Hpow Hnot].
      apply (IH _ _ _ Hs).
      * destruct (decide (Pellet._type pellet = "power_up")) as [E|E].
        -- destruct (Hpow E) as [-> _]. apply Forall_fmap, Forall_true. by intros g.
        -- by destruct (Hnot E) as [-> _].
      * destruct (decide (Pellet._type pellet = "power_up")) as [E|E].
        -- by destruct (Hpow E).
        -- destruct (Hnot E) as [_ ->]. done.
    + destruct (Game.sweep gm rest) as [[gm2 kept2]|] eqn:Es; [|done]. simpl_bind.
      cbn [fst snd]. intros [= <- <-]. apply (IH _ _ _ Es).
Qed.

Lemma sweep_power_up (pellets : list Pellet.t) (gm gm' : Game.t) (kept : list Pellet.t) :
  Game.sweep gm pellets = Ok (gm', kept) →
  (Exists (fun pellet => reaches (Game._player gm) pellet = true
                         ∧ Pellet._type pellet = "power_up") pellets →
     Forall (fun g => Ghost._state g = "vulnerable") (Game._ghosts gm')
     ∧ Player._power_up_active (Game._player gm') = true)
  ∧ (Forall (fun pellet => reaches (Game._player gm) pellet = true →
                           Pellet._type pellet ≠ "power_up") pellets →
     Game._ghosts gm' = Game._ghosts gm).
Proof.
  revert gm gm' kept. induction pellets as [|pellet rest IH]; intros gm gm' kept.
  - cbn. intros [= <- <-]. split; [by intros ?%Exists_nil|done].
  - cbn [Game.sweep]. fold (reaches (Game._player gm) pellet).
    destruct (reaches (Game._player gm) pellet) eqn:En.
    + destruct (Game.eat gm pellet) as [gm1|] eqn:Ee; [|done]. simpl_bind.
      intros Hs. pose proof (eat_spec _ _ _ Ee) as (_ & Hp & _).
      pose proof (eat_ghosts _ _ _ Ee) as [Hpow Hnot].
      assert (Hr : ∀ q, reaches (Game._player gm1) q = reaches (Game._player gm) q)
        by (intros q; unfold reaches; by rewrite Hp).
      destruct (IH _ _ _ Hs) as [IH1 IH2]. split.
      * intros Hex. destruct (decide (Pellet._type pellet = "power_up")) as [E|E].
        -- destruct (Hpow E) as [Hg Ha]. apply (sweep_keeps_scared _ _ _ _ Hs); [|done].
           rewrite Hg. apply Forall_fmap, Forall_true. by intros g.
        -- apply Exists_cons in Hex as [[_ Hex]|Hex]; [done|].
           apply IH1. eapply Exists_impl; [exact Hex|]. intros q. by rewrite Hr.
      * intros Hall. apply Forall_cons in Hall as [Hhead Hall].
        destruct (Hnot (Hhead En)) as [<- _]. apply IH2.
        eapply Forall_impl; [exact Hall|]. intros q. by rewrite Hr.
    + destruct (Game.sweep gm rest) as [[gm2 kept2]|] eqn:Es; [|done]. simpl_bind.
      cbn [fst snd]. intros [= <- <-]. destruct (IH _ _ _ Es) as [IH1 IH2]. split.
      * intros Hex. apply Exists_cons in Hex as [[Hex _]|Hex]; [congruence|by apply IH1].
      * intros Hall. apply Forall_cons in Hall as [_ Hall]. by apply IH2.
Qed.

(** X8: on a rectangular maze the pellet loop of [update] returns; it
    keeps exactly the pellets the player does not reach (distance at
    least 8), adds the values of the others to the score, and leaves the
    player's position and lives alone.  If a reached pellet is a
    power-up, every ghost ends vulnerable and the player's power-up is
    active; if none is, the ghosts are untouched. *)
Theorem pellet_loop_accounting (gm : Game.t) :
  Map.well_formed (Game._map gm) →
  ∃ gm' kept,
    Game.sweep gm (Game._pellets gm) = Ok (gm', kept)
    ∧ kept = filter (fun pellet => reaches (Game._player gm) pellet = false)
                    (Game._pellets gm)
    ∧ Player._score (Game._player gm')
      = Player._score (Game._player gm)
        + points (filter (fun pellet => reaches (Game._player gm) pellet = true)
                         (Game._pellets gm))
    ∧ Player._position (Game._player gm') = Player._position (Game._player gm)
    ∧ Player._lives (Game._player gm') = Player._lives (Game._player gm)
    ∧ (Exists (fun pellet => reaches (Game._player gm) pellet = true
                             ∧ Pellet._type pellet = "power_up") (Game._pellets gm) →
         Forall (fun g => Ghost._state g = "vulnerable") (Game._ghosts gm')
         ∧ Player._power_up_active (Game._player gm') = true)
    ∧ (Forall (fun pellet => reaches (Game._player gm) pellet = true →
                             Pellet._type pellet ≠ "power_up") (Game._pellets gm) →
         Game._ghosts gm' = Game._ghosts gm).
Proof.
  intros Hwf. destruct (sweep_ok (Game._pellets gm) gm Hwf) as (gm' & kept & Hs & _).
  exists gm', kept. pose proof (sweep_spec _ _ _ _ Hs) as (Hk & Hp & Hl & Hsc & _).
  pose proof (sweep_power_up _ _ _ _ Hs) as [H1 H2].
  by split_and!.
Qed.

(** A game at its start in [corridor]: the player spawns on the pellet. *)
Definition blank : Game.t :=
  Game.mk MENU false "" false corridor (Player.init 0 0 16 2 20 0) [] []
    0 0 [] None 0 [] 0.

Definition opening : Game.t :=
  Game.set_state PLAYING (Game._initialize_game blank corridor 0).

Lemma pellet_loop_accounting_witness :
  ∃ gm' kept,
    Game.sweep opening (Game._pellets opening) = Ok (gm', kept)
    ∧ kept = filter (fun pellet => reaches (Game._player opening) pellet = false)
                    (Game._pellets opening)
    ∧ Player._score (Game._player gm')
      = Player._score (Game._player opening)
        + points (filter (fun pellet => reaches (Game._player opening) pellet = true)
                         (Game._pellets opening))
    ∧ Player._position (Game._player gm') = Player._position (Game._player opening)
    ∧ Player._lives (Game._player gm') = Player._lives (Game._player opening)
    ∧ (Exists (fun pellet => reaches (Game._player opening) pellet = true
                             ∧ Pellet._type pellet = "power_up") (Game._pellets opening) →
         Forall (fun g => Ghost._state g = "vulnerable") (Game._ghosts gm')
         ∧ Player._power_up_active (Game._player gm') = true)
    ∧ (Forall (fun pellet => reaches (Game._player opening) pellet = true →
                             Pellet._type pellet ≠ "power_up") (Game._pellets opening) →
         Game._ghosts gm' = Game._ghosts opening).
Proof.
  apply (pellet_loop_accounting opening). exact corridor_well_formed.
Defined.

(** ** The controller's pellets and the maze's pellet cells *)

(** A [Pellet] object read back as the dictionary it was built from *)
Definition info_of (pellet : Pellet.t) : Map.pellet_info :=
  Map.mk_pellet_info (Pellet._position pellet) (Pellet._type pellet) (Pellet._value pellet).

(** The controller's list of pellets mirrors the pellet cells of the
    maze, in the order [get_pellets] lists them. *)
Definition in_sync (gm : Game.t) : Prop :=
  map info_of (Game._pellets gm) = Map.get_pellets (Game._map gm).

Lemma centre_same_size (m1 m2 : Map.t) (r c : Z) :
  Map._cell_size m1 = Map._cell_size m2 → centre m1 r c = centre m2 r c.
Proof. intros E. unfold centre. by rewrite E. Qed.

Lemma sweep_map (pellets : list Pellet.t) (gm gm' : Game.t) (kept : list Pellet.t) :
  Map.well_formed (Game._map gm) →
  Forall (fun pellet => ∃ r c : nat,
            Pellet._position pellet = centre (Game._map gm) (Z.of_nat r) (Z.of_nat c))
         pellets →
  Game.sweep gm pellets = Ok (gm', kept) →
  Map.get_pellets (Game._map gm')
  = filter (fun i => Map.position i ∉
              map Pellet._position
                  (filter (fun pellet => reaches (Game._player gm) pellet = true) pellets))
           (Map.get_pellets (Game._map gm)).
Proof.
  revert gm gm' kept. induction pellets as [|pellet rest IH]; intros gm gm' kept Hwf Hc.
  - cbn. intros [= <- <-]. symmetry. apply filter_all. intros i _. apply not_elem_of_nil.
  - apply Forall_cons in Hc as [(r & c & Hpos) Hc].
    cbn [Game.sweep]. rewrite filter_cons. fold (reaches (Game._player gm) pellet).
    destruct (reaches (Game._player gm) pellet) eqn:En.
    + destruct (Game.eat gm pellet) as [gm1|] eqn:Ee; [|done]. simpl_bind.
      intros Hs. pose proof (eat_spec _ _ _ Ee) as ((b & Hrm) & Hp & _).
      destruct (remove_pellet_at_ok (Game._map gm) (Pellet._position pellet) Hwf)
        as (m1 & b1 & Hrm1 & Hwf1 & Hcs1).
      rewrite Hrm in Hrm1. injection Hrm1 as <- <-.
      assert (Hr : ∀ q, reaches (Game._player gm1) q = reaches (Game._player gm) q)
        by (intros q; unfold reaches; by rewrite Hp).
      rewrite (IH gm1 gm' kept Hwf1); [| |exact Hs].
      2:{ eapply Forall_impl; [exact Hc|]. intros q (r' & c' & ->).
          exists r', c'. by apply centre_same_size. }
      rewrite Hpos in Hrm. rewrite (remove_pellet_at_listed _ _ r c b Hwf Hrm).
      rewrite list_filter_filter. destruct (decide (true = true)); [|done].
      rewrite (filter_ext_in (fun q => reaches (Game._player gm1) q = true)
                 (fun q => reaches (Game._player gm) q = true)) by (intros q _; by rewrite Hr).
      apply filter_ext_in. intros i _. cbn [map]. rewrite not_elem_of_cons, Hpos. tauto.
    + destruct (Game.sweep gm rest) as [[gm2 kept2]|] eqn:Es; [|done]. simpl_bind.
      cbn [fst snd]. intros [= <- <-]. destruct (decide (false = true)); [done|].
      by apply (IH gm gm2 kept2).
Qed.

Lemma map_info_of_filter (pl : Player.t) (eaten : list Vector2D.t) (l : list Pellet.t) :
  (∀ pellet, pellet ∈ l →
     reaches pl pellet = false ↔ Pellet._position pellet ∉ eaten) →
  map info_of (filter (fun pellet => reaches pl pellet = false) l)
  = filter (fun i => Map.position i ∉ eaten) (map info_of l).
Proof.
  induction l as [|a l IH]; intros Hall; [done|].
  cbn [map]. rewrite !filter_cons.
  pose proof (Hall a ltac:(by left)) as Ha.
  rewrite <- IH by (intros q Hq; apply Hall; by right).
  change (Map.position (info_of a)) with (Pellet._position a).
  destruct (decide (reaches pl a = false)), (decide (Pellet._position a ∉ eaten));
    first [tauto | done].
Qed.

Lemma initialize_game_in_sync (gm : Game.t) (m : Map.t) (map_difficulty : Z) :
  in_sync (Game._initialize_game gm m map_difficulty)
  ∧ Game._map (Game._initialize_game gm m map_difficulty) = m.
Proof.
  split; [|done]. unfold in_sync, Game._initialize_game.
  cbn [Game._pellets Game._map Game.set_ghosts Game.set_pellets Game.set_player Game.set_map].
  rewrite <- list_fmap_compose. rewrite <- (list_fmap_id (Map.get_pellets m)) at 2.
  apply list_fmap_ext. intros _ [[x y] t v] _. done.
Qed.

(** X9: the controller's pellet list and the maze stay in step.
    [_initialize_game] builds the list from [get_pellets], so the two
    agree at the start; on a rectangular maze the pellet loop of [update]
    removes from the maze exactly the pellets it drops from the list, so
    they agree afterwards, the maze stays rectangular, and the number of
    pellets left in the list is what [count_pellets] reports. *)
Theorem pellets_stay_in_sync :
  (∀ gm m map_difficulty, in_sync (Game._initialize_game gm m map_difficulty))
  ∧ (∀ gm gm' kept,
       Map.well_formed (Game._map gm) →
       in_sync gm →
       Game.sweep gm (Game._pellets gm) = Ok (gm', kept) →
       in_sync (Game.set_pellets kept gm')
       ∧ Map.well_formed (Game._map gm')
       ∧ Z.of_nat (length kept) = Map.count_pellets (Game._map gm')).
Proof.
  split; [intros gm m d; apply initialize_game_in_sync|].
  intros gm gm' kept Hwf Hsync Hs.
  assert (Hsync' : in_sync (Game.set_pellets kept gm')).
  { unfold in_sync in *. cbn [Game.set_pellets Game._pellets Game._map].
    rewrite (sweep_map _ _ _ _ Hwf) by
      (try exact Hs; apply Forall_forall; intros q Hq;
       assert (info_of q ∈ Map.get_pellets (Game._map gm)) as
         (r & c & row & cell & _ & _ & _ & E)%elem_of_rows_pellets
         by (rewrite <- Hsync; by apply list_elem_of_fmap_2);
       exists r, c; apply (f_equal Map.position) in E;
       by rewrite pellet_at_position, Z.add_0_l in E).
    pose proof (sweep_spec _ _ _ _ Hs) as (-> & _).
    rewrite <- Hsync. apply map_info_of_filter.
    intros q Hq. rewrite list_elem_of_fmap. split.
    - intros Hn (q' & E & (Hr & _)%list_elem_of_filter).
      unfold reaches in *. rewrite E in Hn. congruence.
    - intros Hn. destruct (reaches (Game._player gm) q) eqn:Er; [|done].
      exfalso. apply Hn. exists q. split; [done|]. by apply list_elem_of_filter. }
  destruct (sweep_ok (Game._pellets gm) gm Hwf) as (gm2 & kept2 & Hs2 & Hwf2 & _).
  rewrite Hs in Hs2. injection Hs2 as <- <-.
  split_and!; [done..|].
  rewrite <- get_pellets_length. unfold in_sync in Hsync'.
  cbn [Game.set_pellets Game._pellets Game._map] in Hsync'.
  by rewrite <- Hsync', length_map.
Qed.

Lemma opening_in_sync : in_sync opening ∧ Map.well_formed (Game._map opening).
Proof.
  split; [|exact corridor_well_formed].
  unfold opening.
  enough (∀ gm, in_sync gm → in_sync (Game.set_state PLAYING gm)) as Hs
    by apply Hs, initialize_game_in_sync.
  by intros gm.
Qed.

Lemma pellets_stay_in_sync_witness :
  in_sync (Game._initialize_game blank corridor 0)
  ∧ ∃ gm' kept,
      Game.sweep opening (Game._pellets opening) = Ok (gm', kept)
      ∧ in_sync (Game.set_pellets kept gm')
      ∧ Map.well_formed (Game._map gm')
      ∧ Z.of_nat (length kept) = Map.count_pellets (Game._map gm').
Proof.
  destruct pellets_stay_in_sync as [Hinit Hloop].
  split; [exact (Hinit blank corridor 0)|].
  destruct opening_in_sync as [Hsync Hwf].
  destruct (sweep_ok (Game._pellets opening) opening Hwf) as (gm' & kept & Hs & _).
  exists gm', kept. split; [exact Hs|].
  exact (Hloop opening gm' kept Hwf Hsync Hs).
Defined.

(** ** The border of the grid *)

Lemma floor_negative (a : Q) (cs : Z) :
  0 < cs → (a < 0)%Q → Qfloor (a / inject_Z cs) < 0.
Proof.
  intros Hcs Ha.
  assert (0 < inject_Z cs)%Q as Hq by (rewrite <- (Qfloor_Z 0) in Hcs; by rewrite Zlt_Qlt in Hcs).
  assert (a / inject_Z cs < 0)%Q as Hd.
  { apply Qlt_shift_div_r; [done|]. qlra. }
  pose proof (Qfloor_le (a / inject_Z cs)) as Hle.
  rewrite Zlt_Qlt. change (inject_Z 0) with 0%Q. qlra.
Qed.

Lemma floor_beyond (a : Q) (cs w : Z) :
  0 < cs → (inject_Z (w * cs) <= a)%Q → w ≤ Qfloor (a / inject_Z cs).
Proof.
  intros Hcs Ha.
  assert (0 < inject_Z cs)%Q as Hq by (rewrite <- (Qfloor_Z 0) in Hcs; by rewrite Zlt_Qlt in Hcs).
  rewrite <- (Qfloor_Z w). apply Qfloor_resp_le.
  apply Qle_shift_div_l; [done|]. by rewrite <- inject_Z_mult.
Qed.

(** X10: the border of the grid.  With a positive cell size, a position
    left of, above, right of or below the grid of [width x height] cells
    is a wall and holds no pellet, whatever the layout is; with a cell
    size of zero all three queries raise [ZeroDivisionError]. *)
Theorem beyond_the_grid (m : Map.t) (p : Vector2D.t) :
  (Map._cell_size m = 0 →
     Map.is_wall m p = Raise ZeroDivisionError
     ∧ Map.remove_pellet_at m p = Raise ZeroDivisionError
     ∧ ∀ s kind, Map.is_valid_position m p s kind = Raise ZeroDivisionError)
  ∧ (0 < Map._cell_size m →
     (Vector2D.x p < 0
      ∨ inject_Z (Map._width m * Map._cell_size m) <= Vector2D.x p
      ∨ Vector2D.y p < 0
      ∨ inject_Z (Map._height m * Map._cell_size m) <= Vector2D.y p)%Q →
     Map.is_wall m p = Ok true
     ∧ Map.remove_pellet_at m p = Ok (m, false)).
Proof.
  split.
  - intros Hcs.
    assert (Hw : ∀ q, Map.is_wall m q = Raise ZeroDivisionError).
    { intros q. unfold Map.is_wall, Map.floordiv. by rewrite Hcs. }
    split; [apply Hw|]. split.
    + unfold Map.remove_pellet_at, Map.floordiv. by rewrite Hcs.
    + intros s kind. unfold Map.is_valid_position, Map.corners.
      cbn [Map.no_wall_at].
      by rewrite (Hw (Vector2D.mk (Vector2D.x p - Map.half_size s kind)
                                  (Vector2D.y p - Map.half_size s kind))%Q).
  - intros Hcs Hout. unfold Map.is_wall, Map.remove_pellet_at.
    rewrite !floordiv_ok by lia. simpl_bind.
    set (col := Qfloor (Vector2D.x p / inject_Z (Map._cell_size m))).
    set (row := Qfloor (Vector2D.y p / inject_Z (Map._cell_size m))).
    assert (col < 0 ∨ Map._width m ≤ col ∨ row < 0 ∨ Map._height m ≤ row) as Hrc.
    { destruct Hout as [Ho|[Ho|[Ho|Ho]]].
      - left. by apply floor_negative.
      - right; left. by apply floor_beyond.
      - right; right; left. by apply floor_negative.
      - right; right; right. by apply floor_beyond. }
    assert ((row <? 0) || (row >=? Map._height m) || (col <? 0) || (col >=? Map._width m)
            = true) as -> by lia.
    assert (Map.in_bounds m row col = false) as -> by (unfold Map.in_bounds; lia).
    done.
Qed.

Lemma beyond_the_grid_witness :
  Map.is_wall corridor (Vector2D.mk 48 18) = Ok true
  ∧ Map.remove_pellet_at corridor (Vector2D.mk 48 18) = Ok (corridor, false).
Proof.
  apply (beyond_the_grid corridor (Vector2D.mk 48 18)); [done|].
  right; left. vm_compute. by intros [=].
Defined.

(** ** The heuristics and the cost of a step *)

Lemma Surd_leb_Q (a b : Q) :
  Surd.leb (Surd.of_Q a) (Surd.of_Q b) = true ↔ (a <= b)%Q.
Proof.
  unfold Surd.leb, Surd.ltb, Surd.of_Q; simpl.
  case_Qle 0%Q (a - b)%Q.
  - case_Qle 0%Q (0 - (a - b) * (a - b) - 0)%Q.
    + case_Qle (4 * ((a - b) * (a - b)) * 0)%Q
        ((0 - (a - b) * (a - b) - 0) * (0 - (a - b) * (a - b) - 0))%Q; simpl.
      * split; [intros _|done]. qnra.
      * qnra.
    + simpl. split; [done|]. intros L. qnra.
  - case_Qle (0 - 0 - (a - b) * (a - b))%Q 0%Q; simpl.
    + split; [intros _; qlra|done].
    + qnra.
Qed.

Lemma Surd_leb_spec (a b : Surd.t) :
  (0 <= Surd.rad a)%Q → (0 <= Surd.rad b)%Q →
  Surd.leb a b = true ↔ (Surd.toR a <= Surd.toR b)%R.
Proof.
  intros Ha Hb. unfold Surd.leb. rewrite negb_true_iff, <- not_true_iff_false.
  rewrite (Surd_ltb_spec b a Hb Ha). split; [apply Rnot_lt_le|apply Rle_not_lt].
Qed.

Lemma Qabs_bounds (q d : Q) : (Qabs q <= d)%Q ↔ (q <= d ∧ - q <= d)%Q.
Proof.
  apply Qabs_case; intros Hq; split.
  - intros H. split; qlra.
  - intros [H1 H2]. qlra.
  - intros H. split; qlra.
  - intros [H1 H2]. qlra.
Qed.

(** The length of a sum of two vectors, when the second has Manhattan
    length at most [d] *)
Lemma euclid_step (W1 W2 E1 E2 d : R) :
  (E1 + E2 <= d → E1 - E2 <= d → - E1 + E2 <= d → - E1 - E2 <= d →
   sqrt ((W1 + E1) * (W1 + E1) + (W2 + E2) * (W2 + E2))
   <= d + sqrt (W1 * W1 + W2 * W2))%R.
Proof.
  intros H1 H2 H3 H4.
  assert (0 <= W1 * W1 + W2 * W2)%R as HB by rnra.
  pose proof (sqrt_pos (W1 * W1 + W2 * W2)) as Hs.
  pose proof (sqrt_sqrt _ HB) as Hss.
  set (s := sqrt (W1 * W1 + W2 * W2)) in *.
  assert (0 <= d)%R as Hd by rlra.
  assert (W1 <= s ∧ - W1 <= s ∧ W2 <= s ∧ - W2 <= s)%R as (B1 & B2 & B3 & B4).
  { split_and!; rnra. }
  rewrite <- (sqrt_square (d + s)) by rlra.
  apply sqrt_le_1_alt.
  assert (W1 * E1 + W2 * E2 <= s * d)%R as Hdot.
  { destruct (Rle_dec 0 E1), (Rle_dec 0 E2).
    - assert (0 <= (s - W1) * E1)%R by (apply Rmult_le_pos; rlra).
      assert (0 <= (s - W2) * E2)%R by (apply Rmult_le_pos; rlra).
      assert (0 <= s * (d - E1 - E2))%R by (apply Rmult_le_pos; rlra). rlra.
    - assert (0 <= (s - W1) * E1)%R by (apply Rmult_le_pos; rlra).
      assert (0 <= (s + W2) * - E2)%R by (apply Rmult_le_pos; rlra).
      assert (0 <= s * (d - E1 + E2))%R by (apply Rmult_le_pos; rlra). rlra.
    - assert (0 <= (s + W1) * - E1)%R by (apply Rmult_le_pos; rlra).
      assert (0 <= (s - W2) * E2)%R by (apply Rmult_le_pos; rlra).
      assert (0 <= s * (d + E1 - E2))%R by (apply Rmult_le_pos; rlra). rlra.
    - assert (0 <= (s + W1) * - E1)%R by (apply Rmult_le_pos; rlra).
      assert (0 <= (s + W2) * - E2)%R by (apply Rmult_le_pos; rlra).
      assert (0 <= s * (d + E1 + E2))%R by (apply Rmult_le_pos; rlra). rlra. }
  assert (E1 * E1 + E2 * E2 <= d * d)%R as Hsq.
  { destruct (Rle_dec 0 E1), (Rle_dec 0 E2); rnra. }
  rlra.
Qed.

(** Move an inequality between rationals to the reals. *)
Ltac q2r H :=
  apply Qreals.Qle_Rle in H;
  repeat first [rewrite Qreals.Q2R_plus in H | rewrite Qreals.Q2R_minus in H
               | rewrite Qreals.Q2R_opp in H].

(** Between two positions no heuristic differs by more than their
    Manhattan distance. *)
Lemma heuristic_lipschitz (p q goal : Vector2D.t) (heuristic_type : string) (d : Q) :
  (Qabs (Vector2D.x p - Vector2D.x q) + Qabs (Vector2D.y p - Vector2D.y q) <= d)%Q →
  Surd.leb (AStar.heuristic p goal heuristic_type)
           (Surd.add_Q d (AStar.heuristic q goal heuristic_type)) = true.
Proof.
  destruct p as [px py], q as [qx qy], goal as [gx gy]. cbn [Vector2D.x Vector2D.y].
  intros Hd.
  assert (Hlin : (px - qx + (py - qy) <= d ∧ px - qx - (py - qy) <= d
                  ∧ - (px - qx) + (py - qy) <= d ∧ - (px - qx) - (py - qy) <= d)%Q).
  { revert Hd. apply (Qabs_case (px - qx)); apply (Qabs_case (py - qy)); intros;
      split_and!; qlra. }
  clear Hd. destruct Hlin as (L1 & L2 & L3 & L4).
  assert (Hman : Surd.leb (Surd.of_Q (Qabs (px - gx) + Qabs (py - gy)))
                   (Surd.add_Q d (Surd.of_Q (Qabs (qx - gx) + Qabs (qy - gy)))) = true).
  { change (Surd.add_Q d (Surd.of_Q ?b)) with (Surd.of_Q (d + b)).
    apply Surd_leb_Q.
    apply (Qabs_case (px - gx)); apply (Qabs_case (py - gy));
      apply (Qabs_case (qx - gx)); apply (Qabs_case (qy - gy)); intros; qlra. }
  unfold AStar.heuristic, Vector2D.manhattan_distance_to. cbn [Vector2D.x Vector2D.y].
  destruct (String.eqb heuristic_type "manhattan"); [exact Hman|].
  destruct (String.eqb heuristic_type "euclidean").
  - unfold Vector2D.distance_to, Vector2D.magnitude, Vector2D.sub.
    cbn [Vector2D.x Vector2D.y].
    assert (Hsq : ∀ a b : Q, (0 <= a * a + b * b)%Q) by (intros; qnra).
    apply Surd_leb_spec; [unfold Surd.sqrt, Surd.add_Q; cbn [Surd.rad]; apply Hsq..|].
    unfold Surd.toR, Surd.add_Q, Surd.sqrt. cbn [Surd.rat Surd.rad].
    rewrite (Qreals.Q2R_plus d 0), RMicromega.Q2R_0, Rplus_0_l, Rplus_0_r.
    set (W1 := (Q2R qx - Q2R gx)%R). set (W2 := (Q2R qy - Q2R gy)%R).
    set (E1 := (Q2R px - Q2R qx)%R). set (E2 := (Q2R py - Q2R qy)%R).
    assert (Q2R ((px - gx) * (px - gx) + (py - gy) * (py - gy))
            = (W1 + E1) * (W1 + E1) + (W2 + E2) * (W2 + E2))%R as ->.
    { rewrite Qreals.Q2R_plus, !Qreals.Q2R_mult, !Qreals.Q2R_minus.
      unfold W1, W2, E1, E2. ring. }
    assert (Q2R ((qx - gx) * (qx - gx) + (qy - gy) * (qy - gy))
            = W1 * W1 + W2 * W2)%R as ->.
    { rewrite Qreals.Q2R_plus, !Qreals.Q2R_mult, !Qreals.Q2R_minus.
      unfold W1, W2. ring. }
    q2r L1. q2r L2. q2r L3. q2r L4.
    apply euclid_step; unfold E1, E2; rlra.
  - destruct (String.eqb heuristic_type "diagonal"); [|exact Hman].
    change (Surd.add_Q d (Surd.of_Q ?b)) with (Surd.of_Q (d + b)).
    apply Surd_leb_Q.
    assert (Qabs (px - gx) <= d + Qabs (qx - gx))%Q as T1
      by (apply (Qabs_case (px - gx)); apply (Qabs_case (qx - gx)); intros; qlra).
    assert (Qabs (py - gy) <= d + Qabs (qy - gy))%Q as T2
      by (apply (Qabs_case (py - gy)); apply (Qabs_case (qy - gy)); intros; qlra).
    pose proof (Q.le_max_l (Qabs (qx - gx)) (Qabs (qy - gy))) as M1.
    pose proof (Q.le_max_r (Qabs (qx - gx)) (Qabs (qy - gy))) as M2.
    apply Q.max_lub; qlra.
Qed.

(** X13: every heuristic is consistent with the cost of a step.  Between
    a position and any of its four neighbours, 16 pixels away, the
    estimate to the goal changes by at most 16, the cost [find_path]
    charges for the step. *)
Theorem heuristic_consistent (position neighbor goal : Vector2D.t)
    (heuristic_type : string) :
  neighbor ∈ AStar.get_neighbors position 16 →
  Surd.leb (AStar.heuristic position goal heuristic_type)
           (Surd.add_Q 16 (AStar.heuristic neighbor goal heuristic_type)) = true
  ∧ Surd.leb (AStar.heuristic neighbor goal heuristic_type)
             (Surd.add_Q 16 (AStar.heuristic position goal heuristic_type)) = true.
Proof.
  intros Hn.
  assert (Qabs (Vector2D.x position - Vector2D.x neighbor)
          + Qabs (Vector2D.y position - Vector2D.y neighbor) <= 16
          ∧ Qabs (Vector2D.x neighbor - Vector2D.x position)
            + Qabs (Vector2D.y neighbor - Vector2D.y position) <= 16)%Q as [H1 H2].
  { unfold AStar.get_neighbors in Hn. cbn [map fst snd] in Hn.
    rewrite !elem_of_cons, elem_of_nil in Hn.
    destruct Hn as [->|[->|[->|[->|[]]]]]; cbn [Vector2D.x Vector2D.y];
      unfold inject_Z; change (- (16))%Z with (-16)%Z; split;
      apply Qabs_case; intros; apply Qabs_case; intros; qlra. }
  split; by apply heuristic_lipschitz.
Qed.

Lemma heuristic_consistent_witness :
  Surd.leb (AStar.heuristic (Vector2D.mk 24 24) (Vector2D.mk 100 60) "euclidean")
           (Surd.add_Q 16 (AStar.heuristic (Vector2D.mk 40 24) (Vector2D.mk 100 60)
                                            "euclidean")) = true
  ∧ Surd.leb (AStar.heuristic (Vector2D.mk 40 24) (Vector2D.mk 100 60) "euclidean")
             (Surd.add_Q 16 (AStar.heuristic (Vector2D.mk 24 24) (Vector2D.mk 100 60)
                                              "euclidean")) = true.
Proof.
  apply (heuristic_consistent (Vector2D.mk 24 24) (Vector2D.mk 40 24)
           (Vector2D.mk 100 60) "euclidean").
  unfold AStar.get_neighbors. cbn [map]. do 3 right. left.
Defined.

(** ** A* search: the start at the goal, and the ground under a path *)

(** A node whose waypoints after the first were all found valid for a
    ghost when the search generated them *)
Inductive cleared (game_map : Map.t) : AStarNode → Prop :=
  | cleared_root pos g h : cleared game_map (mkNode pos g h None)
  | cleared_step p pos g h :
      cleared game_map p →
      Map.is_valid_position game_map pos 16 "ghost" = Ok true →
      cleared game_map (mkNode pos g h (Some p)).

Lemma reconstruct_path_step (pos : Vector2D.t) (g : Z) (h : Surd.t) (p : AStarNode) :
  AStar.reconstruct_path (mkNode pos g h (Some p)) = AStar.reconstruct_path p ++ [pos].
Proof. unfold AStar.reconstruct_path. cbn. by rewrite copy_id. Qed.

Lemma reconstruct_path_not_nil (n : AStarNode) : AStar.reconstruct_path n ≠ [].
Proof.
  destruct n as [pos g h [p|]].
  - rewrite reconstruct_path_step. intros E. by apply app_eq_nil in E as [_ ?].
  - done.
Qed.

Lemma cleared_path (game_map : Map.t) (n : AStarNode) :
  cleared game_map n →
  Forall (fun p => Map.is_valid_position game_map p 16 "ghost" = Ok true)
         (tail (AStar.reconstruct_path n)).
Proof.
  induction 1 as [pos g h|p pos g h Hp IH Hv].
  - unfold AStar.reconstruct_path. cbn. constructor.
  - rewrite reconstruct_path_step.
    pose proof (reconstruct_path_not_nil p) as Hne.
    destruct (AStar.reconstruct_path p) as [|a l]; [done|].
    cbn [tail app] in *. apply Forall_app. split; [done|]. by constructor.
Qed.

Section Ground.

Context {H : Type} `{HeapQ H}.

Variable game_map : Map.t.
Variable goal : Vector2D.t.
Variable heuristic_type : string.

Lemma visit_cleared (current : AStarNode) (closed : list AStar.key)
    (st st' : H * list (AStar.key * Z)) (np : Vector2D.t) :
  cleared game_map current →
  Forall (cleared game_map) (heap_items st.1) →
  AStar.visit game_map goal heuristic_type current closed st np = Ok st' →
  Forall (cleared game_map) (heap_items st'.1).
Proof.
  intros Hc Hst. unfold AStar.visit.
  destruct (AStar.key_in _ _); [by intros [= <-]|].
  destruct (Map.is_valid_position _ _ _ _) as [[|]|] eqn:Ev; simpl_bind; simpl;
    [|by intros [= <-]|done].
  destruct (match AStar.dict_get st.2 (AStar.key_of np) with
            | Some best => _ | None => _ end); [|by intros [= <-]].
  intros [= <-]. simpl. rewrite heappush_items. constructor; [|done].
  by constructor.
Qed.

Lemma visit_all_cleared (current : AStarNode) (closed : list AStar.key)
    (nps : list Vector2D.t) (st st' : H * list (AStar.key * Z)) :
  cleared game_map current →
  Forall (cleared game_map) (heap_items st.1) →
  AStar.visit_all game_map goal heuristic_type current closed st nps = Ok st' →
  Forall (cleared game_map) (heap_items st'.1).
Proof.
  intros Hc. revert st. induction nps as [|np nps IH]; intros st Hst;
    unfold AStar.visit_all; fold (AStar.visit_all game_map goal heuristic_type).
  - by intros [= <-].
  - destruct (AStar.visit game_map goal heuristic_type current closed st np)
      as [st1|] eqn:E1; simpl_bind; [|done].
    apply IH. by eapply visit_cleared.
Qed.

Lemma search_cleared (fuel : nat) (open : H) (closed : list AStar.key)
    (best : list (AStar.key * Z)) (path : list Vector2D.t) :
  Forall (cleared game_map) (heap_items open) →
  AStar.search game_map goal heuristic_type fuel open closed best = AStar.Returned path →
  Forall (fun p => Map.is_valid_position game_map p 16 "ghost" = Ok true) (tail path).
Proof.
  revert open closed best. induction fuel as [|fuel IH]; intros open closed best Hopen; simpl.
  - done.
  - destruct (heappop open) as [[current open']|] eqn:Epop;
      [|intros [= <-]; constructor].
    apply heappop_Some in Epop. rewrite Epop in Hopen.
    apply Forall_cons in Hopen as [Hc Hopen'].
    destruct (AStar.at_goal goal current) eqn:Eg.
    + intros [= <-]. by apply cleared_path.
    + match goal with
      | |- context [AStar.visit_all ?m ?g ?h ?c ?cl ?st ?ns] =>
          destruct (AStar.visit_all m g h c cl st ns) as [st'|] eqn:Ev; [|done]
      end.
      apply IH.
      by eapply (visit_all_cleared current _ _ (open', best)).
Qed.

(** A heap that holds one node gives it back and is empty afterwards. *)
Lemma heappop_single (h : H) (n : AStarNode) :
  heap_items h ≡ₚ [n] → ∃ h', heappop h = Some (n, h') ∧ heap_items h' = [].
Proof.
  intros Hp. destruct (heappop h) as [[n' h']|] eqn:E.
  - pose proof (heappop_Some _ _ _ E) as Hs. rewrite Hp in Hs.
    pose proof (Permutation_length Hs) as Hl. cbn in Hl.
    destruct (heap_items h') as [|x l] eqn:Ei; [|done].
    apply Permutation_singleton_inj in Hs as ->. by exists h'.
  - apply heappop_None in E. rewrite E in Hp. by apply Permutation_nil_cons in Hp.
Qed.

(** X14: a search that starts within 8 pixels of the goal returns the
    one-waypoint path [start] at once, in a single turn of the loop; it
    never looks at the maze, so this holds on every maze, well-formed or
    not. *)
Theorem find_path_from_goal (start : Vector2D.t) (fuel : nat) :
  Surd.ltb (Vector2D.distance_to start goal) (Surd.of_Q 8) = true →
  AStar.find_path (S fuel) start goal game_map heuristic_type = AStar.Returned [start].
Proof.
  intros Hnear. unfold AStar.find_path. cbn [AStar.search].
  destruct (heappop_single (heappush heap_new (AStar.start_node start goal heuristic_type))
              (AStar.start_node start goal heuristic_type)) as (h' & -> & _).
  { by rewrite heappush_items, heap_new_items. }
  unfold AStar.at_goal, AStar.start_node. cbn [position]. rewrite Hnear.
  unfold AStar.reconstruct_path. cbn. by rewrite copy_id.
Qed.

(** X15: every waypoint of a returned path after the first is a position
    valid for a ghost: none of the four corners of its clearance box is a
    wall.  (The start itself is never tested.) *)
Theorem find_path_passable (start : Vector2D.t) (fuel : nat) (path : list Vector2D.t) :
  AStar.find_path fuel start goal game_map heuristic_type = AStar.Returned path →
  Forall (fun p => Map.is_valid_position game_map p 16 "ghost" = Ok true) (tail path).
Proof.
  unfold AStar.find_path. apply search_cleared.
  rewrite heappush_items, heap_new_items. repeat constructor.
Qed.

End Ground.

Lemma find_path_from_goal_witness :
  AStar.find_path (H := list AStarNode) 1 (Vector2D.mk 24 24) (Vector2D.mk 27 28)
                  street "manhattan"
  = AStar.Returned [Vector2D.mk 24 24].
Proof.
  apply (find_path_from_goal (H := list AStarNode) street (Vector2D.mk 27 28)
           "manhattan" (Vector2D.mk 24 24) 0).
  vm_compute. reflexivity.
Defined.

Lemma find_path_passable_witness :
  Forall (fun p => Map.is_valid_position street p 16 "ghost" = Ok true)
         (tail [Vector2D.mk 24 24; Vector2D.mk 40 24]).
Proof.
  apply (find_path_passable (H := list AStarNode) street (Vector2D.mk 40 24)
           "manhattan" (Vector2D.mk 24 24) 20).
  vm_compute. reflexivity.
Defined.

(** ** The player between walls *)

Lemma player_can_move_valid (p : Player.t) (d : Direction) (m : Map.t) :
  Player.can_move p d m = Ok true →
  d ≠ NONE ∧ Map.is_valid_position m (advanced p d) base_sprite_size "player" = Ok true.
Proof.
  unfold Player.can_move, MovableObject.can_move.
  destruct (decide (d = NONE)); [done|]. intros Hv. split; [done|]. exact Hv.
Qed.

Lemma player_move_to (p : Player.t) :
  Player._direction p ≠ NONE →
  MovableObject.move p None
  = Player.set_position (advanced p (Player._direction p)) p.
Proof.
  intros Hd. unfold MovableObject.move. cbn [default get_direction Player.movable].
  by destruct (decide (Player._direction p ≠ NONE)).
Qed.

(** The second direction block of [update] moves the player one step to
    a valid position or stops it where it is. *)
Lemma advance_spec (p p' : Player.t) (m : Map.t) :
  Player.advance p m = Ok p' →
  (p' = Player.set_direction NONE p)
  ∨ (∃ d, d ≠ NONE
          ∧ Map.is_valid_position m (advanced p d) base_sprite_size "player" = Ok true
          ∧ p' = Player.set_position (advanced p d) (Player.set_direction d p)).
Proof.
  unfold Player.advance.
  destruct (Player.can_move p (Player._direction p) m) as [[|]|] eqn:Ed; simpl_bind;
    [| |done].
  - intros [= <-]. apply player_can_move_valid in Ed as [Hn Hv].
    right. exists (Player._direction p). split; [done|]. split; [done|].
    rewrite player_move_to by done. by destruct p.
  - destruct (decide (Player._next_direction p ≠ Player._direction p)) as [Hne|He].
    + destruct (Player.can_move p (Player._next_direction p) m) as [[|]|] eqn:En;
        simpl_bind; [| |done].
      * intros [= <-]. apply player_can_move_valid in En as [Hn Hv].
        right. exists (Player._next_direction p). split; [done|]. split; [done|].
        by rewrite player_move_to.
      * intros [= <-]. by left.
    + simpl_bind. intros [= <-]. by left.
Qed.

(** The first direction block changes the committed direction only. *)
Lemma resolve_turn_spec (p p' : Player.t) (m : Map.t) :
  Player.resolve_turn p m = Ok p' → ∃ d, p' = Player.set_direction d p.
Proof.
  unfold Player.resolve_turn.
  destruct (decide (Player._next_direction p ≠ Player._direction p)).
  - destruct (Player.can_move p (Player._next_direction p) m) as [[|]|]; simpl_bind;
      [by intros [= <-]; eexists| |done].
    destruct (Player.can_move p (Player._direction p) m) as [[|]|]; simpl_bind;
      [| |done]; intros [= <-].
    + exists (Player._direction p). by destruct p.
    + by eexists.
  - intros [= <-]. exists (Player._direction p). by destruct p.
Qed.

(** X16: the player never enters a wall.  After [update] the player has
    either stopped where it was, with the direction [NONE], or made one
    step of its speed in its new direction to a position that is valid
    for the player; lives, score, speed and the requested direction are
    untouched and the animation frame advances by one. *)
Theorem player_stays_clear (p p' : Player.t) (delta_time : F64.t) (m : Map.t) :
  Player.update p delta_time m = Ok p' →
  ((Player._position p' = Player._position p ∧ Player._direction p' = NONE)
   ∨ (Player._direction p' ≠ NONE
      ∧ Player._position p' = advanced p (Player._direction p')
      ∧ Map.is_valid_position m (Player._position p') base_sprite_size "player" = Ok true))
  ∧ Player._lives p' = Player._lives p
  ∧ Player._score p' = Player._score p
  ∧ Player._speed p' = Player._speed p
  ∧ Player._next_direction p' = Player._next_direction p
  ∧ Player._animation_frame p' = Player._animation_frame p + 1.
Proof.
  unfold Player.update.
  set (p0 := Player.tick_power_up p delta_time).
  assert (Hp0 : Player._position p0 = Player._position p ∧ Player._speed p0 = Player._speed p
                ∧ Player._lives p0 = Player._lives p ∧ Player._score p0 = Player._score p
                ∧ Player._next_direction p0 = Player._next_direction p
                ∧ Player._animation_frame p0 = Player._animation_frame p).
  { unfold p0, Player.tick_power_up. destruct (Player._power_up_active p); [|done].
    cbn. by destruct (F64.leb _ _). }
  destruct Hp0 as (Hpos & Hsp & Hl & Hsc & Hn & Hf).
  destruct (Player.resolve_turn p0 m) as [p1|] eqn:E1; [|done]. simpl_bind.
  destruct (Player.advance p1 m) as [p2|] eqn:E2; [|done]. simpl_bind.
  intros [= <-].
  apply resolve_turn_spec in E1 as [d1 ->].
  assert (Hadv : ∀ d, advanced (Player.set_direction d1 p0) d = advanced p d).
  { intros d. unfold advanced. cbn. by rewrite Hpos, Hsp. }
  apply advance_spec in E2 as [->|(d & Hd & Hv & ->)]; cbn.
  - split_and!; try done; [by left|by rewrite Hf].
  - rewrite Hadv in *. split_and!; try done; [by right|by rewrite Hf].
Qed.

(** The player of [walker UP RIGHT] in [street] after one update *)
Definition walker_after : Player.t :=
  Player.mk (Vector2D.mk 26 24) 16 1 2 RIGHT RIGHT 3 0 false 0 5000.

Lemma player_stays_clear_witness :
  ((Player._position walker_after = Player._position (walker UP RIGHT)
    ∧ Player._direction walker_after = NONE)
   ∨ (Player._direction walker_after ≠ NONE
      ∧ Player._position walker_after
        = advanced (walker UP RIGHT) (Player._direction walker_after)
      ∧ Map.is_valid_position street (Player._position walker_after)
          base_sprite_size "player" = Ok true))
  ∧ Player._lives walker_after = Player._lives (walker UP RIGHT)
  ∧ Player._score walker_after = Player._score (walker UP RIGHT)
  ∧ Player._speed walker_after = Player._speed (walker UP RIGHT)
  ∧ Player._next_direction walker_after = Player._next_direction (walker UP RIGHT)
  ∧ Player._animation_frame walker_after = Player._animation_frame (walker UP RIGHT) + 1.
Proof.
  apply (player_stays_clear (walker UP RIGHT) walker_after 0 street).
  vm_compute. reflexivity.
Defined.

(** ** Countdowns at the clock of the game *)

(** [run] hands every frame [delta_time = self._clock.tick(60) / 1000.0],
    the whole milliseconds since the last frame divided by the double
    1000. *)
Definition frame_time (ms : Z) : F64.t := F64.div ms 1000.

(** One frame of a countdown, [timer -= delta_time * 1000] followed by
    the test [timer <= 0]: the timer that is left, if any. *)
Definition tick (delta_time timer : F64.t) : option F64.t :=
  let timer := F64.sub timer (F64.mul delta_time 1000) in
  if F64.leb timer 0 then None else Some timer.

Definition ticks (delta_time : F64.t) (n : nat) (timer : F64.t) : option F64.t :=
  Nat.iter n (fun o => o ≫= tick delta_time) (Some timer).

(** The countdown from [timer] runs for as long as the elapsed
    milliseconds, counted in whole numbers, are less than 5000. *)
Fixpoint keeps_time (delta_time : F64.t) (ms elapsed : Z) (fuel : nat) (timer : F64.t) : bool :=
  match fuel with
  | O => false
  | S fuel =>
      match tick delta_time timer with
      | None => 5000 <=? elapsed + ms
      | Some timer =>
          (elapsed + ms <? 5000) && keeps_time delta_time ms (elapsed + ms) fuel timer
      end
  end.

Lemma ticks_succ (delta_time : F64.t) (n : nat) (timer : F64.t) :
  ticks delta_time (S n) timer
  = match tick delta_time timer with
    | Some timer' => ticks delta_time n timer'
    | None => None
    end.
Proof.
  unfold ticks. rewrite Nat.iter_succ_r.
  change (Some timer ≫= tick delta_time) with (tick delta_time timer).
  destruct (tick delta_time timer) as [timer'|]; [done|].
  induction n as [|n IH]; [done|]. rewrite Nat.iter_succ, IH. done.
Qed.

Lemma keeps_time_spec (delta_time : F64.t) (ms : Z) (fuel : nat) :
  ∀ (elapsed : Z) (timer : F64.t) (n : nat),
    0 < ms → elapsed < 5000 →
    keeps_time delta_time ms elapsed fuel timer = true →
    is_Some (ticks delta_time n timer) ↔ elapsed + Z.of_nat n * ms < 5000.
Proof.
  induction fuel as [|fuel IH]; intros elapsed timer n Hms He Hk; [done|].
  destruct n as [|n].
  - split; [lia|]. intros _. by eexists.
  - rewrite ticks_succ. cbn [keeps_time] in Hk.
    destruct (tick delta_time timer) as [timer'|].
    + apply andb_true_iff in Hk as [Hlt Hk]. apply Z.ltb_lt in Hlt.
      rewrite (IH (elapsed + ms) timer' n Hms Hlt Hk). lia.
    + apply Z.leb_le in Hk. split; [by intros []|]. nia.
Qed.

Lemma game_clock_keeps_time (ms : Z) :
  1 ≤ ms ≤ 1000 → keeps_time (frame_time ms) ms 0 5000 5000 = true.
Proof.
  intros Hms.
  assert (Hall : forallb (fun ms => keeps_time (frame_time ms) ms 0 5000 5000) (seqZ 1 1000)
                 = true) by (vm_compute; reflexivity).
  rewrite forallb_forall in Hall. apply Hall.
  apply list_elem_of_In, elem_of_seqZ. lia.
Qed.

Lemma ticks_at_game_clock (ms : Z) (n : nat) :
  1 ≤ ms ≤ 1000 →
  is_Some (ticks (frame_time ms) n 5000) ↔ Z.of_nat n * ms < 5000.
Proof.
  intros Hms.
  rewrite (keeps_time_spec (frame_time ms) ms 5000 0 5000 n);
    [lia|lia|lia|by apply game_clock_keeps_time].
Qed.

(** ** The duration of a power-up *)

(** [n] frames of the power-up countdown, each of [delta_time] seconds *)
Definition countdown (delta_time : F64.t) (n : nat) (p : Player.t) : Player.t :=
  Nat.iter n (fun q => Player.tick_power_up q delta_time) p.

Lemma update_power_up (p p' : Player.t) (delta_time : F64.t) (m : Map.t) :
  Player.update p delta_time m = Ok p' →
  Player._power_up_active p' = Player._power_up_active (Player.tick_power_up p delta_time)
  ∧ Player._power_up_timer p' = Player._power_up_timer (Player.tick_power_up p delta_time)
  ∧ Player._power_up_duration p' = Player._power_up_duration p.
Proof.
  unfold Player.update.
  set (p0 := Player.tick_power_up p delta_time).
  assert (Hd : Player._power_up_duration p0 = Player._power_up_duration p).
  { unfold p0, Player.tick_power_up. destruct (Player._power_up_active p); [|done].
    cbn. by destruct (F64.leb _ _). }
  destruct (Player.resolve_turn p0 m) as [p1|] eqn:E1; [|done]. simpl_bind.
  destruct (Player.advance p1 m) as [p2|] eqn:E2; [|done]. simpl_bind.
  intros [= <-].
  apply resolve_turn_spec in E1 as [d1 ->].
  apply advance_spec in E2 as [->|(d & _ & _ & ->)]; by cbn.
Qed.

Lemma tick_power_up_spec (q : Player.t) (delta_time : F64.t) :
  (Player._power_up_active q = false → Player.tick_power_up q delta_time = q)
  ∧ (Player._power_up_active q = true →
     match tick delta_time (Player._power_up_timer q) with
     | Some timer =>
         Player._power_up_active (Player.tick_power_up q delta_time) = true
         ∧ Player._power_up_timer (Player.tick_power_up q delta_time) = timer
     | None =>
         Player._power_up_active (Player.tick_power_up q delta_time) = false
         ∧ Player._power_up_timer (Player.tick_power_up q delta_time) = 0
     end).
Proof.
  unfold Player.tick_power_up, tick. split; intros Ha; rewrite Ha; [done|].
  cbn [Player.set_power_up_timer Player._power_up_timer]. cbv zeta.
  by destruct (F64.leb _ _).
Qed.

Lemma countdown_spec (p : Player.t) (delta_time : F64.t) (n : nat) :
  let p' := countdown delta_time n (Player.activate_power_up p) in
  match ticks delta_time n (Player._power_up_duration p) with
  | Some timer => Player._power_up_active p' = true ∧ Player._power_up_timer p' = timer
  | None => Player._power_up_active p' = false ∧ Player._power_up_timer p' = 0
  end.
Proof.
  cbv zeta. induction n as [|n IH]; [done|].
  change (countdown delta_time (S n) (Player.activate_power_up p))
    with (Player.tick_power_up (countdown delta_time n (Player.activate_power_up p))
            delta_time).
  set (q := countdown delta_time n (Player.activate_power_up p)) in *.
  change (ticks delta_time (S n) (Player._power_up_duration p))
    with (ticks delta_time n (Player._power_up_duration p) ≫= tick delta_time).
  destruct (tick_power_up_spec q delta_time) as [T0 T1].
  destruct (ticks delta_time n (Player._power_up_duration p)) as [timer|];
    destruct IH as [Ha Ht]; cbn [mbind option_bind].
  - specialize (T1 Ha). by rewrite Ht in T1.
  - by rewrite (T0 Ha).
Qed.

(** X17: at the clock of the game a power-up lasts the 5000 milliseconds
    of its duration.  After [activate_power_up] and [n] updates whose
    [delta_time] is [ms / 1000.0], for a whole number [ms] of
    milliseconds from 1 to 1000, the power-up is still active exactly
    when the elapsed [n * ms] milliseconds are less than 5000; once it
    has ended its timer is 0.  The movement part of [update] does not
    touch the countdown. *)
Theorem power_up_lasts (p : Player.t) (ms : Z) (n : nat) :
  Player._power_up_duration p = 5000 → 1 ≤ ms ≤ 1000 →
  let p' := countdown (frame_time ms) n (Player.activate_power_up p) in
  (Player._power_up_active p' = true ↔ Z.of_nat n * ms < 5000)
  ∧ (Player._power_up_active p' = false → Player._power_up_timer p' = 0)
  ∧ (∀ (q q' : Player.t) (delta_time : F64.t) (m : Map.t),
       Player.update q delta_time m = Ok q' →
       Player._power_up_active q'
       = Player._power_up_active (Player.tick_power_up q delta_time)
       ∧ Player._power_up_timer q'
         = Player._power_up_timer (Player.tick_power_up q delta_time)).
Proof.
  intros Hdur Hms p'. pose proof (countdown_spec p (frame_time ms) n) as Hc.
  cbv zeta in Hc. fold p' in Hc. rewrite Hdur in Hc.
  pose proof (ticks_at_game_clock ms n Hms) as Ht.
  split_and!.
  - destruct (ticks (frame_time ms) n 5000) as [timer|]; destruct Hc as [Ha _]; rewrite Ha.
    + split; [intros _|done]. apply Ht. by eexists.
    + split; [done|]. intros Hlt. apply Ht in Hlt. by destruct Hlt.
  - destruct (ticks (frame_time ms) n 5000) as [timer|]; destruct Hc as [Ha Hz];
      [congruence|done].
  - intros q q' delta_time m Hu. apply update_power_up in Hu as (H1 & H2 & _). done.
Qed.

Definition powered : Player.t := Player.init 24 24 16 2 3 0.

(** At 60 frames a second the clock reports 16 or 17 milliseconds: with
    16 the power-up is still active after 312 frames and over after 313,
    with 17 still active after 294 and over after 295. *)
Lemma power_up_lasts_witness :
  Player._power_up_active (countdown (frame_time 16) 312 (Player.activate_power_up powered)) = true
  ∧ Player._power_up_active (countdown (frame_time 16) 313 (Player.activate_power_up powered)) = false
  ∧ Player._power_up_active (countdown (frame_time 17) 294 (Player.activate_power_up powered)) = true
  ∧ Player._power_up_active (countdown (frame_time 17) 295 (Player.activate_power_up powered)) = false
  ∧ let p' := countdown (frame_time 17) 295 (Player.activate_power_up powered) in
    (Player._power_up_active p' = true ↔ Z.of_nat 295 * 17 < 5000)
    ∧ (Player._power_up_active p' = false → Player._power_up_timer p' = 0)
    ∧ (∀ (q q' : Player.t) (delta_time : F64.t) (m : Map.t),
         Player.update q delta_time m = Ok q' →
         Player._power_up_active q'
         = Player._power_up_active (Player.tick_power_up q delta_time)
         ∧ Player._power_up_timer q'
           = Player._power_up_timer (Player.tick_power_up q delta_time)).
Proof.
  do 4 (split; [vm_compute; reflexivity|]).
  apply (power_up_lasts powered 17 295); [reflexivity|lia].
Defined.

(** ** Steering requests *)

(** X18: assigning a direction.  The setter of [direction] stores its
    argument in [_next_direction] and leaves the committed direction,
    which the getter returns, as it was; a pair is decoded to the
    direction whose value it is, so assigning [d.value] is assigning [d];
    and a pair that is the value of no direction raises [ValueError]. *)
Theorem direction_setter_decodes (p : Player.t) :
  (∀ d : Direction,
     Player.direction_setter (inr (inject_Z (value d).1, inject_Z (value d).2)) p
     = Ok (Player.set_next_direction d p)
     ∧ Player.direction_setter (inl d) p = Ok (Player.set_next_direction d p))
  ∧ (∀ new_direction p',
       Player.direction_setter new_direction p = Ok p' →
       Player.direction p' = Player.direction p
       ∧ Player._position p' = Player._position p)
  ∧ (∀ a b : Q,
       (∀ d : Direction, ¬ (inject_Z (value d).1 == a ∧ inject_Z (value d).2 == b)%Q) →
       Player.direction_setter (inr (a, b)) p = Raise ValueError).
Proof.
  split_and!.
  - intros d. split; [|done]. by destruct d.
  - intros nd p'. unfold Player.direction_setter.
    destruct nd as [d|pair]; [by intros [= <-]|].
    destruct (List.find _ _); [by intros [= <-]|done].
  - intros a b Hno. unfold Player.direction_setter.
    destruct (List.find _ Player.members) as [d|] eqn:Ef; [|done].
    apply List.find_some in Ef as [_ Ef]. cbn [fst snd] in Ef.
    apply andb_true_iff in Ef as [E1 E2]. apply Qeq_bool_iff in E1, E2.
    by destruct (Hno d).
Qed.

(** ** The greedy choice of a chasing ghost *)

(** [min(l, key=...)] returns an element of the list whose key is the
    least, for keys that are square roots. *)
Lemma min_by_spec {A : Type} (key : A → Surd.t) (r : A → Q) (first : A) (rest : list A) :
  (∀ a, a ∈ first :: rest → key a = Surd.sqrt (r a)) →
  min_by key first rest ∈ first :: rest
  ∧ ∀ a, a ∈ first :: rest → (r (min_by key first rest) <= r a)%Q.
Proof.
  revert first. induction rest as [|x rest IH]; intros first Hk.
  - simpl. split; [by left|]. intros a Ha. apply list_elem_of_singleton in Ha as ->. qlra.
  - unfold min_by. simpl.
    set (best := if Surd.ltb (key x) (key first) then x else first).
    assert (best ∈ [first; x] ∧ (r best <= r first)%Q ∧ (r best <= r x)%Q) as (Hb & Hf & Hx).
    { subst best.
      rewrite (Hk x), (Hk first) by (rewrite !elem_of_cons; tauto).
      pose proof (Surd_ltb_roots (r x) (r first)) as L.
      destruct (Surd.ltb (Surd.sqrt (r x)) (Surd.sqrt (r first))).
      - assert (r x < r first)%Q by (by apply L).
        split; [rewrite !elem_of_cons; tauto|]. split; qlra.
      - split; [rewrite !elem_of_cons; tauto|]. split; [qlra|].
        destruct (Qlt_le_dec (r x) (r first)) as [G|G]; [|done].
        apply L in G. done. }
    destruct (IH best) as (Hin & Hmin).
    { intros a Ha. apply Hk. rewrite !elem_of_cons in *. rewrite elem_of_nil in Hb.
      destruct Ha as [->|Ha]; tauto. }
    fold (min_by key best rest). split.
    + rewrite !elem_of_cons in *. rewrite elem_of_nil in Hb.
      destruct Hin as [->|Hin]; tauto.
    + intros a Ha. rewrite !elem_of_cons in Ha. destruct Ha as [->|[->|Ha]].
      * eapply Qle_trans; [|exact Hf]. apply Hmin. by left.
      * eapply Qle_trans; [|exact Hx]. apply Hmin. by left.
      * apply Hmin. by right.
Qed.

(** X19: the greedy choice on a rectangular maze.  [choose_direction]
    returns a result; the result is [NONE] exactly when none of the four
    directions is free; any other result is a free direction; and for a
    ghost that is not vulnerable it is a free direction whose next
    position is nearest to the target. *)
Theorem choose_direction_greedy (g : Ghost.t) (m : Map.t) (target : Vector2D.t) :
  Map.well_formed m →
  ∃ d, Ghost.choose_direction g m target = Ok d
       ∧ (d = NONE ↔ ∀ d', Ghost.can_move g d' m = Ok false)
       ∧ (d ≠ NONE → Ghost.can_move g d m = Ok true)
       ∧ (Ghost._state g ≠ "vulnerable" →
          ∀ d', Ghost.can_move g d' m = Ok true →
                Surd.leb (away g target d) (away g target d') = true).
Proof.
  intros Hwf. unfold Ghost.choose_direction.
  destruct (possible_directions_spec g m target [UP; DOWN; LEFT; RIGHT]) as (l & -> & Hl).
  { intros d _. by apply ghost_can_move_ok. }
  simpl_bind.
  assert (Hfree : ∀ d', Ghost.can_move g d' m = Ok true → (d', away g target d') ∈ l).
  { intros d' Hd'. apply Hl. exists d'. split; [by eapply can_move_true_listed|done]. }
  destruct l as [|first rest].
  { exists NONE. split; [done|]. split_and!; try done.
    - split; [intros _|done]. intros d'.
      destruct (ghost_can_move_ok g d' m Hwf) as [[|] Hb]; [|done].
      apply Hfree in Hb. by apply elem_of_nil in Hb.
    - intros _ d' Hd'. apply Hfree in Hd'. by apply elem_of_nil in Hd'. }
  assert (Hpick : ∀ best, best ∈ first :: rest →
            Ghost.can_move g best.1 m = Ok true ∧ best.1 ≠ NONE
            ∧ best.2 = away g target best.1).
  { intros best (d & Hd & Hf & ->)%Hl. cbn [fst snd]. split; [done|]. split; [|done].
    intros ->. unfold Ghost.can_move, MovableObject.can_move in Hf. done. }
  destruct (max_by_spec snd (fun x => away2 g target x.1) first rest) as (Hmaxin & _).
  { intros a Ha. apply Hl in Ha as (d & _ & _ & ->). reflexivity. }
  destruct (min_by_spec snd (fun x => away2 g target x.1) first rest) as (Hminin & Hmin).
  { intros a Ha. apply Hl in Ha as (d & _ & _ & ->). reflexivity. }
  destruct (String.eqb_spec (Ghost._state g) "vulnerable") as [Hs|Hs].
  - eexists. split; [reflexivity|].
    destruct (Hpick _ Hmaxin) as (Hc & Hn & _). split_and!; try done.
    split; [done|]. intros Hall. rewrite Hall in Hc. done.
  - eexists. split; [reflexivity|].
    destruct (Hpick _ Hminin) as (Hc & Hn & Hbest). split_and!; try done.
    + split; [done|]. intros Hall. rewrite Hall in Hc. done.
    + intros _ d' Hd'. rewrite !away_sqrt, Surd_leb_roots.
      apply (Hmin (d', away g target d')). by apply Hfree.
Qed.

(** A ghost in the first free cell of [street], not vulnerable *)
Definition hunter : Ghost.t := Ghost.init 24 24 16 1.5 (Vector2D.mk 24 24) "red".

Lemma choose_direction_greedy_witness :
  ∃ d, Ghost.choose_direction hunter street (Vector2D.mk 40 24) = Ok d
       ∧ (d = NONE ↔ ∀ d', Ghost.can_move hunter d' street = Ok false)
       ∧ (d ≠ NONE → Ghost.can_move hunter d street = Ok true)
       ∧ (Ghost._state hunter ≠ "vulnerable" →
          ∀ d', Ghost.can_move hunter d' street = Ok true →
                Surd.leb (away hunter (Vector2D.mk 40 24) d)
                         (away hunter (Vector2D.mk 40 24) d') = true).
Proof.
  apply (choose_direction_greedy hunter street (Vector2D.mk 40 24)).
  exact street_well_formed.
Defined.

(** ** Waypoints *)

(** The component of a displacement along a direction *)
Definition along (d : Direction) (diff_x diff_y : Q) : Q :=
  (inject_Z (value d).1 * diff_x + inject_Z (value d).2 * diff_y)%Q.

(** X20: the direction towards a waypoint.  [calculate_direction_to_waypoint]
    never returns [NONE]; the direction it returns is the one along which
    the displacement to the waypoint is greatest, namely the larger of
    the two absolute coordinate differences, the vertical one on a tie;
    for a ghost standing on the waypoint it returns [UP]. *)
Theorem waypoint_direction (g : Ghost.t) (waypoint : Vector2D.t) :
  let d := Ghost.calculate_direction_to_waypoint g waypoint in
  let diff_x := (Vector2D.x waypoint - Vector2D.x (Ghost._position g))%Q in
  let diff_y := (Vector2D.y waypoint - Vector2D.y (Ghost._position g))%Q in
  d ≠ NONE
  ∧ (along d diff_x diff_y == Qmax (Qabs diff_x) (Qabs diff_y))%Q
  ∧ (∀ d', along d' diff_x diff_y <= along d diff_x diff_y)%Q
  ∧ ((diff_x == 0)%Q → (diff_y == 0)%Q → d = UP)
  ∧ ((Qabs diff_x == Qabs diff_y)%Q → d = UP ∨ d = DOWN).
Proof.
  intros d diff_x diff_y. subst d. unfold Ghost.calculate_direction_to_waypoint.
  fold diff_x diff_y.
  assert (Hm : ∀ d0 : Direction, d0 ≠ NONE →
            (along d0 diff_x diff_y == Qmax (Qabs diff_x) (Qabs diff_y))%Q →
            d0 ≠ NONE
            ∧ (along d0 diff_x diff_y == Qmax (Qabs diff_x) (Qabs diff_y))%Q
            ∧ (∀ d', along d' diff_x diff_y <= along d0 diff_x diff_y)%Q).
  { intros d0 Hn He. split; [done|]. split; [done|]. intros d'. rewrite He.
    pose proof (Q.le_max_l (Qabs diff_x) (Qabs diff_y)) as M1.
    pose proof (Q.le_max_r (Qabs diff_x) (Qabs diff_y)) as M2.
    pose proof (Qle_Qabs diff_x) as A1. pose proof (Qle_Qabs diff_y) as A2.
    pose proof (Qle_Qabs (- diff_x)) as A3. pose proof (Qle_Qabs (- diff_y)) as A4.
    rewrite Qabs_opp in A3, A4. pose proof (Qabs_nonneg diff_x).
    destruct d'; unfold along; cbn [value fst snd]; unfold inject_Z; qlra. }
  case_Qle (Qabs diff_x) (Qabs diff_y); cbn [negb].
  - assert (Qmax (Qabs diff_x) (Qabs diff_y) == Qabs diff_y)%Q as Hmax
      by (apply Q.max_r; done).
    case_Qle diff_y 0%Q; cbn [negb].
    + destruct (Hm UP) as (H1 & H2 & H3); [done| |].
      { rewrite Hmax. unfold along; cbn [value fst snd]; unfold inject_Z.
        rewrite (Qabs_neg diff_y) by done. qlra. }
      split_and!; auto.
    + destruct (Hm DOWN) as (H1 & H2 & H3); [done| |].
      { rewrite Hmax. unfold along; cbn [value fst snd]; unfold inject_Z.
        rewrite (Qabs_pos diff_y) by qlra. qlra. }
      split_and!; auto. intros _ Hy. exfalso. qlra.
  - assert (Qmax (Qabs diff_x) (Qabs diff_y) == Qabs diff_x)%Q as Hmax
      by (apply Q.max_l; qlra).
    case_Qle diff_x 0%Q; cbn [negb].
    + destruct (Hm LEFT) as (H1 & H2 & H3); [done| |].
      { rewrite Hmax. unfold along; cbn [value fst snd]; unfold inject_Z.
        rewrite (Qabs_neg diff_x) by done. qlra. }
      split_and!; auto.
      * intros Hx Hy. exfalso. rewrite Hx, Hy in E. discriminate E.
      * intros He. exfalso. qlra.
    + destruct (Hm RIGHT) as (H1 & H2 & H3); [done| |].
      { rewrite Hmax. unfold along; cbn [value fst snd]; unfold inject_Z.
        rewrite (Qabs_pos diff_x) by qlra. qlra. }
      split_and!; auto.
      * intros Hx Hy. exfalso. qlra.
      * intros He. exfalso. qlra.
Qed.

(** ** Patrol routes *)

Lemma patrol_route_length (ghost_type : string) :
  length (Ghost._get_patrol_route ghost_type) = 8%nat.
Proof.
  unfold Ghost._get_patrol_route.
  repeat (destruct (String.eqb ghost_type _); [reflexivity|]). reflexivity.
Qed.

Lemma patrol_target_ok (g : Ghost.t) :
  Ghost._patrol_route g ≠ [] →
  ∃ waypoint, Ghost.get_current_patrol_target g = Ok waypoint
              ∧ Ghost._patrol_route g
                !! Z.to_nat (Ghost._patrol_index g
                             mod Z.of_nat (length (Ghost._patrol_route g)))
                = Some waypoint.
Proof.
  intros Hne. unfold Ghost.get_current_patrol_target.
  destruct (Ghost._patrol_route g) as [|w route] eqn:Er; [done|].
  set (n := Z.of_nat (length (w :: route))).
  assert (0 < n) by (unfold n; cbn [length]; lia).
  pose proof (Z.mod_pos_bound (Ghost._patrol_index g) n ltac:(lia)) as Hb.
  destruct ((w :: route) !! Z.to_nat (Ghost._patrol_index g mod n)) as [p|] eqn:El.
  - by exists p.
  - apply lookup_ge_None in El. unfold n in *. lia.
Qed.

(** X21: patrolling never leaves the route.  For a ghost with a
    non-empty patrol route, whatever its patrol index is, the current
    patrol target is a waypoint of the route (no [IndexError]);
    [advance_patrol_waypoint] returns [True] exactly when the ghost is
    within its type's tolerance of that waypoint, then the index moves to
    the next waypoint, wrapping around at the end of the route, and
    otherwise the ghost is unchanged.  Every ghost is constructed with a
    route of 8 waypoints. *)
Theorem patrol_stays_on_route (g : Ghost.t) :
  Ghost._patrol_route g ≠ [] →
  ∃ (waypoint : Vector2D.t) (g' : Ghost.t) (advanced_flag : bool),
    Ghost.get_current_patrol_target g = Ok waypoint
    ∧ waypoint ∈ Ghost._patrol_route g
    ∧ Ghost.advance_patrol_waypoint g = Ok (g', advanced_flag)
    ∧ (advanced_flag = true
       ↔ Surd.ltb (Vector2D.distance_to (Ghost._position g) waypoint)
                  (Surd.of_Q (inject_Z (Ghost.tolerance (Ghost._ghost_type g)))) = true)
    ∧ (advanced_flag = true →
       Ghost._patrol_index g'
       = (Ghost._patrol_index g + 1) mod Z.of_nat (length (Ghost._patrol_route g))
       ∧ 0 ≤ Ghost._patrol_index g' < Z.of_nat (length (Ghost._patrol_route g)))
    ∧ (advanced_flag = false → g' = g)
    ∧ Ghost._patrol_route g' = Ghost._patrol_route g
    ∧ Ghost._position g' = Ghost._position g
    ∧ ∀ px py size speed initial_position ghost_type,
        length (Ghost._patrol_route
                  (Ghost.init px py size speed initial_position ghost_type)) = 8%nat.
Proof.
  intros Hne. destruct (patrol_target_ok g Hne) as (waypoint & Ht & Hl).
  unfold Ghost.advance_patrol_waypoint. rewrite Ht.
  destruct (Ghost._patrol_route g) as [|w route] eqn:Er; [done|]. simpl_bind.
  assert (Hlast : ∀ px py size speed initial_position ghost_type,
            length (Ghost._patrol_route
                      (Ghost.init px py size speed initial_position ghost_type)) = 8%nat).
  { intros. apply patrol_route_length. }
  destruct (Surd.ltb _ _) eqn:Enear.
  - eexists waypoint, _, true.
    split; [done|]. split; [by eapply list_elem_of_lookup_2|]. split; [done|].
    split; [done|]. split.
    { intros _. split; [done|]. cbn [Ghost.set_patrol_index Ghost._patrol_index].
      apply Z.mod_pos_bound. cbn [length]. lia. }
    split; [done|]. split; [by rewrite <- Er|]. split; [done|exact Hlast].
  - exists waypoint, g, false.
    split; [done|]. split; [by eapply list_elem_of_lookup_2|]. split; [done|].
    split; [by rewrite Enear|]. split; [done|]. split; [done|]. split; [by rewrite <- Er|].
    split; [done|exact Hlast].
Qed.

Lemma patrol_stays_on_route_witness :
  ∃ (waypoint : Vector2D.t) (g' : Ghost.t) (advanced_flag : bool),
    Ghost.get_current_patrol_target hunter = Ok waypoint
    ∧ waypoint ∈ Ghost._patrol_route hunter
    ∧ Ghost.advance_patrol_waypoint hunter = Ok (g', advanced_flag)
    ∧ (advanced_flag = true
       ↔ Surd.ltb (Vector2D.distance_to (Ghost._position hunter) waypoint)
                  (Surd.of_Q (inject_Z (Ghost.tolerance (Ghost._ghost_type hunter)))) = true)
    ∧ (advanced_flag = true →
       Ghost._patrol_index g'
       = (Ghost._patrol_index hunter + 1) mod Z.of_nat (length (Ghost._patrol_route hunter))
       ∧ 0 ≤ Ghost._patrol_index g' < Z.of_nat (length (Ghost._patrol_route hunter)))
    ∧ (advanced_flag = false → g' = hunter)
    ∧ Ghost._patrol_route g' = Ghost._patrol_route hunter
    ∧ Ghost._position g' = Ghost._position hunter
    ∧ ∀ px py size speed initial_position ghost_type,
        length (Ghost._patrol_route
                  (Ghost.init px py size speed initial_position ghost_type)) = 8%nat.
Proof.
  apply (patrol_stays_on_route hunter). done.
Defined.

(** ** Difficulty between the levels 0 and 200 *)

(** What [set_difficulty(level)] makes of the timings: the vulnerable
    duration for the base duration 8000 of the game, the patrol and the
    chase duration, and the A* period. *)
Definition timings (g : Ghost.t) : Z * Z * Z * Z :=
  (Ghost.get_difficulty_adjusted_vulnerable_duration g 8000,
   (Ghost.get_difficulty_adjusted_mode_timing g).1,
   (Ghost.get_difficulty_adjusted_mode_timing g).2,
   Ghost._astar_frequency g).

Definition timings_at (level : Z) : Z * Z * Z * Z :=
  timings (Ghost.set_difficulty (Ghost.init 0 0 16 (3 # 2) (Vector2D.mk 0 0) "red") level).

Lemma timings_of_level (g : Ghost.t) (level : Z) :
  timings (Ghost.set_difficulty g level) = timings_at level.
Proof. reflexivity. Qed.

(** From one level to the next nothing moves the wrong way. *)
Definition harder (easy hard : Z * Z * Z * Z) : bool :=
  let '(v, p, c, f) := easy in
  let '(v', p', c', f') := hard in
  (v' <=? v) && (p' <=? p) && (c <=? c') && (f' <=? f).

Lemma harder_refl (a : Z * Z * Z * Z) : harder a a = true.
Proof.
  destruct a as [[[v p] c] f]. unfold harder.
  rewrite !andb_true_iff, !Z.leb_le. lia.
Qed.

Lemma harder_trans (a b c : Z * Z * Z * Z) :
  harder a b = true → harder b c = true → harder a c = true.
Proof.
  destruct a as [[[v1 p1] c1] f1], b as [[[v2 p2] c2] f2], c as [[[v3 p3] c3] f3].
  unfold harder. rewrite !andb_true_iff, !Z.leb_le. lia.
Qed.

Lemma next_level_harder (a : Z) :
  0 ≤ a < 200 → harder (timings_at a) (timings_at (a + 1)) = true.
Proof.
  intros Ha.
  assert (Hall : forallb (fun a => harder (timings_at a) (timings_at (a + 1))) (seqZ 0 200)
                 = true) by (vm_compute; reflexivity).
  rewrite forallb_forall in Hall. apply Hall.
  apply list_elem_of_In, elem_of_seqZ. lia.
Qed.

Lemma level_harder (a b : Z) :
  0 ≤ a → a ≤ b → b ≤ 200 → harder (timings_at a) (timings_at b) = true.
Proof.
  intros Ha Hab. revert b Hab. apply (Z.le_ind (fun b => b ≤ 200 → harder (timings_at a) (timings_at b) = true)).
  - solve_proper.
  - intros _. apply harder_refl.
  - intros b Hab IH Hb. replace (Z.succ b) with (b + 1) in * by lia.
    eapply harder_trans; [apply IH; lia|]. apply next_level_harder. lia.
Qed.

Lemma level_bounds (a : Z) :
  0 ≤ a ≤ 200 → 399 ≤ (timings_at a).2 ∧ (timings_at a).1.2 ≤ 39000.
Proof.
  intros Ha.
  assert (Hall : forallb (fun a => (399 <=? (timings_at a).2) && ((timings_at a).1.2 <=? 39000))
                   (seqZ 0 201) = true) by (vm_compute; reflexivity).
  rewrite forallb_forall in Hall.
  specialize (Hall a). rewrite andb_true_iff, Z.leb_le, Z.leb_le in Hall. apply Hall.
  apply list_elem_of_In, elem_of_seqZ. lia.
Qed.

(** X22: between the levels 0 and 200 difficulty is monotone.  For levels
    [0 <= a <= b <= 200], a ghost set to [b] is vulnerable no longer than
    one set to [a] (base duration 8000), patrols no longer, chases at
    least as long and recomputes its path at least as often; the A*
    period stays at 399 or more and the chase duration at 39000 or less,
    so that the clamps at 200 and 40000 are not reached.  The period is
    2000 at level 0, 799 at level 150 and 399 at level 200: the products
    [2000 * 0.3999999999999999] and [2000 * 0.19999999999999996] of
    doubles are cut off below 800 and 400. *)
Theorem difficulty_monotone (g : Ghost.t) (a b : Z) :
  0 ≤ a → a ≤ b → b ≤ 200 →
  let easy := Ghost.set_difficulty g a in
  let hard := Ghost.set_difficulty g b in
  Ghost.get_difficulty_adjusted_vulnerable_duration hard 8000
  ≤ Ghost.get_difficulty_adjusted_vulnerable_duration easy 8000
  ∧ (Ghost.get_difficulty_adjusted_mode_timing hard).1
    ≤ (Ghost.get_difficulty_adjusted_mode_timing easy).1
  ∧ (Ghost.get_difficulty_adjusted_mode_timing easy).2
    ≤ (Ghost.get_difficulty_adjusted_mode_timing hard).2
  ∧ Ghost._astar_frequency hard ≤ Ghost._astar_frequency easy
  ∧ 399 ≤ Ghost._astar_frequency hard
  ∧ (Ghost.get_difficulty_adjusted_mode_timing hard).2 ≤ 39000
  ∧ Ghost._astar_frequency (Ghost.set_difficulty g 0) = 2000
  ∧ Ghost._astar_frequency (Ghost.set_difficulty g 150) = 799
  ∧ Ghost._astar_frequency (Ghost.set_difficulty g 200) = 399.
Proof.
  intros Ha Hab Hb easy hard.
  pose proof (level_harder a b Ha Hab Hb) as Hh.
  destruct (level_bounds b) as [Hf Hc]; [lia|].
  rewrite <- (timings_of_level g a), <- (timings_of_level g b) in Hh.
  rewrite <- (timings_of_level g b) in Hf, Hc. fold easy hard in Hh, Hf, Hc.
  unfold timings, harder in Hh. cbv beta iota in Hh.
  rewrite !andb_true_iff, !Z.leb_le in Hh.
  unfold timings in Hf, Hc. cbn [fst snd] in Hf, Hc.
  split_and!; try tauto; vm_compute; reflexivity.
Qed.

Lemma difficulty_monotone_witness :
  let easy := Ghost.set_difficulty fast_ghost 3 in
  let hard := Ghost.set_difficulty fast_ghost 150 in
  Ghost.get_difficulty_adjusted_vulnerable_duration easy 8000 = 7795
  ∧ Ghost.get_difficulty_adjusted_vulnerable_duration hard 8000 = 1000
  ∧ Ghost.get_difficulty_adjusted_mode_timing easy = (9865, 15360)
  ∧ Ghost.get_difficulty_adjusted_mode_timing hard = (3249, 33000)
  ∧ Ghost._astar_frequency easy = 1976
  ∧ Ghost.get_difficulty_adjusted_vulnerable_duration hard 8000
    ≤ Ghost.get_difficulty_adjusted_vulnerable_duration easy 8000
  ∧ (Ghost.get_difficulty_adjusted_mode_timing hard).1
    ≤ (Ghost.get_difficulty_adjusted_mode_timing easy).1
  ∧ (Ghost.get_difficulty_adjusted_mode_timing easy).2
    ≤ (Ghost.get_difficulty_adjusted_mode_timing hard).2
  ∧ Ghost._astar_frequency hard ≤ Ghost._astar_frequency easy
  ∧ 399 ≤ Ghost._astar_frequency hard
  ∧ (Ghost.get_difficulty_adjusted_mode_timing hard).2 ≤ 39000
  ∧ Ghost._astar_frequency (Ghost.set_difficulty fast_ghost 0) = 2000
  ∧ Ghost._astar_frequency (Ghost.set_difficulty fast_ghost 150) = 799
  ∧ Ghost._astar_frequency (Ghost.set_difficulty fast_ghost 200) = 399.
Proof.
  do 5 (split; [vm_compute; reflexivity|]).
  apply (difficulty_monotone fast_ghost 3 150); lia.
Defined.

(** ** Back to the spawn points *)

(** X23: [reset_position] brings a ghost to one canonical state at its
    spawn point.  It is idempotent, and whatever happened to the ghost
    before (it was made vulnerable, was captured and is waiting, its
    vulnerability ran down, its mode switched) makes no difference to the
    result; it restores the base speed and leaves the difficulty
    settings alone.  Accordingly [_reset_positions] of the controller is
    idempotent. *)
Theorem reset_position_absorbs (g : Ghost.t) :
  Ghost.reset_position (Ghost.reset_position g) = Ghost.reset_position g
  ∧ (∀ duration, Ghost.reset_position (Ghost.set_vulnerable g duration)
                 = Ghost.reset_position g)
  ∧ Ghost.reset_position (Ghost.set_eaten_with_delay g) = Ghost.reset_position g
  ∧ (∀ delta_time, Ghost.reset_position (Ghost.tick_vulnerable g delta_time)
                   = Ghost.reset_position g)
  ∧ (∀ delta_time, Ghost.reset_position (Ghost.update_mode g delta_time)
                   = Ghost.reset_position g)
  ∧ Ghost._speed (Ghost.reset_position g) = Ghost._base_speed g
  ∧ Ghost._difficulty_multiplier (Ghost.reset_position g) = Ghost._difficulty_multiplier g
  ∧ Ghost._astar_frequency (Ghost.reset_position g) = Ghost._astar_frequency g
  ∧ (∀ gm, Game._reset_positions (Game._reset_positions gm) = Game._reset_positions gm).
Proof.
  assert (Hidem : ∀ g0, Ghost.reset_position (Ghost.reset_position g0)
                        = Ghost.reset_position g0)
    by (intros []; vm_compute; reflexivity).
  split_and!.
  - apply Hidem.
  - intros duration. destruct g. vm_compute. reflexivity.
  - destruct g. vm_compute. reflexivity.
  - intros dt. unfold Ghost.tick_vulnerable.
    destruct (String.eqb (Ghost._state g) "vulnerable"); [|reflexivity]. cbv zeta.
    destruct (F64.leb _ _); destruct g; vm_compute; reflexivity.
  - intros dt. unfold Ghost.update_mode. cbv zeta.
    destruct (Ghost.get_difficulty_adjusted_mode_timing _) as [patrol_duration chase_duration].
    destruct (String.eqb _ _); destruct (F64.ltb _ _); destruct g; vm_compute; reflexivity.
  - destruct g. vm_compute. reflexivity.
  - destruct g. vm_compute. reflexivity.
  - destruct g. vm_compute. reflexivity.
  - intros gm.
    assert (Hl : ∀ l, map Ghost.reset_position (map Ghost.reset_position l)
                      = map Ghost.reset_position l).
    { induction l as [|a l IH]; [done|]. cbn [map]. by rewrite Hidem, IH. }
    destruct gm as [st ia pn sc m p gs ps ct ci am nm it cs w].
    unfold Game._reset_positions.
    cbn [Game._map Game._player Game._ghosts Game.set_player Game.set_ghosts].
    rewrite Hl. reflexivity.
Qed.

(** ** Waiting at the spawn point *)








(** ** The ghost loop: at most one life per frame *)

(** The player [p] touches a ghost in the normal state *)
Definition hit (p : Player.t) (ghost : Ghost.t) : bool :=
  touches p ghost && String.eqb (Ghost._state ghost) "normal".

(** The player [p] touches a vulnerable ghost *)
Definition caught (p : Player.t) (ghost : Ghost.t) : bool :=
  touches p ghost && String.eqb (Ghost._state ghost) "vulnerable".

Definition sent_home (p : Player.t) (ghost : Ghost.t) : Ghost.t :=
  if caught p ghost then Ghost.set_eaten_with_delay ghost else ghost.

(** No ghost has its initial position within the collision radius of the
    player's spawn point. *)
Definition spawn_is_clear (gm : Game.t) : Prop :=
  Forall (fun ghost =>
            Surd.ltb (Vector2D.distance_to
                        (Map.get_spawn_position (Game._map gm) "player")
                        (Ghost._initial_position ghost))
                     (Surd.of_Q (inject_Z Game.collision_radius)) = false)
         (Game._ghosts gm).

(** The loop has reached index [k] and no life was lost: the ghosts
    before [k] the player caught are back home, the others are those of
    [gm0]. *)
Definition unhurt (gm0 gm : Game.t) (k : nat) : Prop :=
  Player._lives (Game._player gm) = Player._lives (Game._player gm0)
  ∧ Player._position (Game._player gm) = Player._position (Game._player gm0)
  ∧ Game._state gm = Game._state gm0
  ∧ Game.waited gm = Game.waited gm0
  ∧ Game._map gm = Game._map gm0
  ∧ Player._score (Game._player gm)
    = Player._score (Game._player gm0)
      + 200 * Z.of_nat (length (filter (fun g => caught (Game._player gm0) g = true)
                                       (take k (Game._ghosts gm0))))
  ∧ Game._ghosts gm
    = (sent_home (Game._player gm0) <$> take k (Game._ghosts gm0))
      ++ drop k (Game._ghosts gm0)
  ∧ Forall (fun g => hit (Game._player gm0) g = false) (take k (Game._ghosts gm0)).

(** A life was lost and everybody is back at the spawn points. *)
Definition hurt (gm0 gm : Game.t) : Prop :=
  Player._lives (Game._player gm) = Player._lives (Game._player gm0) - 1
  ∧ Player._position (Game._player gm) = Map.get_spawn_position (Game._map gm0) "player"
  ∧ Game._state gm = Game._state gm0
  ∧ Game.waited gm = Game.waited gm0 + 1000
  ∧ Game._map gm = Game._map gm0
  ∧ Ghost._position <$> Game._ghosts gm = Ghost._initial_position <$> Game._ghosts gm0
  ∧ Forall (fun g => Ghost._state g = "normal") (Game._ghosts gm).

Lemma reset_position_fields (g : Ghost.t) :
  Ghost._position (Ghost.reset_position g) = Ghost._initial_position g
  ∧ Ghost._state (Ghost.reset_position g) = "normal"
  ∧ Ghost._initial_position (Ghost.reset_position g) = Ghost._initial_position g.
Proof. destruct g as [? ? ? ? ? ? ? [] ]. vm_compute. done. Qed.

Lemma set_eaten_with_delay_home (g : Ghost.t) :
  Ghost._initial_position (Ghost.set_eaten_with_delay g) = Ghost._initial_position g.
Proof. destruct g as [? ? ? ? ? ? ? [] ]. vm_compute. done. Qed.

Lemma sent_home_home (p : Player.t) (g : Ghost.t) :
  Ghost._initial_position (sent_home p g) = Ghost._initial_position g.
Proof.
  unfold sent_home. destruct (caught p g); [|done]. apply set_eaten_with_delay_home.
Qed.

Lemma lose_life_spare (p : Player.t) :
  1 < Player._lives p →
  Player._lives (Player.lose_life p) = Player._lives p - 1
  ∧ Player._score (Player.lose_life p) = Player._score p.
Proof.
  intros H. unfold Player.lose_life. simpl.
  destruct (Player._lives p - 1 <? 0) eqn:E; simpl; [lia|done].
Qed.

Lemma hurt_step (gm0 gm : Game.t) (j : nat) :
  spawn_is_clear gm0 → hurt gm0 gm → Game.collide_ghost gm j = gm.
Proof.
  intros Hfar (Hl & Hp & Hs & Hw & Hm & Hg & Hn). unfold Game.collide_ghost.
  destruct (Game._ghosts gm !! j) as [ghost|] eqn:Ek; [|done].
  assert ((Ghost._position <$> Game._ghosts gm) !! j = Some (Ghost._position ghost)) as Hj
    by (by rewrite list_lookup_fmap, Ek).
  rewrite Hg, list_lookup_fmap in Hj.
  destruct (Game._ghosts gm0 !! j) as [g0|] eqn:E0; [|done].
  injection Hj as Hj.
  unfold spawn_is_clear in Hfar. rewrite Forall_lookup in Hfar.
  specialize (Hfar j g0 E0). cbv beta in Hfar.
  rewrite Hp, <- Hj, Hfar. done.
Qed.

Lemma hurt_steps (gm0 gm : Game.t) (l : list nat) :
  spawn_is_clear gm0 → hurt gm0 gm → fold_left Game.collide_ghost l gm = gm.
Proof.
  intros Hfar H. induction l as [|j l IH]; [done|].
  cbn [fold_left]. by rewrite (hurt_step gm0 gm j).
Qed.

Lemma unhurt_next (gm0 : Game.t) (k : nat) (g : Ghost.t) (ghosts : list Ghost.t) (score : Z) :
  Game._ghosts gm0 !! k = Some g →
  hit (Game._player gm0) g = false →
  ghosts = (sent_home (Game._player gm0) <$> take k (Game._ghosts gm0))
           ++ sent_home (Game._player gm0) g :: drop (S k) (Game._ghosts gm0) →
  score = Player._score (Game._player gm0)
          + 200 * Z.of_nat (length (filter (fun g => caught (Game._player gm0) g = true)
                                           (take k (Game._ghosts gm0))))
          + (if caught (Game._player gm0) g then 200 else 0) →
  Forall (fun g => hit (Game._player gm0) g = false) (take k (Game._ghosts gm0)) →
  score
  = Player._score (Game._player gm0)
    + 200 * Z.of_nat (length (filter (fun g => caught (Game._player gm0) g = true)
                                     (take (S k) (Game._ghosts gm0))))
  ∧ ghosts
    = (sent_home (Game._player gm0) <$> take (S k) (Game._ghosts gm0))
      ++ drop (S k) (Game._ghosts gm0)
  ∧ Forall (fun g => hit (Game._player gm0) g = false) (take (S k) (Game._ghosts gm0)).
Proof.
  intros Hk Hh -> -> HF. rewrite (take_S_r _ _ _ Hk).
  rewrite filter_app, length_app, fmap_app, <- app_assoc. split_and!.
  - rewrite filter_cons, filter_nil.
    destruct (decide (caught (Game._player gm0) g = true)) as [->|Hc].
    + cbn [length]. lia.
    + destruct (caught (Game._player gm0) g); [done|]. cbn [length]. lia.
  - done.
  - apply Forall_app. split; [done|]. by constructor.
Qed.

Lemma unhurt_step (gm0 gm : Game.t) (k : nat) (g : Ghost.t) :
  1 < Player._lives (Game._player gm0) →
  unhurt gm0 gm k →
  Game._ghosts gm0 !! k = Some g →
  (hit (Game._player gm0) g = false ∧ unhurt gm0 (Game.collide_ghost gm k) (S k))
  ∨ (hit (Game._player gm0) g = true ∧ hurt gm0 (Game.collide_ghost gm k)).
Proof.
  intros Hlives (Hl & Hp & Hs & Hw & Hm & Hsc & Hg & Hn) Hk.
  assert (Hlen : length (sent_home (Game._player gm0) <$> take k (Game._ghosts gm0)) = k).
  { rewrite length_fmap, length_take. apply lookup_lt_Some in Hk. lia. }
  assert (Hd : drop k (Game._ghosts gm0) = g :: drop (S k) (Game._ghosts gm0))
    by (by apply drop_S).
  assert (Hgk : Game._ghosts gm !! k = Some g).
  { rewrite Hg, lookup_app_r by lia. rewrite Hlen, Nat.sub_diag, Hd. done. }
  unfold Game.collide_ghost. rewrite Hgk. rewrite Hp.
  destruct (Surd.ltb _ _) eqn:Et.
  2:{ assert (Hh : hit (Game._player gm0) g = false)
        by (unfold hit, touches; by rewrite Et).
      assert (Hc : caught (Game._player gm0) g = false)
        by (unfold caught, touches; by rewrite Et).
      left. split; [done|]. unfold unhurt. rewrite Hl, Hp, Hs, Hw, Hm.
      do 5 (split; [done|]).
      apply (unhurt_next gm0 k g); try done.
      - unfold sent_home. by rewrite Hc, Hg, Hd.
      - rewrite Hc. lia. }
  destruct (String.eqb (Ghost._state g) "vulnerable") eqn:Ev.
  { apply String.eqb_eq in Ev as Ev'.
    assert (String.eqb (Ghost._state g) "normal" = false) as En
      by (rewrite Ev'; reflexivity).
    assert (Hh : hit (Game._player gm0) g = false)
      by (unfold hit, touches; by rewrite Et, En).
    assert (Hc : caught (Game._player gm0) g = true)
      by (unfold caught, touches; by rewrite Et, Ev).
    left. split; [done|].
    unfold unhurt. simpl. rewrite Hl, Hp, Hs, Hw, Hm. do 5 (split; [done|]).
    apply (unhurt_next gm0 k g); try done.
    - unfold sent_home at 2. rewrite Hc, Hg, Hd.
      rewrite insert_app_r_alt by lia. by rewrite Hlen, Nat.sub_diag.
    - rewrite Hc. unfold Player.eat_pellet. simpl. lia. }
  destruct (String.eqb (Ghost._state g) "normal") eqn:En.
  2:{ assert (Hh : hit (Game._player gm0) g = false)
        by (unfold hit, touches; by rewrite Et, En).
      assert (Hc : caught (Game._player gm0) g = false)
        by (unfold caught, touches; by rewrite Et, Ev).
      left. split; [done|].
      unfold unhurt. rewrite Hl, Hp, Hs, Hw, Hm.
      do 5 (split; [done|]).
      apply (unhurt_next gm0 k g); try done.
      - unfold sent_home. by rewrite Hc, Hg, Hd.
      - rewrite Hc. lia. }
  right. split; [unfold hit, touches; by rewrite Et, En|]. simpl.
  destruct (lose_life_spare (Game._player gm) ltac:(lia)) as [Hll _].
  destruct (Player._lives (Player.lose_life (Game._player gm)) <=? 0) eqn:E; [lia|].
  unfold hurt. simpl. rewrite Hll, Hl, Hs, Hw, Hm. split_and!; try done.
  - rewrite <- list_fmap_compose.
    transitivity (Ghost._initial_position <$> Game._ghosts gm).
    { apply list_fmap_ext. intros i x _. cbn.
      by destruct (reset_position_fields x) as (? & _). }
    rewrite Hg, !fmap_app, <- !list_fmap_compose.
    rewrite <- (take_drop k (Game._ghosts gm0)) at 3. rewrite fmap_app. f_equal.
    apply list_fmap_ext. intros i x _. cbn. apply sent_home_home.
  - apply Forall_fmap, Forall_forall. intros x _. cbn.
    by destruct (reset_position_fields x) as (_ & ? & _).
Qed.

Lemma collide_ghosts_run (gm0 gm : Game.t) (n k : nat) :
  spawn_is_clear gm0 →
  1 < Player._lives (Game._player gm0) →
  unhurt gm0 gm k →
  (k + n)%nat = length (Game._ghosts gm0) →
  let gm' := fold_left Game.collide_ghost (seq k n) gm in
  (Forall (fun g => hit (Game._player gm0) g = false) (Game._ghosts gm0)
   ∧ unhurt gm0 gm' (length (Game._ghosts gm0)))
  ∨ (Exists (fun g => hit (Game._player gm0) g = true) (Game._ghosts gm0)
     ∧ hurt gm0 gm').
Proof.
  intros Hfar Hlives. revert gm k.
  induction n as [|n IH]; intros gm k HU Hk gm'.
  - left. subst gm'. cbn [seq fold_left].
    replace k with (length (Game._ghosts gm0)) in HU by lia. split; [|done].
    destruct HU as (_ & _ & _ & _ & _ & _ & _ & HF).
    by rewrite firstn_all in HF.
  - destruct (lookup_lt_is_Some_2 (Game._ghosts gm0) k ltac:(lia)) as [g Hg].
    subst gm'. cbn [seq fold_left].
    destruct (unhurt_step gm0 gm k g Hlives HU Hg) as [[Hh HU']|[Hh HH]].
    + apply (IH _ (S k) HU'). lia.
    + right. split.
      * apply Exists_exists. exists g. split; [|done]. by eapply list_elem_of_lookup_2.
      * by rewrite (hurt_steps gm0).
Qed.

(** X25: at most one life per frame.  The player has a life to spare and
    no ghost has its initial position within the collision radius of the
    player's spawn point.  If the player touches a ghost in the normal
    state when the ghost loop of [update] starts, the loop takes exactly
    one life, however many ghosts the player touches: the player is put
    on its spawn point, every ghost on its initial position in the normal
    state, one pause of 1000 ms is waited for and the game goes on.  If
    the player touches no such ghost, the loop takes no life and moves
    nobody but the vulnerable ghosts the player touches: each of them is
    sent home by [set_eaten_with_delay] and earns 200 points. *)
Theorem one_life_per_frame (gm : Game.t) :
  spawn_is_clear gm →
  1 < Player._lives (Game._player gm) →
  let gm' := Game.collide_ghosts gm in
  let p := Game._player gm in
  Game._state gm' = Game._state gm
  ∧ Game._map gm' = Game._map gm
  ∧ if existsb (hit p) (Game._ghosts gm) then
      Player._lives (Game._player gm') = Player._lives p - 1
      ∧ Player._position (Game._player gm') = Map.get_spawn_position (Game._map gm) "player"
      ∧ Game.waited gm' = Game.waited gm + 1000
      ∧ Ghost._position <$> Game._ghosts gm' = Ghost._initial_position <$> Game._ghosts gm
      ∧ Forall (fun g => Ghost._state g = "normal") (Game._ghosts gm')
    else
      Player._lives (Game._player gm') = Player._lives p
      ∧ Player._position (Game._player gm') = Player._position p
      ∧ Game.waited gm' = Game.waited gm
      ∧ Player._score (Game._player gm')
        = Player._score p
          + 200 * Z.of_nat (length (filter (fun g => caught p g = true) (Game._ghosts gm)))
      ∧ Game._ghosts gm' = sent_home p <$> Game._ghosts gm.
Proof.
  intros Hfar Hlives gm' p.
  assert (HU : unhurt gm gm 0).
  { unfold unhurt. rewrite take_0, drop_0. cbn. split_and!; try done. lia. }
  destruct (collide_ghosts_run gm gm (length (Game._ghosts gm)) 0 Hfar Hlives HU eq_refl)
    as [[HF H]|[HE H]].
  - fold (Game.collide_ghosts gm) in H. fold gm' in H.
    destruct H as (Hl & Hp & Hs & Hw & Hm & Hsc & Hg & _).
    rewrite firstn_all in Hsc, Hg. rewrite drop_all, app_nil_r in Hg.
    assert (existsb (hit p) (Game._ghosts gm) = false) as ->.
    { apply not_true_is_false. intros (x & Hin & Hx)%existsb_exists.
      rewrite Forall_forall in HF. apply list_elem_of_In in Hin.
      specialize (HF x Hin). fold p in HF. congruence. }
    split_and!; done.
  - fold (Game.collide_ghosts gm) in H. fold gm' in H.
    destruct H as (Hl & Hp & Hs & Hw & Hm & Hg & Hn).
    assert (existsb (hit p) (Game._ghosts gm) = true) as ->.
    { apply existsb_exists. apply Exists_exists in HE as (x & Hin & Hx).
      exists x. split; [by apply list_elem_of_In|done]. }
    split_and!; done.
Qed.

(** A game in play on [street]: the player with three lives at its spawn
    point (24, 24) and two ghosts in the normal state, both two pixels
    away, whose initial position is (40, 24). *)
Definition ambush : Game.t :=
  let ghost := Ghost.init 26 24 16 1.5 (Vector2D.mk 40 24) "red" in
  Game.mk PLAYING false "" false street
    (Player.init 24 24 16 2 3 0)
    [ghost; ghost] []
    0 0 [] None 0 [] 0.

Lemma ambush_clear : spawn_is_clear ambush ∧ 1 < Player._lives (Game._player ambush).
Proof. split; [|done]. repeat constructor. Qed.

Lemma one_life_per_frame_witness :
  Player._lives (Game._player (Game.collide_ghosts ambush)) = 2.
Proof.
  destruct ambush_clear as [Hfar Hlives].
  destruct (one_life_per_frame ambush Hfar Hlives) as (_ & _ & H).
  change (existsb (hit (Game._player ambush)) (Game._ghosts ambush)) with true in H.
  destruct H as (H & _). exact H.
Defined.

(** ** The table of high scores *)

Lemma filter_none {A : Type} (P : A → Prop) `{!∀ x, Decision (P x)} (l : list A) :
  (∀ x, x ∈ l → ¬ P x) → filter P l = [].
Proof.
  induction l as [|a l IH]; intros Hnone; [done|].
  rewrite filter_cons_False by (apply Hnone; by left).
  apply IH. intros x Hx. apply Hnone. by right.
Qed.

(** Scores descend along the list. *)
Definition descending (l : list HighScoreManager.entry) : Prop :=
  StronglySorted (fun a b => HighScoreManager.score b ≤ HighScoreManager.score a) l.

Lemma insert_desc_perm (e : HighScoreManager.entry) (l : list HighScoreManager.entry) :
  HighScoreManager.insert_desc e l ≡ₚ e :: l.
Proof.
  induction l as [|a l IH]; [done|]. cbn [HighScoreManager.insert_desc].
  destruct (_ <? _); [|done]. rewrite IH. apply Permutation_swap.
Qed.

Lemma sorted_desc_perm (l : list HighScoreManager.entry) :
  HighScoreManager.sorted_desc l ≡ₚ l.
Proof.
  induction l as [|a l IH]; [done|].
  unfold HighScoreManager.sorted_desc in *. cbn [foldr].
  by rewrite insert_desc_perm, IH.
Qed.

Lemma insert_desc_descending (e : HighScoreManager.entry) (l : list HighScoreManager.entry) :
  descending l → descending (HighScoreManager.insert_desc e l).
Proof.
  unfold descending. induction l as [|a l IH]; intros H.
  - by repeat constructor.
  - cbn [HighScoreManager.insert_desc].
    apply StronglySorted_inv in H as [Hl Ha].
    destruct (HighScoreManager.score e <? HighScoreManager.score a) eqn:E.
    + constructor; [by apply IH|].
      rewrite insert_desc_perm. constructor; [lia|done].
    + constructor; [by constructor|].
      constructor; [lia|]. eapply Forall_impl; [exact Ha|]. cbn. intros x Hx. lia.
Qed.

Lemma sorted_desc_descending (l : list HighScoreManager.entry) :
  descending (HighScoreManager.sorted_desc l).
Proof.
  induction l as [|a l IH]; [constructor|].
  unfold HighScoreManager.sorted_desc in *. cbn [foldr].
  by apply insert_desc_descending.
Qed.

(** Entries of one score keep their order: the sort is stable. *)
Lemma insert_desc_stable (s : Z) (e : HighScoreManager.entry) (l : list HighScoreManager.entry) :
  descending l →
  filter (fun x => HighScoreManager.score x = s) (HighScoreManager.insert_desc e l)
  = filter (fun x => HighScoreManager.score x = s) (e :: l).
Proof.
  unfold descending. induction l as [|a l IH]; intros H; [done|].
  cbn [HighScoreManager.insert_desc].
  apply StronglySorted_inv in H as [Hl Ha].
  destruct (HighScoreManager.score e <? HighScoreManager.score a) eqn:E; [|done].
  rewrite filter_cons, (IH Hl), !filter_cons.
  destruct (decide (HighScoreManager.score a = s)); [|done].
  destruct (decide (HighScoreManager.score e = s)); [lia|done].
Qed.

Lemma sorted_desc_stable (s : Z) (l : list HighScoreManager.entry) :
  filter (fun x => HighScoreManager.score x = s) (HighScoreManager.sorted_desc l)
  = filter (fun x => HighScoreManager.score x = s) l.
Proof.
  induction l as [|a l IH]; [done|].
  unfold HighScoreManager.sorted_desc in *. cbn [foldr].
  rewrite insert_desc_stable by apply sorted_desc_descending.
  by rewrite !filter_cons, IH.
Qed.

Lemma insert_desc_front (e : HighScoreManager.entry) (l : list HighScoreManager.entry) :
  Forall (fun x => HighScoreManager.score x ≤ HighScoreManager.score e) l →
  HighScoreManager.insert_desc e l = e :: l.
Proof.
  destruct l as [|a l]; [done|]. intros [Ha _]%Forall_cons.
  cbn [HighScoreManager.insert_desc].
  destruct (HighScoreManager.score e <? HighScoreManager.score a) eqn:E; [lia|done].
Qed.

(** On a table that descends already the new entry goes behind the
    entries that are at least as good. *)
Lemma sorted_desc_snoc (e : HighScoreManager.entry) (l : list HighScoreManager.entry) :
  descending l →
  HighScoreManager.sorted_desc (l ++ [e])
  = filter (fun x => HighScoreManager.score e ≤ HighScoreManager.score x) l
    ++ e :: filter (fun x => HighScoreManager.score x < HighScoreManager.score e) l.
Proof.
  unfold descending, HighScoreManager.sorted_desc.
  induction l as [|a l IH]; intros H; [done|].
  apply StronglySorted_inv in H as [Hl Ha].
  cbn [app foldr]. rewrite (IH Hl). rewrite !filter_cons.
  destruct (decide (HighScoreManager.score e ≤ HighScoreManager.score a)) as [Hge|Hlt].
  - destruct (decide (HighScoreManager.score a < HighScoreManager.score e)); [lia|].
    apply insert_desc_front. apply Forall_app. split.
    + apply Forall_forall. intros x [_ Hx]%list_elem_of_filter.
      rewrite Forall_forall in Ha. by apply Ha.
    + constructor; [done|].
      apply Forall_forall. intros x [_ Hx]%list_elem_of_filter.
      rewrite Forall_forall in Ha. by apply Ha.
  - destruct (decide (HighScoreManager.score a < HighScoreManager.score e)); [|lia].
    rewrite Forall_forall in Ha.
    assert (Hnone : filter (fun x => HighScoreManager.score e ≤ HighScoreManager.score x) l = []).
    { apply filter_none. intros x Hx. specialize (Ha x Hx). cbn in Ha. lia. }
    assert (Hall : filter (fun x => HighScoreManager.score x < HighScoreManager.score e) l = l).
    { apply filter_all. intros x Hx. specialize (Ha x Hx). cbn in Ha. lia. }
    rewrite Hnone, Hall. cbn [app HighScoreManager.insert_desc].
    destruct (HighScoreManager.score a <? HighScoreManager.score e) eqn:E; [|lia].
    f_equal. apply insert_desc_front. apply Forall_forall. intros x Hx. by apply Ha.
Qed.

(** A table that descends is its entries of at least a given score
    followed by the others. *)
Lemma descending_split (s : Z) (l : list HighScoreManager.entry) :
  descending l →
  l = filter (fun x => s ≤ HighScoreManager.score x) l
      ++ filter (fun x => HighScoreManager.score x < s) l.
Proof.
  unfold descending. induction l as [|a l IH]; intros H; [done|].
  apply StronglySorted_inv in H as [Hl Ha]. rewrite !filter_cons.
  destruct (decide (s ≤ HighScoreManager.score a)) as [Hge|Hlt].
  - destruct (decide (HighScoreManager.score a < s)); [lia|].
    cbn [app]. f_equal. by apply IH.
  - destruct (decide (HighScoreManager.score a < s)); [|lia].
    rewrite Forall_forall in Ha.
    rewrite filter_none, filter_all; [done| |].
    + intros x Hx. specialize (Ha x Hx). cbn in Ha. lia.
    + intros x Hx. specialize (Ha x Hx). cbn in Ha. lia.
Qed.

(** X26: [add_score] keeps the ten best.  The table it leaves has one
    entry more than before, up to ten; its scores descend, whatever order
    the table had; its entries are entries of the old table or the new
    one; no entry it drops has a higher score than one it keeps; entries
    of equal score keep the order they had, the new one last; and the
    file holds the table.  If the old table descended, the new entry
    stands behind every entry that is at least as good: with ten such
    entries it is not recorded, so a score that ties the tenth place of
    a full table does not enter. *)
Theorem add_score_keeps_top_ten (self : HighScoreManager.t) (name : string) (score : Z) :
  let e := HighScoreManager.mk_entry name score in
  let old := HighScoreManager.highscores self in
  let new := HighScoreManager.highscores (HighScoreManager.add_score self name score) in
  length new = Nat.min (S (length old)) 10
  ∧ descending new
  ∧ new ⊆+ e :: old
  ∧ (∀ x y, x ∈ e :: old → x ∉ new → y ∈ new →
            HighScoreManager.score x ≤ HighScoreManager.score y)
  ∧ HighScoreManager.file (HighScoreManager.add_score self name score) = new
  ∧ (descending old →
     new = take 10 (filter (fun x => score ≤ HighScoreManager.score x) old
                    ++ e :: filter (fun x => HighScoreManager.score x < score) old)
     ∧ ((10 ≤ length (filter (fun x => (score ≤ HighScoreManager.score x)%Z) old))%nat →
        new = take 10 old))
  ∧ (∀ s, filter (fun x => HighScoreManager.score x = s) new
          `prefix_of` filter (fun x => HighScoreManager.score x = s) (old ++ [e])).
Proof.
  intros e old new.
  set (all := HighScoreManager.sorted_desc (old ++ [e])).
  assert (Hnew : new = take 10 all) by reflexivity.
  assert (Hperm : all ≡ₚ e :: old).
  { unfold all. rewrite sorted_desc_perm. by rewrite Permutation_app_comm. }
  assert (Hdesc : descending all) by apply sorted_desc_descending.
  split_and!.
  - rewrite Hnew, length_take, Hperm. cbn [length]. lia.
  - rewrite Hnew. unfold descending in *.
    rewrite <- (take_drop 10 all) in Hdesc.
    by apply StronglySorted_app_1_l in Hdesc.
  - rewrite Hnew, <- Hperm. apply submseteq_take.
  - intros x y Hx Hnx Hy. rewrite Hnew in Hnx, Hy.
    rewrite <- Hperm, <- (take_drop 10 all), elem_of_app in Hx.
    destruct Hx as [Hx|Hx]; [done|].
    unfold descending in Hdesc. rewrite <- (take_drop 10 all) in Hdesc.
    apply (StronglySorted_app_1_elem_of _ _ _ y x Hdesc Hy Hx).
  - done.
  - intros Hold.
    assert (Hall : all = filter (fun x => score ≤ HighScoreManager.score x) old
                         ++ e :: filter (fun x => HighScoreManager.score x < score) old)
      by (by apply sorted_desc_snoc).
    split; [by rewrite Hnew, Hall|].
    intros Hten. rewrite Hnew, Hall.
    rewrite take_app_le by done.
    transitivity (take 10 (filter (fun x => score ≤ HighScoreManager.score x) old
                           ++ filter (fun x => HighScoreManager.score x < score) old)).
    + by rewrite take_app_le by done.
    + by rewrite <- (descending_split score old Hold).
  - intros s. rewrite <- (sorted_desc_stable s (old ++ [e])). fold all.
    rewrite Hnew. rewrite <- (take_drop 10 all) at 2. rewrite filter_app.
    by eexists.
Qed.

(** A full table whose tenth place holds 100 points *)
Definition full_table : HighScoreManager.t :=
  let row (n : Z) := HighScoreManager.mk_entry "ana" n in
  let l := [row 1000; row 900; row 800; row 700; row 600;
            row 500; row 400; row 300; row 200; row 100] in
  HighScoreManager.mk l l.

Lemma add_score_keeps_top_ten_witness :
  HighScoreManager.highscores (HighScoreManager.add_score full_table "bia" 100)
  = HighScoreManager.highscores full_table.
Proof.
  destruct (add_score_keeps_top_ten full_table "bia" 100) as (_ & _ & _ & _ & _ & H & _).
  assert (Hold : descending (HighScoreManager.highscores full_table)).
  { unfold descending, full_table. cbn [HighScoreManager.highscores].
    repeat (apply SSorted_cons; [|repeat (constructor; [cbn; lia|]); constructor]).
    apply SSorted_nil. }
  destruct (H Hold) as [_ Hten].
  rewrite Hten; [reflexivity|]. vm_compute. lia.
Defined.

(** ** Map files: what the validation accepts *)

(** A grid all of whose rows have the length of the first *)
Definition rectangular (layout : list (list Z)) : Prop :=
  Forall (fun row => length row = length (hd [] layout)) layout.

Definition cells_in_range (layout : list (list Z)) : Prop :=
  Forall (Forall (fun cell => 0 ≤ cell ≤ 3)) layout.

Lemma check_cells_spec (cells : list Map.json) :
  Map.check_cells cells = true
  ↔ ∃ row, Forall2 (fun cell n => Map.as_int cell = Some n) cells row
           ∧ Forall (fun cell => 0 ≤ cell ≤ 3) row.
Proof.
  induction cells as [|cell cells IH].
  - split; [|done]. intros _. exists []. by split.
  - cbn [Map.check_cells]. destruct (Map.as_int cell) as [n|] eqn:E.
    + destruct ((n <? 0) || (3 <? n)) eqn:B.
      * split; [done|]. intros (row & F & R).
        apply Forall2_cons_inv_l in F as (n' & row' & Hn & _ & ->).
        apply Forall_cons in R as [R _]. rewrite E in Hn. injection Hn as <-.
        apply orb_true_iff in B. lia.
      * apply orb_false_iff in B. rewrite IH. split.
        -- intros (row & F & R). exists (n :: row). split; constructor; try done. lia.
        -- intros (row & F & R).
           apply Forall2_cons_inv_l in F as (n' & row' & _ & F & ->).
           apply Forall_cons in R as [_ R]. by exists row'.
    + split; [done|]. intros (row & F & _).
      apply Forall2_cons_inv_l in F as (n' & row' & Hn & _ & _). congruence.
Qed.

Lemma check_rows_spec (row_length : nat) (rows : list Map.json) :
  Map.check_rows row_length rows = true
  ↔ ∃ layout, Forall2 (fun row cells => Map.row_of row = Some cells) rows layout
              ∧ Forall (fun row => length row = row_length) layout
              ∧ cells_in_range layout.
Proof.
  unfold cells_in_range. induction rows as [|row rows IH].
  - split; [|done]. intros _. exists []. by split_and!.
  - assert (Hinv : ∀ layout,
              Forall2 (fun row cells => Map.row_of row = Some cells) (row :: rows) layout →
              ∃ cells layout', Map.row_of row = Some cells
                ∧ Forall2 (fun row cells => Map.row_of row = Some cells) rows layout'
                ∧ layout = cells :: layout').
    { intros layout F. apply Forall2_cons_inv_l in F as (c & l' & ? & ? & ?). eauto. }
    cbn [Map.check_rows].
    destruct row as [| | | | |cells|];
      try (split; [done|]; intros (layout & (c & l' & Hc & _)%Hinv & _); discriminate Hc).
    destruct (length cells =? row_length)%nat eqn:EL; cbn [negb].
    2:{ apply Nat.eqb_neq in EL. split; [done|].
        intros (layout & (c & l' & Hc & _ & ->)%Hinv & [HL _]%Forall_cons & _).
        cbn [Map.row_of] in Hc. apply mapM_Some, Forall2_length in Hc. lia. }
    apply Nat.eqb_eq in EL.
    destruct (Map.check_cells cells) eqn:C.
    + apply check_cells_spec in C as (zs & Fz & Rz). rewrite IH. split.
      * intros (layout & F & L & R). exists (zs :: layout). split_and!.
        -- constructor; [|done]. cbn [Map.row_of]. by apply mapM_Some.
        -- constructor; [|done]. apply Forall2_length in Fz. lia.
        -- by constructor.
      * intros (layout & (c & l' & Hc & F & ->)%Hinv & [_ L]%Forall_cons & [_ R]%Forall_cons).
        by exists l'.
    + split; [done|].
      intros (layout & (c & l' & Hc & F & ->)%Hinv & _ & [R _]%Forall_cons).
      cbn [Map.row_of] in Hc. apply mapM_Some in Hc.
      assert (Map.check_cells cells = true) by (apply check_cells_spec; eauto).
      congruence.
Qed.

Lemma row_of_length (row : Map.json) (cells : list Z) :
  Map.row_of row = Some cells →
  ∃ items, row = Map.JList items ∧ length items = length cells.
Proof.
  destruct row; try done. cbn [Map.row_of]. intros H%mapM_Some%Forall2_length. eauto.
Qed.

(** X27: what [_validate_map_json] accepts.  It returns [True] exactly
    for an object whose entry ["layout"] is a non-empty list of lists of
    one length, every cell an integer (or a boolean) from 0 to 3.  The
    map such a layout gives after [_update_dimensions] is well formed
    for every positive cell size, so the collision queries never raise
    on it; [_validate_dimensions] then refuses it exactly when its rows
    are empty.  The validation raises [TypeError], instead of returning
    [False], for data that is [None], a boolean or a number, for a list
    with the element ["layout"], for a string that contains ["layout"],
    and for an object whose layout is a list starting with [None], a
    boolean or a number; it raises nothing else. *)
Theorem validation_accepts_grids (map_data : Map.json) :
  (Map._validate_map_json map_data = Map.Returns true
   ↔ ∃ d layout_data layout,
       map_data = Map.JDict d
       ∧ Map.dict_get "layout" d = Some layout_data
       ∧ Map.layout_of layout_data = Some layout
       ∧ layout ≠ [] ∧ rectangular layout ∧ cells_in_range layout)
  ∧ (∀ (layout : list (list Z)) (m : Map.t),
       rectangular layout →
       let m' := Map._update_dimensions (Map.set_layout m layout) in
       (0 < Map._cell_size m → Map.well_formed m')
       ∧ (Map._validate_dimensions m' = true ↔ hd [] layout ≠ []))
  ∧ (∀ e, Map._validate_map_json map_data = Map.Raises e
          ↔ e = Map.TypeError
            ∧ match map_data with
              | Map.JDict d =>
                  ∃ first rest, Map.dict_get "layout" d = Some (Map.JList (first :: rest))
                                ∧ Map.py_len first = Map.Raises Map.TypeError
              | Map.JList items => Map.JStr "layout" ∈ items
              | Map.JStr s => is_Some (String.index 0 "layout" s)
              | _ => True
              end).
Proof.
  split_and!.
  - split.
    + unfold Map._validate_map_json.
      destruct map_data as [| | | |s|items|d]; cbn [Map.contains Map.getitem]; try done.
      * by destruct (String.index _ _ _).
      * by destruct (existsb _ _).
      * destruct (Map.dict_get "layout" d) as [layout_data|] eqn:E; [|done].
        destruct layout_data as [| | | | |rows|]; try done.
        destruct rows as [|first rest]; [done|].
        destruct (Map.py_len first) as [row_length|] eqn:EL; [|done].
        intros H0.
        assert (H : Map.check_rows row_length (first :: rest) = true) by congruence.
        apply check_rows_spec in H as (layout & F & L & R).
        exists d, (Map.JList (first :: rest)), layout. split_and!; try done.
        -- cbn [Map.layout_of]. by apply mapM_Some.
        -- intros ->. by apply Forall2_nil_inv_r in F.
        -- apply Forall2_cons_inv_l in F as (c & l' & Hc & _ & ->).
           unfold rectangular. cbn [hd].
           apply Forall_cons in L as L'. destruct L' as [Lc _].
           eapply Forall_impl; [exact L|]. cbn. intros x Hx. lia.
    + intros (d & layout_data & layout & -> & E & Hl & Hne & Hrect & Hcells).
      unfold Map._validate_map_json. cbn [Map.contains Map.getitem]. rewrite E.
      destruct layout_data as [| | | | |rows|]; try done. cbn [Map.layout_of] in Hl.
      apply mapM_Some in Hl.
      destruct rows as [|first rest].
      { apply Forall2_nil_inv_l in Hl. done. }
      apply Forall2_cons_inv_l in Hl as Hl'. destruct Hl' as (c & l' & Hc & _ & ->).
      destruct (row_of_length first c Hc) as (items & -> & Hlen).
      cbn [Map.py_len]. f_equal. apply check_rows_spec.
      exists (c :: l'). split_and!; try done.
      unfold rectangular in Hrect. cbn [hd] in Hrect.
      eapply Forall_impl; [exact Hrect|]. cbn. intros x Hx. lia.
  - intros layout m Hrect m'. split.
    + intros Hcs. unfold Map.well_formed. split_and!; try done.
      subst m'. cbn. unfold rectangular in Hrect.
      destruct layout as [|row layout]; [done|]. cbn [hd] in Hrect.
      eapply Forall_impl; [exact Hrect|]. cbn. intros x Hx. by rewrite Hx.
    + subst m'. unfold Map._validate_dimensions. cbn.
      destruct layout as [|row layout]; [done|]. cbn [hd].
      destruct row as [|c row].
      * split; [|done]. intros [H _]%andb_true_iff. apply Z.ltb_lt in H.
        cbn [length] in H. lia.
      * split; [done|]. intros _. apply andb_true_iff.
        split; apply Z.ltb_lt; cbn [length]; lia.
  - intros e. unfold Map._validate_map_json.
    destruct map_data as [| | | |s|items|d]; cbn [Map.contains Map.getitem].
    1-4: split; [by intros [= <-]|by intros [-> _]].
    + destruct (String.index 0 "layout" s) as [i|].
      * split; [by intros [= <-]|by intros [-> _]].
      * split; [done|]. by intros [_ []].
    + destruct (existsb _ items) eqn:Ex.
      * split; [|by intros [-> _]]. intros [= <-]. split; [done|].
        apply existsb_exists in Ex as (v & Hin & Hv).
        destruct v; try done. apply String.eqb_eq in Hv as ->. by apply list_elem_of_In.
      * split; [done|]. intros [_ Hin]. apply list_elem_of_In in Hin.
        assert (existsb (fun v => match v with
                                  | Map.JStr s => (s =? "layout")%string
                                  | _ => false
                                  end) items = true); [|congruence].
        apply existsb_exists. eexists. split; [exact Hin|]. apply String.eqb_refl.
    + destruct (Map.dict_get "layout" d) as [layout_data|] eqn:E.
      2:{ split; [done|]. by intros [_ (? & ? & ? & _)]. }
      destruct layout_data as [| | | | |rows|];
        try (split; [done|]; by intros [_ (? & ? & ? & _)]).
      destruct rows as [|first rest].
      { split; [done|]. by intros [_ (? & ? & ? & _)]. }
      destruct (Map.py_len first) as [row_length|err] eqn:EL.
      * split; [done|]. intros [_ (f & r & [= <- <-] & HL)]. congruence.
      * assert (err = Map.TypeError) as -> by (by destruct first; cbn in EL; try injection EL as <-).
        split; [|by intros [-> _]]. intros [= <-]. split; [done|]. eauto.
Qed.
